(** * Proxima core: a shallow embedding of the tangle engine's pure logic

    The development follows the package layout of the Go sources:
    [multistate] (root records, coverage threshold, latest slot), [api]
    (inclusion score), [sequencer] (target time of the main loop), [vertex]
    (status and reference counting of a wrapped transaction), [tippool]
    (latest milestone per sequencer) and [poker] (the wake-up bus).  It goes on
    with the root records in the key/value store, the ledger identity
    ([ledgerid]), the consumers of a vertex, the input backlog of a
    sequencer ([backlog]), the sync manager ([syncmgr]) and the peers
    ([peering]).

    Go values are modelled as follows: [uint64], [uint32], [uint16] and [int]
    are integers of [Z] with the wrap-around written out; [[]byte] is a list
    of [Byte.byte]; a Go map is a [gmap]; a pointer to a [WrappedTx] is an
    address into an explicit heap.  A function that returns [(T, error)]
    returns an [outcome]: [Ok], [Err] for a returned error, [Panic] for a
    failed assertion. *)

From Stdlib Require Import ZArith List Lia Bool String.
From Stdlib.Strings Require Import Byte.
From stdpp Require Import base option list gmap strings.

Local Open Scope Z_scope.

(** ** Go runtime: outcomes, machine integers, byte slices *)

Module Go.

Inductive outcome (A : Type) : Type :=
| Ok (a : A)
| Err (e : string)
| Panic (msg : string).
Arguments Ok {A} a.
Arguments Err {A} e.
Arguments Panic {A} msg.

Definition bind {A B : Type} (m : outcome A) (k : A -> outcome B) : outcome B :=
  match m with
  | Ok a => k a
  | Err e => Err e
  | Panic msg => Panic msg
  end.

(** [util.Assertf(cond, msg)] *)
Definition Assertf (cond : bool) (msg : string) : outcome unit :=
  if cond then Ok tt else Panic msg.

(** [util.AssertNoError(err)]: a returned error becomes a panic. *)
Definition AssertNoError {A : Type} (m : outcome A) : outcome A :=
  match m with
  | Err e => Panic e
  | other => other
  end.

Definition isOk {A : Type} (m : outcome A) : bool :=
  match m with Ok _ => true | _ => false end.

Definition isErr {A : Type} (m : outcome A) : bool :=
  match m with Err _ => true | _ => false end.

Abbreviation bytes := (list byte).

Definition uint64_mod : Z := 2 ^ 64.
Definition uint32_mod : Z := 2 ^ 32.
Definition MaxUint16 : Z := 65535.
Definition int_min : Z := - 2 ^ 63.
Definition int_max : Z := 2 ^ 63 - 1.

Definition is_uint64 (x : Z) : Prop := 0 <= x < uint64_mod.
Definition is_uint32 (x : Z) : Prop := 0 <= x < uint32_mod.
Definition is_int (x : Z) : Prop := int_min <= x <= int_max.

Definition wrap_uint64 (x : Z) : Z := x mod uint64_mod.

(** Two's complement wrap-around of a Go [int] (64 bits). *)
Definition wrap_int (x : Z) : Z := (x + 2 ^ 63) mod 2 ^ 64 - 2 ^ 63.

(** [uint64(i)] for an [int] [i]. *)
Definition uint64_of_int (i : Z) : Z := i mod uint64_mod.

(** [a / b] on [uint64]: the Go runtime panics when the divisor is zero. *)
Definition uint64_div (a b : Z) : outcome Z :=
  if b =? 0 then Panic "integer divide by zero" else Ok (a / b).

Definition Z_of_byte (b : byte) : Z := Z.of_N (Byte.to_N b).

(** [byte(v)]: the low eight bits. *)
Definition byte_of_Z (v : Z) : byte :=
  match Byte.of_N (Z.to_N (Z.land v 255)) with
  | Some b => b
  | None => x00
  end.

(** [binary.BigEndian.PutUint64] / [PutUint32], for a width of [n] bytes:
    [b[0] = byte(v >> 8(n-1)); ...; b[n-1] = byte(v)]. *)
Fixpoint PutUint (n : nat) (v : Z) : bytes :=
  match n with
  | O => []
  | S k => byte_of_Z (Z.shiftr v (8 * Z.of_nat k)) :: PutUint k v
  end.

(** [binary.BigEndian.Uint64] / [Uint32]:
    [uint(b[n-1]) | uint(b[n-2])<<8 | ...]. *)
Definition Uint (b : bytes) : Z :=
  fold_left (fun acc x => Z.lor (Z.shiftl acc 8) (Z_of_byte x)) b 0.

Definition PutUint64 : Z -> bytes := PutUint 8.
Definition PutUint32 : Z -> bytes := PutUint 4.

(** [bytes.Compare(a, b)]: lexicographic, [-1], [0] or [1]. *)
Fixpoint Compare (a b : bytes) : Z :=
  match a, b with
  | [], [] => 0
  | [], _ :: _ => -1
  | _ :: _, [] => 1
  | x :: a', y :: b' =>
      if Z_of_byte x <? Z_of_byte y then -1
      else if Z_of_byte y <? Z_of_byte x then 1
      else Compare a' b'
  end.

End Go.

Export Go.

#[global] Instance outcome_ret : MRet outcome := @Ok.
#[global] Instance outcome_bind : MBind outcome :=
  fun A B (k : A -> outcome B) (m : outcome A) => Go.bind m k.

#[global] Instance byte_eq_dec : EqDecision byte := Byte.byte_eq_dec.
#[global] Instance byte_countable : Countable byte :=
  inj_countable Byte.to_N Byte.of_N Byte.of_to_N.

(** ** Collaborators of [multistate] that are not part of the sources

    [ledger.ChainID], [common.VCommitment] (unitrie) and [lazybytes.Array]
    are used by the root-record code through a narrow interface only: a type
    and its [Bytes]/[...FromBytes] pair, and the serialisation of an array of
    byte slices.  The interface is a class; what the root-record code relies
    on is stated in [SerializationOk]: the parsers invert [Bytes] and report
    malformed input as an error, and an array of elements that fit is read
    back as it was written. *)

Class Serialization : Type := {
  ChainID : Type;
  ChainID_Bytes : ChainID -> bytes;
  ChainIDFromBytes : bytes -> outcome ChainID;
  VCommitment : Type;
  VCommitment_Bytes : VCommitment -> bytes;
  (** [common.VectorCommitmentFromBytes(ledger.CommitmentModel, data)] *)
  VectorCommitmentFromBytes : bytes -> outcome VCommitment;
  (** [Array.Bytes()] of an array holding the given elements *)
  lazybytes_Bytes : list bytes -> bytes;
  (** [lazybytes.ParseArrayFromBytesReadOnly(data, maxNumElements)] *)
  lazybytes_Parse : bytes -> nat -> outcome (list bytes);
  (** longest element the array serialisation supports *)
  lazybytes_maxDataLen : nat
}.

Class SerializationOk (S : Serialization) : Prop := {
  ChainID_roundtrip : forall c : ChainID,
    ChainIDFromBytes (ChainID_Bytes c) = Ok c;
  ChainIDFromBytes_noPanic : forall (data : bytes) (msg : string),
    ChainIDFromBytes data <> Panic msg;
  ChainID_Bytes_fits : forall c : ChainID,
    (length (ChainID_Bytes c) <= lazybytes_maxDataLen)%nat;
  VCommitment_roundtrip : forall v : VCommitment,
    VectorCommitmentFromBytes (VCommitment_Bytes v) = Ok v;
  VectorCommitmentFromBytes_noPanic : forall (data : bytes) (msg : string),
    VectorCommitmentFromBytes data <> Panic msg;
  VCommitment_Bytes_fits : forall v : VCommitment,
    (length (VCommitment_Bytes v) <= lazybytes_maxDataLen)%nat;
  lazybytes_fits_uint64 : (8 <= lazybytes_maxDataLen)%nat;
  lazybytes_roundtrip : forall (l : list bytes) (n : nat),
    (length l <= n)%nat ->
    Forall (fun e => (length e <= lazybytes_maxDataLen)%nat) l ->
    lazybytes_Parse (lazybytes_Bytes l) n = Ok l
}.

(** *** [lazybytes.Array]

    The array is the list of its elements together with the capacity it was
    created with.  [At] indexes the parsed elements and, like every Go slice
    index, panics out of range. *)

Module lazybytes.
Section WithSerialization.
Context {S : Serialization}.

Record Array : Type := mkArray {
  parsed : list bytes;
  maxNumElements : nat
}.

Definition EmptyArray (n : nat) : Array := mkArray [] n.

Definition Push (a : Array) (data : bytes) : Array :=
  mkArray (parsed a ++ [data]) (maxNumElements a).

Definition NumElements (a : Array) : nat := length (parsed a).

Definition Bytes (a : Array) : bytes := lazybytes_Bytes (parsed a).

Definition ParseArrayFromBytesReadOnly (data : bytes) (n : nat) : outcome Array :=
  l ← lazybytes_Parse data n;
  mret (mkArray l n).

Definition At (a : Array) (idx : nat) : outcome bytes :=
  match parsed a !! idx with
  | Some e => Ok e
  | None => Panic "index out of range"
  end.

End WithSerialization.
End lazybytes.

(** ** Package [multistate] *)

Module multistate.
Section WithSerialization.
Context {S : Serialization}.

Record RootRecord : Type := mkRootRecord {
  Root : VCommitment;
  SequencerID : ChainID;
  LedgerCoverage : Z;   (* uint64 *)
  SlotInflation : Z;    (* uint64 *)
  Supply : Z;           (* uint64 *)
  NumTransactions : Z   (* uint32 *)
}.

(** The fields hold values of their Go types. *)
Definition RootRecord_wf (r : RootRecord) : Prop :=
  is_uint64 (LedgerCoverage r) /\ is_uint64 (SlotInflation r) /\
  is_uint64 (Supply r) /\ is_uint32 (NumTransactions r).

Definition numberOfElementsInRootRecord : nat := 6.

(** [func (r *RootRecord) Bytes() []byte] *)
Definition Bytes (r : RootRecord) : outcome bytes :=
  Assertf (0 <? LedgerCoverage r) "r.Coverage.LatestDelta() > 0";;
  let arr := lazybytes.EmptyArray numberOfElementsInRootRecord in
  let arr := lazybytes.Push arr (ChainID_Bytes (SequencerID r)) in
  let arr := lazybytes.Push arr (VCommitment_Bytes (Root r)) in
  let coverage := PutUint64 (LedgerCoverage r) in
  let arr := lazybytes.Push arr coverage in
  let slotInflationBin := PutUint64 (SlotInflation r) in
  let arr := lazybytes.Push arr slotInflationBin in
  let supplyBin := PutUint64 (Supply r) in
  let arr := lazybytes.Push arr supplyBin in
  let nTxBin := PutUint32 (NumTransactions r) in
  let arr := lazybytes.Push arr nTxBin in
  Assertf (lazybytes.NumElements arr =? numberOfElementsInRootRecord)%nat
    "arr.NumElements() == 6";;
  mret (lazybytes.Bytes arr).

(** [func RootRecordFromBytes(data []byte) (RootRecord, error)].  The length
    test is the short-circuit disjunction of the source. *)
Definition RootRecordFromBytes (data : bytes) : outcome RootRecord :=
  arr ← lazybytes.ParseArrayFromBytesReadOnly data numberOfElementsInRootRecord;
  e0 ← lazybytes.At arr 0;
  chainID ← ChainIDFromBytes e0;
  e1 ← lazybytes.At arr 1;
  root ← VectorCommitmentFromBytes e1;
  e2 ← lazybytes.At arr 2;
  if negb (length e2 =? 8)%nat then Err "wrong data length" else
  e3 ← lazybytes.At arr 3;
  if negb (length e3 =? 8)%nat then Err "wrong data length" else
  e4 ← lazybytes.At arr 4;
  if negb (length e4 =? 8)%nat then Err "wrong data length" else
  e5 ← lazybytes.At arr 5;
  if negb (length e5 =? 4)%nat then Err "wrong data length" else
  mret {| Root := root;
          SequencerID := chainID;
          LedgerCoverage := Uint e2;
          SlotInflation := Uint e3;
          Supply := Uint e4;
          NumTransactions := Uint e5 |}.

(** The six fields of an encoded root record, in the order of the
    specification: sequencer id, commitment bytes, coverage (8 bytes
    big-endian), slot inflation (8), supply (8), number of transactions (4). *)
Definition fields (r : RootRecord) : list bytes :=
  [ ChainID_Bytes (SequencerID r);
    VCommitment_Bytes (Root r);
    PutUint 8 (LedgerCoverage r);
    PutUint 8 (SlotInflation r);
    PutUint 8 (Supply r);
    PutUint 4 (NumTransactions r) ].

(** [func ValidInclusionThresholdFraction(numerator, denominator int) bool] *)
Definition ValidInclusionThresholdFraction (numerator denominator : Z) : bool :=
  (0 <? numerator) && (0 <? denominator) && (numerator <? denominator)
  && (2 <=? denominator).

(** [func AbsoluteStrongFinalityCoverageThreshold]: unsigned 64-bit
    division, multiplication and shift; the division panics on a zero
    divisor, the multiplication and the shift wrap. *)
Definition AbsoluteStrongFinalityCoverageThreshold
    (supply numerator denominator : Z) : outcome Z :=
  q ← uint64_div supply (uint64_of_int denominator);
  mret (wrap_uint64 (Z.shiftl (wrap_uint64 (q * uint64_of_int numerator)) 1)).

(** [func (r *RootRecord) IsCoverageAboveThreshold(numerator, denominator int) bool] *)
Definition IsCoverageAboveThreshold (r : RootRecord) (numerator denominator : Z)
    : outcome bool :=
  Assertf (ValidInclusionThresholdFraction numerator denominator)
    "IsCoverageAboveThreshold: fraction is wrong";;
  threshold ← AbsoluteStrongFinalityCoverageThreshold (Supply r) numerator
                denominator;
  mret (threshold <? LedgerCoverage r).

End WithSerialization.

(** *** The latest-slot marker in the key/value store

    [common.KVReader] is a byte-level map; [Get] of an absent key is the
    empty slice.  [immutable.PartitionOther] (unitrie) and
    [ledger.SlotFromBytes] are taken as they come. *)
Abbreviation KVReader := (gmap bytes bytes).

Section LatestSlot.
Variable PartitionOther : byte.
Variable SlotFromBytes : bytes -> outcome Z.

Definition Get (store : KVReader) (key : bytes) : bytes :=
  default [] (store !! key).

Definition rootRecordDBPartition : byte := PartitionOther.
Definition latestSlotDBPartition : byte :=
  byte_of_Z (Z_of_byte rootRecordDBPartition + 1).

(** [func FetchLatestSlot(store common.KVReader) ledger.Slot] *)
Definition FetchLatestSlot (store : KVReader) : outcome Z :=
  let bin := Get store [latestSlotDBPartition] in
  if (length bin =? 0)%nat then Ok 0 else
  ret ← AssertNoError (SlotFromBytes bin);
  mret ret.

End LatestSlot.
End multistate.

(** ** Package [api]: the inclusion score *)

Module api.
Section WithSerialization.
Context {S : Serialization}.

(** One entry of the inclusion vector: the root record of the tip's branch
    and whether the transaction is included in it. *)
Record RootInclusion : Type := mkRootInclusion {
  RootRecord : multistate.RootRecord;
  Included : bool
}.

(** [multistate.TxInclusion], as far as [CalcTxInclusionScore] reads it. *)
Record TxInclusion : Type := mkTxInclusion {
  LatestSlot : Z;
  EarliestSlot : Z;
  Inclusion : list RootInclusion
}.

Record TxInclusionScore : Type := mkTxInclusionScore {
  ThresholdNumerator : Z;
  ThresholdDenominator : Z;
  ScoreLatestSlot : Z;
  ScoreEarliestSlot : Z;
  StrongScore : Z;
  WeakScore : Z
}.

(** The three counters of the loop:
    [includedInBranches, numDominatingBranches, numIncludedInDominating]. *)
Definition counters : Type := (Z * Z * Z)%type.

(** The body of [for i := range inclusion.Inclusion]. *)
Definition loopBody (thresholdNumerator thresholdDenominator : Z)
    (st : counters) (x : RootInclusion) : outcome counters :=
  let '(includedInBranches, numDominatingBranches, numIncludedInDominating) := st in
  let includedInBranches :=
    if Included x then wrap_int (includedInBranches + 1) else includedInBranches in
  dominating ← multistate.IsCoverageAboveThreshold (RootRecord x)
                 thresholdNumerator thresholdDenominator;
  if (dominating : bool) then
    let numDominatingBranches := wrap_int (numDominatingBranches + 1) in
    let numIncludedInDominating :=
      if Included x then wrap_int (numIncludedInDominating + 1)
      else numIncludedInDominating in
    mret (includedInBranches, numDominatingBranches, numIncludedInDominating)
  else
    mret (includedInBranches, numDominatingBranches, numIncludedInDominating).

Fixpoint loop (n d : Z) (st : counters) (l : list RootInclusion) : outcome counters :=
  match l with
  | [] => Ok st
  | x :: l' => st' ← loopBody n d st x; loop n d st' l'
  end.

(** [func CalcTxInclusionScore(inclusion, thresholdNumerator, thresholdDenominator)].
    Go's [int] multiplication wraps and [/] truncates. *)
Definition CalcTxInclusionScore (inclusion : TxInclusion)
    (thresholdNumerator thresholdDenominator : Z) : outcome TxInclusionScore :=
  let ret := {| ThresholdNumerator := thresholdNumerator;
                ThresholdDenominator := thresholdDenominator;
                ScoreLatestSlot := LatestSlot inclusion;
                ScoreEarliestSlot := EarliestSlot inclusion;
                StrongScore := 0;
                WeakScore := 0 |} in
  if (length (Inclusion inclusion) =? 0)%nat then Ok ret else
  '(includedInBranches, numDominatingBranches, numIncludedInDominating) ←
    loop thresholdNumerator thresholdDenominator (0, 0, 0) (Inclusion inclusion);
  let weak := Z.quot (wrap_int (includedInBranches * 100))
                     (Z.of_nat (length (Inclusion inclusion))) in
  let strong :=
    if 0 <? numDominatingBranches
    then Z.quot (wrap_int (numIncludedInDominating * 100)) numDominatingBranches
    else 0 in
  mret {| ThresholdNumerator := thresholdNumerator;
          ThresholdDenominator := thresholdDenominator;
          ScoreLatestSlot := LatestSlot inclusion;
          ScoreEarliestSlot := EarliestSlot inclusion;
          StrongScore := strong;
          WeakScore := weak |}.

(** How the loop classifies a tip: the answer of
    [IsCoverageAboveThreshold] ([false] where it gives none: the loop does
    not go on then). *)
Definition dominating (n d : Z) (x : RootInclusion) : bool :=
  match multistate.IsCoverageAboveThreshold (RootRecord x) n d with
  | Ok b => b
  | _ => false
  end.

Definition countIf (f : RootInclusion -> bool) (l : list RootInclusion) : Z :=
  Z.of_nat (length (List.filter f l)).

(** The scores in the words of the specification.  The weak score counts
    the tips that include the transaction; the strong score counts among the
    dominating tips, for a given notion [dom] of a dominating tip. *)
Definition spec_weak (l : list RootInclusion) : Z :=
  if decide (l = []) then 0
  else countIf Included l * 100 / Z.of_nat (length l).

Definition strongScoreOf (dom : RootInclusion -> bool)
    (l : list RootInclusion) : Z :=
  if decide (countIf dom l = 0) then 0
  else countIf (fun x => dom x && Included x) l * 100 / countIf dom l.

(** A dominating tip as the specification defines it:
    [ledger_coverage > 2*supply*n/d]. *)
Definition spec_dominating (n d : Z) (x : RootInclusion) : bool :=
  2 * multistate.Supply (RootRecord x) * n / d
  <? multistate.LedgerCoverage (RootRecord x).

Definition spec_strong (n d : Z) (l : list RootInclusion) : Z :=
  strongScoreOf (spec_dominating n d) l.

(** A dominating tip with the division done first and the doubling taken
    modulo [2^64]: [ledger_coverage > 2*(floor(supply/d)*n) mod 2^64]. *)
Definition divFirst_dominating (n d : Z) (x : RootInclusion) : bool :=
  (2 * (multistate.Supply (RootRecord x) / d * n)) mod 2 ^ 64
  <? multistate.LedgerCoverage (RootRecord x).

Definition divFirst_strong (n d : Z) (l : list RootInclusion) : Z :=
  strongScoreOf (divFirst_dominating n d) l.

End WithSerialization.
End api.

(** ** Package [ledger]: logical time *)

Module ledger.

(** Modelled from the spec: [ledger.Time] and its methods are not part of
    the sources.  The spec gives "LedgerTime = (slot: u32, tick: u8) with a
    fixed tick duration; slot-boundary ticks are 0"; the number of ticks in
    a slot is [IdentityData.TicksPerSlot] of ledgerid.go.  Times are ordered
    by slot, then tick; adding ticks carries into the slot; a time on a slot
    boundary is its own next boundary. *)
Record Time : Type := mkTime {
  Slot : Z;
  Tick : Z
}.

#[global] Instance Time_eq_dec : EqDecision Time.
Proof. solve_decision. Defined.

Section WithIdentity.
Variable MaxTickValueInSlot : Z.

(** [func (id *IdentityData) TicksPerSlot() int] *)
Definition TicksPerSlot : Z := MaxTickValueInSlot + 1.

Definition Time_wf (t : Time) : Prop :=
  0 <= Slot t /\ 0 <= Tick t < TicksPerSlot.

(** Ticks since genesis. *)
Definition ticks (t : Time) : Z := Slot t * TicksPerSlot + Tick t.

Definition Before (a b : Time) : bool :=
  (Slot a <? Slot b) || ((Slot a =? Slot b) && (Tick a <? Tick b)).

Definition After (a b : Time) : bool := Before b a.

Definition MaxTime (a b : Time) : Time := if Before a b then b else a.

Definition AddTicks (t : Time) (n : Z) : Time :=
  {| Slot := (ticks t + n) / TicksPerSlot;
     Tick := (ticks t + n) mod TicksPerSlot |}.

Definition NextSlotBoundary (t : Time) : Time :=
  if Tick t =? 0 then t else {| Slot := Slot t + 1; Tick := 0 |}.

Definition TicksToNextSlotBoundary (t : Time) : Z :=
  if Tick t =? 0 then 0 else TicksPerSlot - Tick t.

(** [ledger.DiffTicks(t1, t2)] *)
Definition DiffTicks (a b : Time) : Z := ticks a - ticks b.

End WithIdentity.
End ledger.

(** ** Package [sequencer]: the target time of the main loop *)

Module sequencer.
Section WithIdentity.
Variable MaxTickValueInSlot : Z.

Abbreviation Before := ledger.Before.
Abbreviation MaxTime := ledger.MaxTime.
Abbreviation AddTicks := (ledger.AddTicks MaxTickValueInSlot).
Abbreviation NextSlotBoundary := ledger.NextSlotBoundary.
Abbreviation TicksToNextSlotBoundary := (ledger.TicksToNextSlotBoundary MaxTickValueInSlot).

(** [func (seq *Sequencer) getNextTargetTime() (ledger.Time, ledger.Time)].

    [prevMilestoneTs] is the timestamp of the own latest milestone, [Pace]
    is [seq.config.Pace] and [nowis] is the ledger time read after the
    clock synchronisation (the sleeps of the source only wait for it). *)
Definition getNextTargetTime (prevMilestoneTs nowis : ledger.Time) (Pace : Z)
    : outcome (ledger.Time * ledger.Time) :=
  Assertf (negb (Before nowis prevMilestoneTs)) "!core.TimeNow().Before(prevMilestoneTs)";;
  let targetAbsoluteMinimum :=
    MaxTime (AddTicks prevMilestoneTs Pace) (AddTicks nowis 1) in
  let nextSlotBoundary := NextSlotBoundary nowis in
  if negb (Before targetAbsoluteMinimum nextSlotBoundary) then
    Ok (targetAbsoluteMinimum, prevMilestoneTs)
  else
  let minimumTicksAheadFromNow := Z.quot (wrap_int (Pace * 2)) 3 in
  let targetAbsoluteMinimum :=
    MaxTime targetAbsoluteMinimum (AddTicks nowis minimumTicksAheadFromNow) in
  if negb (Before targetAbsoluteMinimum nextSlotBoundary) then
    Ok (targetAbsoluteMinimum, prevMilestoneTs)
  else
  if TicksToNextSlotBoundary targetAbsoluteMinimum <=? Pace then
    Ok (nextSlotBoundary, prevMilestoneTs)
  else
    Ok (targetAbsoluteMinimum, prevMilestoneTs).

(** The target time in the words of the specification:
    "max(prev_ms + pace, now + 1); if the result lands too close
    (<= pace/1.5) to the next slot boundary, round up to the boundary". *)
Definition spec_target (prev_ms now : ledger.Time) (pace : Z) : ledger.Time :=
  let t := MaxTime (AddTicks prev_ms pace) (AddTicks now 1) in
  if 3 * TicksToNextSlotBoundary t <=? 2 * pace
  then NextSlotBoundary t
  else t.

(** The target in ticks since genesis, following the branches of the code:
    [t0] is the absolute minimum, [B] the next slot boundary of now and [t1]
    the minimum pushed to two thirds of the pace ahead of now. *)
Definition targetTicks (prev now B pace : Z) : Z :=
  let t0 := Z.max (prev + pace) (now + 1) in
  let t1 := Z.max t0 (now + 2 * pace / 3) in
  if B <=? t0 then t0
  else if B <=? t1 then t1
  else if B - t1 <=? pace then B
  else t1.

End WithIdentity.
End sequencer.

(** ** Package [vertex]: the wrapped transaction *)

Module vertex.

(** [Status] of a wrapped transaction. *)
Inductive Status : Type := Undefined | Good | Bad.

#[global] Instance Status_eq_dec : EqDecision Status.
Proof. solve_decision. Defined.

(** The three shapes behind [_genericWrapper].  Of the bodies only what the
    modelled code reads is kept: the sequencer id, when the transaction is
    a sequencer milestone, and the baseline branch of a vertex. *)
Inductive _genericWrapper : Type :=
| _vertex (seqID : option bytes) (BaselineBranch : option bytes)
| _virtualTx (seqID : option bytes)
| _deletedTx.

#[global] Instance _genericWrapper_eq_dec : EqDecision _genericWrapper.
Proof. solve_decision. Defined.

Definition Flags : Type := Z.   (* uint8 *)

Record WrappedTx : Type := mkWrappedTx {
  ID : bytes;                       (* ledger.TransactionID *)
  wrapper : _genericWrapper;
  flags : Flags;
  err : option string;              (* nil or the reason *)
  coverage : Z;                     (* LedgerCoverageSum(), uint64 *)
  references : Z                    (* uint16 *)
}.

Definition set_wrapper (g : _genericWrapper) (vid : WrappedTx) : WrappedTx :=
  mkWrappedTx (ID vid) g (flags vid) (err vid) (coverage vid) (references vid).
Definition set_flags (f : Flags) (vid : WrappedTx) : WrappedTx :=
  mkWrappedTx (ID vid) (wrapper vid) f (err vid) (coverage vid) (references vid).
Definition set_err (e : option string) (vid : WrappedTx) : WrappedTx :=
  mkWrappedTx (ID vid) (wrapper vid) (flags vid) e (coverage vid) (references vid).
Definition set_references (n : Z) (vid : WrappedTx) : WrappedTx :=
  mkWrappedTx (ID vid) (wrapper vid) (flags vid) (err vid) (coverage vid) n.

(** [func _newVID(g _genericWrapper, txid ledger.TransactionID) *WrappedTx] *)
Definition _newVID (g : _genericWrapper) (txid : bytes) : WrappedTx :=
  mkWrappedTx txid g 0 None 0 1.

Section WithFlag.
(** The bit of [FlagVertexDefined]; its declaration is not in the sources. *)
Variable FlagVertexDefined : Flags.

(** [Flags.FlagsUp] and [Flags.SetFlagsUp]: the methods of [Flags] are not
    in the sources; they are taken to be what [WrappedTx.FlagsUpNoLock] and
    [WrappedTx.SetFlagsUpNoLock] of vid.go do on the field,
    [vid.flags&f == f] and [vid.flags | f]. *)
Definition FlagsUp (fl f : Flags) : bool := Z.land fl f =? f.

Definition SetFlagsUp (fl f : Flags) : Flags := Z.lor fl f.

(** [func (vid *WrappedTx) GetTxStatusNoLock() Status] *)
Definition GetTxStatusNoLock (vid : WrappedTx) : outcome Status :=
  if negb (FlagsUp (flags vid) FlagVertexDefined) then
    Assertf (bool_decide (err vid = None)) "vid.err == nil";;
    mret Undefined
  else if bool_decide (err vid <> None) then mret Bad
  else mret Good.

(** [func (vid *WrappedTx) SetTxStatusGood()] *)
Definition SetTxStatusGood (vid : WrappedTx) : outcome WrappedTx :=
  st ← GetTxStatusNoLock vid;
  Assertf (bool_decide (st = Undefined)) "vid.GetTxStatusNoLock() == Undefined";;
  mret (set_flags (SetFlagsUp (flags vid) FlagVertexDefined) vid).

(** [func (vid *WrappedTx) SetTxStatusBadNoLock(reason error)] *)
Definition SetTxStatusBadNoLock (reason : option string) (vid : WrappedTx)
    : outcome WrappedTx :=
  st ← GetTxStatusNoLock vid;
  Assertf (bool_decide (st = Undefined)) "vid.GetTxStatusNoLock() == Undefined";;
  mret (set_err reason (set_flags (SetFlagsUp (flags vid) FlagVertexDefined) vid)).

(** [func (vid *WrappedTx) SetTxStatusBad(reason error)]: the same under the lock. *)
Definition SetTxStatusBad (reason : option string) (vid : WrappedTx)
    : outcome WrappedTx :=
  SetTxStatusBadNoLock reason vid.

(** [func (vid *WrappedTx) SetTxStatusGoodNoLock()] *)
Definition SetTxStatusGoodNoLock (vid : WrappedTx) : outcome WrappedTx :=
  Assertf (bool_decide (err vid = None)) "vid.err == nil";;
  mret (set_flags (SetFlagsUp (flags vid) FlagVertexDefined) vid).

(** The operations that set a status. *)
Inductive SetStatusOp : Type :=
| OpSetTxStatusGood
| OpSetTxStatusBad (reason : option string)
| OpSetTxStatusBadNoLock (reason : option string)
| OpSetTxStatusGoodNoLock.

Definition applyOp (op : SetStatusOp) (vid : WrappedTx) : outcome WrappedTx :=
  match op with
  | OpSetTxStatusGood => SetTxStatusGood vid
  | OpSetTxStatusBad reason => SetTxStatusBad reason vid
  | OpSetTxStatusBadNoLock reason => SetTxStatusBadNoLock reason vid
  | OpSetTxStatusGoodNoLock => SetTxStatusGoodNoLock vid
  end.

(** A program of set-status calls; a panic aborts it. *)
Fixpoint applyOps (ops : list SetStatusOp) (vid : WrappedTx) : outcome WrappedTx :=
  match ops with
  | [] => Ok vid
  | op :: ops' => vid' ← applyOp op vid; applyOps ops' vid'
  end.

End WithFlag.

(** [func (vid *WrappedTx) Reference() bool] *)
Definition Reference (vid : WrappedTx) : outcome (bool * WrappedTx) :=
  if references vid =? 0 then mret (false, vid) else
  Assertf (references vid <? MaxUint16) "Reference: overflow";;
  mret (true, set_references (references vid + 1) vid).

(** [func (vid *WrappedTx) UnReference()] *)
Definition UnReference (vid : WrappedTx) : outcome WrappedTx :=
  Assertf (0 <? references vid) "UnReference: vertex is deleted";;
  mret (set_references (references vid - 1) vid).

(** [func (vid *WrappedTx) IsDeleted() bool] *)
Definition IsDeleted (vid : WrappedTx) : bool := references vid =? 0.

(** [func (vid *WrappedTx) MarkDeleted()] *)
Definition MarkDeleted (vid : WrappedTx) : outcome WrappedTx :=
  match wrapper vid with
  | _vertex _ _ => mret (set_wrapper _deletedTx vid)
  | _virtualTx _ => mret (set_wrapper _deletedTx vid)
  | _deletedTx => Panic "deleted vertex should not be accessed"
  end.

(** The operations on the reference count and the shape; a panic aborts a
    program of them. *)
Inductive RefOp : Type := OpReference | OpUnReference | OpMarkDeleted.

Definition applyRefOp (op : RefOp) (vid : WrappedTx) : outcome WrappedTx :=
  match op with
  | OpReference => '(_, vid') ← Reference vid; mret vid'
  | OpUnReference => UnReference vid
  | OpMarkDeleted => MarkDeleted vid
  end.

Fixpoint applyRefOps (ops : list RefOp) (vid : WrappedTx) : outcome WrappedTx :=
  match ops with
  | [] => Ok vid
  | op :: ops' => vid' ← applyRefOp op vid; applyRefOps ops' vid'
  end.

(** [func (vid *WrappedTx) SequencerIDIfAvailable() (ledger.ChainID, bool)] *)
Definition SequencerIDIfAvailable (vid : WrappedTx) : option bytes :=
  match wrapper vid with
  | _vertex seqID _ => seqID
  | _virtualTx seqID => seqID
  | _deletedTx => None
  end.

(** [func (vid *WrappedTx) LedgerCoverageSum() uint64] *)
Definition LedgerCoverageSum (vid : WrappedTx) : Z := coverage vid.

Section WithTxID.
(** [func (txid *TransactionID) Timestamp() ledger.Time] and
    [IsBranchTransaction]: the layout of a transaction id is not in the
    sources. *)
Variable Timestamp : bytes -> ledger.Time.
Variable IsBranchTransaction : bytes -> bool.

(** [func (vid *WrappedTx) BaselineBranch() *ledger.TransactionID] *)
Definition BaselineBranch (vid : WrappedTx) : option bytes :=
  if IsBranchTransaction (ID vid) then Some (ID vid) else
  match wrapper vid with
  | _vertex _ b => b
  | _ => None
  end.

(** [func IsPreferredBase(covSum1, covSum2 uint64, txid1, txid2 *ledger.TransactionID) bool] *)
Definition IsPreferredBase (covSum1 covSum2 : Z) (txid1 txid2 : option bytes) : bool :=
  if covSum2 <? covSum1 then true
  else if covSum1 =? covSum2 then
    match txid1, txid2 with
    | Some id1, Some id2 =>
        if bool_decide (Timestamp id1 = Timestamp id2)
        then 0 <? Compare id1 id2
        else ledger.Before (Timestamp id2) (Timestamp id1)
    | _, _ => false
    end
  else false.

End WithTxID.
End vertex.

(** ** Package [tippool]: the latest milestone of every sequencer

    A [*vertex.WrappedTx] is an address into a heap of wrapped
    transactions, so that the pool and its callers share the vertices they
    point to. *)

Module tippool.

Abbreviation addr := positive.
Abbreviation heap := (gmap addr vertex.WrappedTx).

Record milestoneData : Type := mkMilestoneData {
  WrappedTx : addr;
  BranchID : bytes
}.

(** [latestMilestones map[ledger.ChainID]milestoneData] *)
Abbreviation SequencerTips := (gmap bytes milestoneData).

(** Reading through a pointer; [None] is the nil pointer. *)
Definition deref (h : heap) (p : option addr) : outcome vertex.WrappedTx :=
  match p with
  | None => Panic "nil pointer dereference"
  | Some a =>
      match h !! a with
      | Some vid => Ok vid
      | None => Panic "invalid address"
      end
  end.

Section WithTxID.
Variable Timestamp : bytes -> ledger.Time.
Variable IsBranchTransaction : bytes -> bool.
Variable IsSequencerMilestone : bytes -> bool.

(** [func IsPreferredMilestoneAgainstTheOther(vid1, vid2 *WrappedTx) bool]
    of vid.go; the tips pool passes a third argument, [false], that this
    version of the function does not take. *)
Definition IsPreferredMilestoneAgainstTheOther (h : heap) (vid1 vid2 : option addr)
    : outcome bool :=
  v1 ← deref h vid1;
  v2 ← deref h vid2;
  Assertf (IsSequencerMilestone (vertex.ID v1) && IsSequencerMilestone (vertex.ID v2))
    "vid1.IsSequencerMilestone() && vid2.IsSequencerMilestone()";;
  if bool_decide (vid1 = vid2) then mret false
  else if bool_decide (vid2 = None) then mret true
  else mret (vertex.IsPreferredBase Timestamp
               (vertex.LedgerCoverageSum v1) (vertex.LedgerCoverageSum v2)
               (Some (vertex.ID v1)) (Some (vertex.ID v2))).

(** [func (t *SequencerTips) oldReplaceWithNew(old, new *vertex.WrappedTx) bool] *)
Definition oldReplaceWithNew (h : heap) (old new : addr) : outcome bool :=
  Assertf (bool_decide (old <> new)) "old != new";;
  vold ← deref h (Some old);
  vnew ← deref h (Some new);
  let tsOld := Timestamp (vertex.ID vold) in
  let tsNew := Timestamp (vertex.ID vnew) in
  if ledger.Before tsOld tsNew then mret true
  else if ledger.After tsOld tsNew then mret false
  else
    Assertf (bool_decide (tsNew = tsOld)) "tsNew==tsOld";;
    IsPreferredMilestoneAgainstTheOther h (Some new) (Some old).

(** [milestoneData{WrappedTx: inp.VID, BranchID: inp.VID.BaselineBranch().ID}] *)
Definition newMilestoneData (inp : addr) (vid : vertex.WrappedTx) : outcome milestoneData :=
  match vertex.BaselineBranch IsBranchTransaction vid with
  | Some branch => Ok (mkMilestoneData inp branch)
  | None => Panic "nil pointer dereference"
  end.

(** [func (t *SequencerTips) Consume(inp Input)], on the heap and the map
    of latest milestones; logging and tracing are left out. *)
Definition Consume (inp : addr) (st : heap * SequencerTips)
    : outcome (heap * SequencerTips) :=
  let '(h, latestMilestones) := st in
  vid ← deref h (Some inp);
  match vertex.SequencerIDIfAvailable vid with
  | None => Panic "sequencer milestone expected"
  | Some seqIDIncoming =>
      match latestMilestones !! seqIDIncoming with
      | Some old =>
          if bool_decide (WrappedTx old = inp) then
            (* repeating, ignore *)
            mret (h, latestMilestones)
          else
            replace ← oldReplaceWithNew h (WrappedTx old) inp;
            if (replace : bool) then
              '(referenced, vid') ← vertex.Reference vid;
              if (referenced : bool) then
                let h := <[inp := vid']> h in
                vold ← deref h (Some (WrappedTx old));
                vold' ← vertex.UnReference vold;
                let h := <[WrappedTx old := vold']> h in
                md ← newMilestoneData inp vid';
                mret (h, <[seqIDIncoming := md]> latestMilestones)
              else mret (h, latestMilestones)
            else mret (h, latestMilestones)
      | None =>
          '(referenced, vid') ← vertex.Reference vid;
          if (referenced : bool) then
            let h := <[inp := vid']> h in
            md ← newMilestoneData inp vid';
            mret (h, <[seqIDIncoming := md]> latestMilestones)
          else mret (h, latestMilestones)
      end
  end.

(** [func (t *SequencerTips) GetLatestMilestone(seqID ledger.ChainID) *vertex.WrappedTx] *)
Definition GetLatestMilestone (latestMilestones : SequencerTips) (seqID : bytes)
    : option addr :=
  WrappedTx <$> latestMilestones !! seqID.

(** The replacement rule in the words of the specification: a newer
    timestamp replaces an older one; on equal timestamps the higher ledger
    coverage wins and, on equal coverage, the larger transaction id
    byte-wise. *)
Definition spec_replaces (vold vnew : vertex.WrappedTx) : bool :=
  let tsOld := Timestamp (vertex.ID vold) in
  let tsNew := Timestamp (vertex.ID vnew) in
  ledger.Before tsOld tsNew
  || (bool_decide (tsOld = tsNew)
      && ((vertex.coverage vold <? vertex.coverage vnew)
          || ((vertex.coverage vnew =? vertex.coverage vold)
              && (0 <? Compare (vertex.ID vnew) (vertex.ID vold))))).

End WithTxID.

(** Modelled from the spec: the layout of a transaction id is not part of
    the sources.  The spec has "TxId = 32 bytes with embedded logical
    timestamp (slot, tick)"; for the examples the slot is read from the first
    four bytes and the tick from the fifth, every id is a sequencer
    milestone and none is a branch. *)
Definition sampleTimestamp (txid : bytes) : ledger.Time :=
  ledger.mkTime (Uint (take 4 txid)) (Uint (take 1 (drop 4 txid))).

Definition sampleTxID (slot tick : Z) (tail : byte) : bytes :=
  PutUint 4 slot ++ PutUint 1 tick ++ repeat tail 27.

Definition sampleMilestone (slot tick : Z) (tail : byte) (cov refs : Z)
    : vertex.WrappedTx :=
  vertex.mkWrappedTx (sampleTxID slot tick tail)
    (vertex._vertex (Some (repeat x07 32)) (Some (sampleTxID slot 0 x00)))
    0 None cov refs.

(** A heap with a stored milestone of slot 3, tick 10 at address 1 and an
    incoming one of tick 20 at address 2, and the pool holding the first. *)
Definition sampleHeap : heap :=
  {[ 1%positive := sampleMilestone 3 10 x00 500 2;
     2%positive := sampleMilestone 3 20 x00 400 1 ]}.

Definition samplePool : SequencerTips :=
  {[ repeat x07 32 := mkMilestoneData 1%positive (sampleTxID 3 0 x00) ]}.

(** A heap whose only vertex has no reference left. *)
Definition sampleDeletedHeap : heap :=
  {[ 1%positive := sampleMilestone 3 10 x00 500 0 ]}.

End tippool.

(** ** Package [poker]: the wake-up bus *)

Module poker.

Abbreviation addr := positive.

Record waitingList : Type := mkWaitingList {
  waiting : list addr;
  keepUntil : Z          (* time.Time, in nanoseconds *)
}.

(** The zero value a Go map returns for an absent key. *)
Definition zeroWaitingList : waitingList := mkWaitingList [] 0.

Inductive Command : Type := CommandAdd | CommandPokeAll | CommandPeriodicCleanup.

Record Cmd : Type := mkCmd {
  Wanted : option addr;
  WhoIsWaiting : option addr;
  Cmd_ : Command
}.

(** [m map[*vertex.WrappedTx]waitingList] *)
Abbreviation Poker := (gmap addr waitingList).

(** One call [vid.PokeWith(wanted)]: the waiter and what it is poked with. *)
Definition Poke : Type := (addr * addr)%type.

Definition ttlWanted : Z := 60 * 1000000000.

(** Modelled from the spec: [util.AppendUnique] is not part of the
    sources.  The spec has the poker "record who_is_waiting in the list
    associated with wanted"; the helper appends the element unless the
    slice already holds it. *)
Definition AppendUnique (slice : list addr) (el : addr) : list addr :=
  if bool_decide (el ∈ slice) then slice else slice ++ [el].

Definition lookupList (m : Poker) (wanted : addr) : waitingList :=
  default zeroWaitingList (m !! wanted).

(** [func (c *Poker) addCmd(wanted, whoIsWaiting *vertex.WrappedTx)];
    [now] is [time.Now()]. *)
Definition addCmd (now : Z) (wanted whoIsWaiting : addr) (m : Poker) : Poker :=
  let lst := lookupList m wanted in
  let w :=
    if (length (waiting lst) =? 0)%nat then [whoIsWaiting]
    else AppendUnique (waiting lst) whoIsWaiting in
  <[wanted := mkWaitingList w (now + ttlWanted)]> m.

(** [func (c *Poker) pokeAllCmd(wanted *vertex.WrappedTx)]: the pokes made,
    in order, and the new map. *)
Definition pokeAllCmd (wanted : addr) (m : Poker) : list Poke * Poker :=
  let lst := lookupList m wanted in
  if (0 <? length (waiting lst))%nat then
    ((fun vid => (vid, wanted)) <$> waiting lst, delete wanted m)
  else ([], m).

(** [func (c *Poker) periodicCleanup()] *)
Definition periodicCleanup (now : Z) (m : Poker) : Poker :=
  filter (fun kv => ~ (keepUntil kv.2 < now)) m.

(** [func (c *Poker) consume(inp Cmd)] *)
Definition consume (now : Z) (inp : Cmd) (m : Poker) : outcome (list Poke * Poker) :=
  match Cmd_ inp with
  | CommandAdd =>
      match Wanted inp, WhoIsWaiting inp with
      | None, _ => Panic "inp.Wanted != nil"
      | Some _, None => Panic "inp.WhoIsWaiting != nil"
      | Some wanted, Some who => Ok ([], addCmd now wanted who m)
      end
  | CommandPokeAll =>
      match Wanted inp, WhoIsWaiting inp with
      | None, _ => Panic "inp.Wanted != nil"
      | Some _, Some _ => Panic "inp.WhoIsWaiting == nil"
      | Some wanted, None => Ok (pokeAllCmd wanted m)
      end
  | CommandPeriodicCleanup =>
      match Wanted inp, WhoIsWaiting inp with
      | Some _, _ => Panic "inp.Wanted == nil"
      | None, Some _ => Panic "inp.WhoIsWaiting == nil"
      | None, None => Ok ([], periodicCleanup now m)
      end
  end.

(** [PokeMe], [PokeAllWith] and the periodic loop build these commands. *)
Definition PokeMe (me waitingFor : addr) : Cmd :=
  mkCmd (Some waitingFor) (Some me) CommandAdd.
Definition PokeAllWith (vid : addr) : Cmd :=
  mkCmd (Some vid) None CommandPokeAll.
Definition PeriodicCleanup : Cmd :=
  mkCmd None None CommandPeriodicCleanup.

(** The single consumer task: the queue hands over the commands in the
    order of their arrival, each processed at its own time [now]; the
    result is, per command, the pokes made while processing it. *)
Fixpoint run (queue : list (Z * Cmd)) (m : Poker) : outcome (list (list Poke) * Poker) :=
  match queue with
  | [] => Ok ([], m)
  | (now, inp) :: queue' =>
      '(pokes, m') ← consume now inp m;
      '(rest, m'') ← run queue' m';
      mret (pokes :: rest, m'')
  end.

(** What the callers push: [PokeMe], [PokeAllWith] and the tick of the
    periodic loop. *)
Inductive Event : Type :=
| Wait (wanted who : addr)
| PokeAll (wanted : addr)
| PeriodicSweep.

Definition toCmd (ev : Event) : Cmd :=
  match ev with
  | Wait wanted who => PokeMe who wanted
  | PokeAll wanted => PokeAllWith wanted
  | PeriodicSweep => PeriodicCleanup
  end.

Definition toQueue (evs : list (Z * Event)) : list (Z * Cmd) :=
  map (fun e => (e.1, toCmd e.2)) evs.

(** The commands between a [Wait] for [wanted] and a later [PokeAll] keep
    the waiting list of [wanted] alive: none of them is a [PokeAll] of
    [wanted], and every sweep runs no later than the list's [keepUntil],
    which starts as [ku] and is refreshed by every further [Wait] for
    [wanted]. *)
Fixpoint keeps (wanted : addr) (ku : Z) (mid : list (Z * Event)) : bool :=
  match mid with
  | [] => true
  | (now, Wait wanted' _) :: rest =>
      keeps wanted (if bool_decide (wanted' = wanted) then now + ttlWanted else ku) rest
  | (_, PokeAll wanted') :: rest =>
      negb (bool_decide (wanted' = wanted)) && keeps wanted ku rest
  | (now, PeriodicSweep) :: rest =>
      (now <=? ku) && keeps wanted ku rest
  end.

(** Every waiting list is free of duplicates. *)
Definition noDuplicates (m : Poker) : Prop :=
  forall (wanted : addr) (lst : waitingList),
    m !! wanted = Some lst -> NoDup (waiting lst).

(** The waiter [w] is registered for [wanted] in a list that is kept until
    [ku]. *)
Definition registered (wanted w : addr) (ku : Z) (m : Poker) : Prop :=
  exists lst : waitingList,
    m !! wanted = Some lst /\ w ∈ waiting lst /\ keepUntil lst = ku.

End poker.

(** ** A reference implementation of the serialisation interface

    Modelled from the spec: [lazybytes], [ledger.ChainIDFromBytes] and
    [common.VectorCommitmentFromBytes] are not part of the sources.  The
    spec has a chain id as a "32-byte identifier", the root as "commitment
    bytes" (taken as 32 bytes here) and the encoded record as "a
    fixed-order sequence of six length-prefixed fields": every element of an
    array is written as its length, a 2-byte big-endian number, followed by
    its bytes.  The parsers report malformed input as an error. *)

Module reference.

Definition bytes32 : Type := { l : bytes | length l = 32%nat }.

Definition bytes32_Bytes (c : bytes32) : bytes := proj1_sig c.

Definition bytes32FromBytes (data : bytes) : outcome bytes32 :=
  match decide (length data = 32%nat) with
  | left H => Ok (exist _ data H)
  | right _ => Err "wrong data length"
  end.

Definition maxDataLen : nat := Z.to_nat 65535.

Definition encodeData (l : list bytes) : bytes :=
  concat (map (fun e => PutUint 2 (Z.of_nat (length e)) ++ e) l).

Fixpoint decodeData (fuel : nat) (data : bytes) : outcome (list bytes) :=
  match data with
  | [] => Ok []
  | [_] => Err "unexpected EOF"
  | hi :: lo :: rest =>
      match fuel with
      | O => Err "unexpected EOF"
      | S fuel' =>
          let sz := Z.to_nat (Uint [hi; lo]) in
          if (length rest <? sz)%nat then Err "unexpected EOF" else
          tl ← decodeData fuel' (drop sz rest);
          mret (take sz rest :: tl)
      end
  end.

Definition parseArray (data : bytes) (maxNumElements : nat) : outcome (list bytes) :=
  l ← decodeData (length data) data;
  if (maxNumElements <? length l)%nat
  then Err "number of elements is larger than maxNumElements"
  else mret l.

#[global] Instance serialization : Serialization := {|
  ChainID := bytes32;
  ChainID_Bytes := bytes32_Bytes;
  ChainIDFromBytes := bytes32FromBytes;
  VCommitment := bytes32;
  VCommitment_Bytes := bytes32_Bytes;
  VectorCommitmentFromBytes := bytes32FromBytes;
  lazybytes_Bytes := encodeData;
  lazybytes_Parse := parseArray;
  lazybytes_maxDataLen := maxDataLen
|}.

(** Sample values for the examples below. *)
Definition zero32 : bytes32 := exist _ (repeat x00 32) eq_refl.
Definition one32 : bytes32 := exist _ (repeat x01 32) eq_refl.

Definition sampleRecord (coverage supply : Z) : multistate.RootRecord :=
  {| multistate.Root := one32;
     multistate.SequencerID := zero32;
     multistate.LedgerCoverage := coverage;
     multistate.SlotInflation := 7;
     multistate.Supply := supply;
     multistate.NumTransactions := 5 |}.

End reference.

(** ** Package [multistate]: root records in the key/value store *)

Module multistateKV.
Import multistate.

(** A [ledger.TransactionID] is used here through its bytes only. *)
Abbreviation TransactionID := bytes.

Section WithStore.
Context {S : Serialization}.
Variable PartitionOther : byte.
Variable SlotFromBytes : bytes -> outcome Z.
(** [func (s Slot) Bytes() []byte] *)
Variable Slot_Bytes : Z -> bytes.

(** [w.Set(key, value)] on the map behind the store. *)
Definition KVSet (w : KVReader) (key value : bytes) : KVReader :=
  <[key := value]> w.

(** [func writeRootRecord(w common.KVWriter, branchTxID ledger.TransactionID, rootData RootRecord)] *)
Definition writeRootRecord (w : KVReader) (branchTxID : TransactionID)
    (rootData : RootRecord) : outcome KVReader :=
  let key := [rootRecordDBPartition PartitionOther] ++ branchTxID in
  data ← Bytes rootData;
  mret (KVSet w key data).

(** [func writeLatestSlot(w common.KVWriter, slot ledger.Slot)] *)
Definition writeLatestSlot (w : KVReader) (slot : Z) : KVReader :=
  KVSet w [latestSlotDBPartition PartitionOther] (Slot_Bytes slot).

(** [func FetchRootRecord(store common.KVReader, branchTxID ledger.TransactionID) (ret RootRecord, found bool)];
    [found = false] is [None]. *)
Definition FetchRootRecord (store : KVReader) (branchTxID : TransactionID)
    : outcome (option RootRecord) :=
  let key := rootRecordDBPartition PartitionOther :: branchTxID in
  let data := Get store key in
  if (length data =? 0)%nat then Ok None else
  ret ← AssertNoError (RootRecordFromBytes data);
  mret (Some ret).

(** [FetchRootRecords(store, s)] for one slot is taken as it comes: it
    walks the store's iterator. *)
Variable FetchRootRecords : KVReader -> Z -> outcome (list RootRecord).

(** The loop [for s := FetchLatestSlot(store); ; s--] of
    [FetchRootRecordsNSlotsBack]; [s] is unsigned and the loop leaves at
    [s == 0]. *)
Fixpoint nSlotsBackLoop (store : KVReader) (nBack : Z) (s : nat)
    (ret : list RootRecord) (slotCount : Z) : outcome (list RootRecord) :=
  recs ← FetchRootRecords store (Z.of_nat s);
  let '(ret, slotCount) :=
    if (0 <? length recs)%nat then (ret ++ recs, slotCount + 1)
    else (ret, slotCount) in
  if (nBack <=? slotCount) || (s =? 0)%nat then mret ret
  else match s with
       | O => mret ret
       | Datatypes.S s' => nSlotsBackLoop store nBack s' ret slotCount
       end.

(** [func FetchRootRecordsNSlotsBack(store global.StateStoreReader, nBack int) []RootRecord] *)
Definition FetchRootRecordsNSlotsBack (store : KVReader) (nBack : Z)
    : outcome (list RootRecord) :=
  if nBack <=? 0 then mret [] else
  latest ← FetchLatestSlot PartitionOther SlotFromBytes store;
  nSlotsBackLoop store nBack (Z.to_nat latest) [] 0.

(** The slots from [s] down to 0 that hold root records, newest first. *)
Fixpoint slotsWithRecords (recsOf : Z -> list RootRecord) (s : nat) : list Z :=
  let here := if (0 <? length (recsOf (Z.of_nat s)))%nat then [Z.of_nat s] else [] in
  match s with
  | O => here
  | Datatypes.S s' => here ++ slotsWithRecords recsOf s'
  end.

End WithStore.

(** Samples for the examples: the partition byte 2, a slot written as four
    big-endian bytes, a branch id, a store whose latest slot is 2 and, for
    one-slot fetches, a record in slot 1 only. *)
Definition sampleSlotFromBytes (data : bytes) : outcome Z := Ok (Uint data).
Definition sampleBranchTxID : TransactionID := repeat x09 32.
Definition sampleStore : KVReader := {[ [x03] := PutUint32 2 ]}.
Definition sampleRecsOf (s : Z) : list (RootRecord (S := reference.serialization)) :=
  if s =? 1 then [reference.sampleRecord 10 1000] else [].
Definition sampleFetchRootRecords (_ : KVReader) (s : Z)
    : outcome (list (RootRecord (S := reference.serialization))) :=
  Ok (sampleRecsOf s).

End multistateKV.


(** ** Package [ledger]: the ledger identity *)

Module ledgerid.

(** [IdentityData]; a Go string is its bytes. *)
Record IdentityData : Type := mkIdentityData {
  Description : bytes;
  GenesisTimeUnix : Z;                      (* uint32 *)
  InitialSupply : Z;                        (* uint64 *)
  GenesisControllerPublicKey : bytes;
  TickDuration : Z;                         (* time.Duration, int64 *)
  MaxTickValueInSlot : Z;                   (* uint8 *)
  NumHalvingEpochs : Z;                     (* byte *)
  SlotsPerHalvingEpoch : Z;                 (* uint32 *)
  BranchBonusBase : Z;                      (* uint64 *)
  ChainInflationPerTickFractionBase : Z;    (* uint64 *)
  ChainInflationOpportunitySlots : Z;       (* uint64 *)
  VBCost : Z;                               (* uint64 *)
  TransactionPace : Z;                      (* byte *)
  TransactionPaceSequencer : Z;             (* byte *)
  MinimumAmountOnSequencer : Z;             (* uint64 *)
  MaxNumberOfEndorsements : Z               (* uint64 *)
}.

Definition is_uint (n : nat) (v : Z) : Prop := 0 <= v < 2 ^ (8 * Z.of_nat n).
Definition is_int64 (v : Z) : Prop := - 2 ^ 63 <= v < 2 ^ 63.

(** The fields hold values of their Go types. *)
Definition IdentityData_wf (id : IdentityData) : Prop :=
  is_uint 4 (GenesisTimeUnix id) /\ is_uint 8 (InitialSupply id) /\
  is_int64 (TickDuration id) /\ is_uint 1 (MaxTickValueInSlot id) /\
  is_uint 1 (NumHalvingEpochs id) /\ is_uint 4 (SlotsPerHalvingEpoch id) /\
  is_uint 8 (BranchBonusBase id) /\
  is_uint 8 (ChainInflationPerTickFractionBase id) /\
  is_uint 8 (ChainInflationOpportunitySlots id) /\ is_uint 8 (VBCost id) /\
  is_uint 1 (TransactionPace id) /\ is_uint 1 (TransactionPaceSequencer id) /\
  is_uint 8 (MinimumAmountOnSequencer id) /\
  is_uint 8 (MaxNumberOfEndorsements id).

(** [ed25519.PublicKeySize] *)
Definition PublicKeySize : nat := 32.

(** [func (id *IdentityData) Bytes() []byte]: [binary.Write] of a
    fixed-size integer appends its big-endian bytes; an [int64] is written
    in two's complement and [uint16(len(...))] keeps the low 16 bits. *)
Definition Bytes (id : IdentityData) : outcome bytes :=
  let buf := PutUint 4 (GenesisTimeUnix id) in
  Assertf (length (GenesisControllerPublicKey id) =? PublicKeySize)%nat
    "id.GenesisControllerPublicKey)==ed25519.PublicKeySize";;
  let buf := buf ++ GenesisControllerPublicKey id in
  let buf := buf ++ PutUint 8 (InitialSupply id) in
  let buf := buf ++ PutUint 8 (TickDuration id) in
  let buf := buf ++ PutUint 1 (MaxTickValueInSlot id) in
  let buf := buf ++ PutUint 4 (SlotsPerHalvingEpoch id) in
  let buf := buf ++ PutUint 8 (BranchBonusBase id) in
  let buf := buf ++ PutUint 1 (NumHalvingEpochs id) in
  let buf := buf ++ PutUint 8 (ChainInflationPerTickFractionBase id) in
  let buf := buf ++ PutUint 8 (ChainInflationOpportunitySlots id) in
  let buf := buf ++ PutUint 8 (VBCost id) in
  let buf := buf ++ PutUint 1 (TransactionPace id) in
  let buf := buf ++ PutUint 1 (TransactionPaceSequencer id) in
  let buf := buf ++ PutUint 8 (MinimumAmountOnSequencer id) in
  let buf := buf ++ PutUint 8 (MaxNumberOfEndorsements id) in
  let buf := buf ++ PutUint 2 (Z.of_nat (length (Description id))) in
  let buf := buf ++ Description id in
  mret buf.

(** A [bytes.Reader] is the bytes not yet read. *)

(** [binary.Read(rdr, binary.BigEndian, &v)] for an unsigned [v] of [n]
    bytes: [io.EOF] or [io.ErrUnexpectedEOF] when fewer than [n] bytes are
    left. *)
Definition binaryRead (n : nat) (rdr : bytes) : outcome (Z * bytes) :=
  if (length rdr <? n)%nat then
    Err (if (length rdr =? 0)%nat then "EOF" else "unexpected EOF")
  else Ok (Uint (take n rdr), drop n rdr).

(** The same for an [int64]. *)
Definition binaryReadInt64 (rdr : bytes) : outcome (Z * bytes) :=
  '(u, rdr) ← binaryRead 8 rdr;
  mret (if u <? 2 ^ 63 then u else u - 2 ^ 64, rdr).

(** [n, err = rdr.Read(buf)] with [len(buf) = size]: at the end of the
    input [bytes.Reader.Read] returns [0, io.EOF], whatever the size of the
    buffer; otherwise it copies what fits into the zeroed buffer. *)
Definition Read (size : nat) (rdr : bytes) : outcome (nat * bytes * bytes) :=
  if (length rdr =? 0)%nat then Err "EOF"
  else Ok (Nat.min size (length rdr),
           take size rdr ++ replicate (size - length rdr) x00,
           drop size rdr).

(** [func MustLedgerIdentityDataFromBytes(data []byte) *IdentityData] *)
Definition MustLedgerIdentityDataFromBytes (data : bytes) : outcome IdentityData :=
  let rdr := data in
  '(genesisTimeUnix, rdr) ← AssertNoError (binaryRead 4 rdr);
  '(n, buf, rdr) ← AssertNoError (Read PublicKeySize rdr);
  Assertf (n =? PublicKeySize)%nat "wrong data size";;
  let genesisControllerPublicKey := buf in
  '(initialSupply, rdr) ← AssertNoError (binaryRead 8 rdr);
  '(bufNano, rdr) ← AssertNoError (binaryReadInt64 rdr);
  '(maxTickValueInSlot, rdr) ← AssertNoError (binaryRead 1 rdr);
  '(slotsPerHalvingEpoch, rdr) ← AssertNoError (binaryRead 4 rdr);
  '(branchBonusBase, rdr) ← AssertNoError (binaryRead 8 rdr);
  '(numHalvingEpochs, rdr) ← AssertNoError (binaryRead 1 rdr);
  '(chainInflationPerTickFractionBase, rdr) ← AssertNoError (binaryRead 8 rdr);
  '(chainInflationOpportunitySlots, rdr) ← AssertNoError (binaryRead 8 rdr);
  '(vbCost, rdr) ← AssertNoError (binaryRead 8 rdr);
  '(transactionPace, rdr) ← AssertNoError (binaryRead 1 rdr);
  '(transactionPaceSequencer, rdr) ← AssertNoError (binaryRead 1 rdr);
  '(minimumAmountOnSequencer, rdr) ← AssertNoError (binaryRead 8 rdr);
  '(maxNumberOfEndorsements, rdr) ← AssertNoError (binaryRead 8 rdr);
  '(size16, rdr) ← AssertNoError (binaryRead 2 rdr);
  '(n, buf, rdr) ← AssertNoError (Read (Z.to_nat size16) rdr);
  Assertf (n =? Z.to_nat size16)%nat "wrong data size";;
  Assertf (length rdr =? 0)%nat "not all bytes has been read";;
  mret {| Description := buf;
          GenesisTimeUnix := genesisTimeUnix;
          InitialSupply := initialSupply;
          GenesisControllerPublicKey := genesisControllerPublicKey;
          TickDuration := bufNano;
          MaxTickValueInSlot := maxTickValueInSlot;
          NumHalvingEpochs := numHalvingEpochs;
          SlotsPerHalvingEpoch := slotsPerHalvingEpoch;
          BranchBonusBase := branchBonusBase;
          ChainInflationPerTickFractionBase := chainInflationPerTickFractionBase;
          ChainInflationOpportunitySlots := chainInflationOpportunitySlots;
          VBCost := vbCost;
          TransactionPace := transactionPace;
          TransactionPaceSequencer := transactionPaceSequencer;
          MinimumAmountOnSequencer := minimumAmountOnSequencer;
          MaxNumberOfEndorsements := maxNumberOfEndorsements |}.

(** A sample identity for the examples: a key of 32 bytes and the
    description [A]. *)
Definition sampleIdentity : IdentityData :=
  {| Description := [x41];
     GenesisTimeUnix := 1700000000;
     InitialSupply := 1000000000000;
     GenesisControllerPublicKey := repeat x07 32;
     TickDuration := 100000000;
     MaxTickValueInSlot := 99;
     NumHalvingEpochs := 5;
     SlotsPerHalvingEpoch := 2289600;
     BranchBonusBase := 5000000;
     ChainInflationPerTickFractionBase := 400000000;
     ChainInflationOpportunitySlots := 12;
     VBCost := 1;
     TransactionPace := 10;
     TransactionPaceSequencer := 5;
     MinimumAmountOnSequencer := 1000000;
     MaxNumberOfEndorsements := 8 |}.

Definition sampleIdentityBytes : bytes := Eval cbv in
    match Bytes sampleIdentity with
    | Ok data => data
    | _ => []
    end.

End ledgerid.


(** ** Package [vertex]: the consumers of the outputs of a transaction *)

Module consumers.

Abbreviation addr := positive.

(** [consumed map[byte]set.Set[*WrappedTx]]: the nil map is the empty map
    and the nil set an absent key. *)
Abbreviation Consumed := (gmap Z (gset addr)).

(** [func (vid *WrappedTx) ConsumersOf(outIdx byte) set.Set[*WrappedTx]] *)
Definition ConsumersOf (consumed : Consumed) (outIdx : Z) : gset addr :=
  default ∅ (consumed !! outIdx).

(** [func (vid *WrappedTx) AttachConsumer(outputIndex byte, consumer *WrappedTx, checkConflicts func(existingConsumers set.Set[*WrappedTx]) (conflict bool)) bool] *)
Definition AttachConsumer (outputIndex : Z) (consumer : addr)
    (checkConflicts : gset addr -> bool) (consumed : Consumed)
    : bool * Consumed :=
  let outputConsumers :=
    match consumed !! outputIndex with
    | None => {[ consumer ]}
    | Some s => s ∪ {[ consumer ]}
    end in
  let consumed := <[outputIndex := outputConsumers]> consumed in
  let conflict := checkConflicts outputConsumers in
  (negb conflict, consumed).

(** [func (vid *WrappedTx) NumConsumers() (int, int)] *)
Definition NumConsumers (consumed : Consumed) : Z * Z :=
  let retConsumed := Z.of_nat (size consumed) in
  let retCS :=
    Z.of_nat (size (filter (fun kv => (1 < size kv.2)%nat) consumed)) in
  (retConsumed, retCS).

(** A series of [AttachConsumer] calls on one transaction, each with its
    output index and consumer; the conflict check is the same throughout. *)
Fixpoint attachAll (checkConflicts : gset addr -> bool)
    (calls : list (Z * addr)) (consumed : Consumed) : Consumed :=
  match calls with
  | [] => consumed
  | (idx, consumer) :: calls' =>
      attachAll checkConflicts calls'
        (AttachConsumer idx consumer checkConflicts consumed).2
  end.

End consumers.

(** ** Package [tippool]: the effect of [Consume] on the heap *)

Module tippoolEffects.
Import tippool.

(** The incoming vertex [inp] was stored: it is the tip of its chain in
    [tips'], it has one more reference in [h'], and the tip it replaced,
    when there was one, has one less; nothing else differs from [h] and
    [tips]. *)
Definition stored (h : heap) (tips : SequencerTips) (inp : addr)
    (h' : heap) (tips' : SequencerTips) : Prop :=
  exists (vnew : vertex.WrappedTx) (seqID branch : bytes),
    h !! inp = Some vnew /\
    vertex.SequencerIDIfAvailable vnew = Some seqID /\
    vertex.references vnew <> 0 /\ vertex.references vnew < MaxUint16 /\
    tips' = <[seqID := mkMilestoneData inp branch]> tips /\
    match tips !! seqID with
    | None =>
        h' = <[inp := vertex.set_references (vertex.references vnew + 1) vnew]> h
    | Some old =>
        WrappedTx old <> inp /\
        exists vold : vertex.WrappedTx,
          h !! WrappedTx old = Some vold /\ 0 < vertex.references vold /\
          h' = <[WrappedTx old :=
                   vertex.set_references (vertex.references vold - 1) vold]>
                 (<[inp := vertex.set_references (vertex.references vnew + 1) vnew]> h)
    end.

End tippoolEffects.

(** ** Package [api]: sequencer statistics *)

Module apiStats.

(** What [GetSequencerStatistics] reads of a [multistate.BranchData]:
    [bd.SequencerID.String()], [bd.SequencerOutput.Output.Amount()] and the
    name in the milestone data of the sequencer output, when it parses. *)
Record BranchData : Type := mkBranchData {
  SequencerIDString : string;
  Amount : Z;                         (* uint64 *)
  MilestoneName : option string
}.

Record SequencerStatistic : Type := mkSequencerStatistic {
  Name : string;
  Wins : Z;                           (* uint32 *)
  OnChainBalance : Z                  (* uint64 *)
}.

(** [&SequencerStatistic{}] *)
Definition zeroStatistic : SequencerStatistic := mkSequencerStatistic EmptyString 0 0.

(** [SequStat map[string]*SequencerStatistic] *)
Abbreviation SequStat := (gmap string SequencerStatistic).

(** The body of [for _, bd := range mainBranches]; a nil [bd] is [None]. *)
Definition statsBody (sequStat : SequStat) (bd : option BranchData)
    : outcome SequStat :=
  match bd with
  | None => Panic "nil pointer dereference"
  | Some bd =>
      let sd := default zeroStatistic (sequStat !! SequencerIDString bd) in
      let wins := (Wins sd + 1) mod uint32_mod in
      let balance :=
        if OnChainBalance sd =? 0 then Amount bd else OnChainBalance sd in
      let name :=
        if String.eqb (Name sd) EmptyString then
          match MilestoneName bd with
          | Some n => n
          | None => Name sd
          end
        else Name sd in
      mret (<[SequencerIDString bd := mkSequencerStatistic name wins balance]> sequStat)
  end.

Fixpoint statsLoop (sequStat : SequStat) (mainBranches : list (option BranchData))
    : outcome SequStat :=
  match mainBranches with
  | [] => Ok sequStat
  | bd :: rest => s ← statsBody sequStat bd; statsLoop s rest
  end.

(** [func GetSequencerStatistics(stateStore global.StateStoreReader, nSlotsBack int) *SequencerStatistics],
    given the result of [multistate.FetchHeaviestBranchChainNSlotsBack(stateStore, -1)]. *)
Definition GetSequencerStatistics (mainBranches : list (option BranchData))
    : outcome SequStat :=
  statsLoop ∅ mainBranches.

(** The branches of the chain won by the sequencer [seq]. *)
Definition wonBy (seq : string) (mainBranches : list BranchData) : list BranchData :=
  List.filter (fun bd => String.eqb (SequencerIDString bd) seq) mainBranches.

(** The first amount that is not zero. *)
Fixpoint firstNonZero (amounts : list Z) : Z :=
  match amounts with
  | [] => 0
  | a :: rest => if a =? 0 then firstNonZero rest else a
  end.

End apiStats.

(** ** Package [backlog]: the input backlog of a sequencer *)

Module backlog.

Abbreviation addr := positive.
Abbreviation heap := (gmap addr vertex.WrappedTx).

(** [vertex.WrappedOutput{VID, Index}] *)
Abbreviation WrappedOutput := (addr * Z)%type.

(** [outputs map[vertex.WrappedOutput]time.Time] with the counters of
    [InputBacklog]; times are in nanoseconds. *)
Record InputBacklog : Type := mkInputBacklog {
  outputs : gmap WrappedOutput Z;
  outputCount : Z;                  (* int *)
  removedOutputsSinceReset : Z;     (* int *)
  lastOutputArrived : Z             (* time.Time *)
}.

Section WithVertex.
(** The bit of [FlagVertexDefined] and the layout of a transaction id are
    not in the sources; neither are [ledger.Output] and what a vertex or a
    virtual transaction answers to [_outputAt]. *)
Variable FlagVertexDefined : vertex.Flags.
Variable IsBranchTransaction : bytes -> bool.
Variable Output : Type.
Variable _outputAt : vertex.WrappedTx -> Z -> outcome (option Output).
(** The index [o.ChainConstraint()] returns; [0xff] when there is none. *)
Variable ChainConstraintIndex : Output -> Z.

(** [func (vid *WrappedTx) OutputAt(idx byte)], which returns an output
    and an error: a deleted transaction answers with
    [ErrDeletedVertexAccessed]. *)
Definition OutputAt (vid : vertex.WrappedTx) (idx : Z) : outcome (option Output) :=
  match vertex.wrapper vid with
  | vertex._deletedTx => Err "deleted vertex should not be accessed"
  | _ => _outputAt vid idx
  end.

(** [wOut.VID.UnReference()] through the pointer. *)
Definition unreference (h : heap) (a : addr) : outcome heap :=
  vid ← tippool.deref h (Some a);
  vid' ← vertex.UnReference vid;
  mret (<[a := vid']> h).

(** [func (b *InputBacklog) checkAndReferenceCandidate(wOut vertex.WrappedOutput) bool];
    tracing is left out. *)
Definition checkAndReferenceCandidate (h : heap) (wOut : WrappedOutput)
    : outcome (bool * heap) :=
  vid ← tippool.deref h (Some wOut.1);
  if IsBranchTransaction (vertex.ID vid) then mret (false, h) else
  '(referenced, vid) ← vertex.Reference vid;
  if negb referenced then mret (false, h) else
  let h := <[wOut.1 := vid]> h in
  st ← vertex.GetTxStatusNoLock FlagVertexDefined vid;
  if bool_decide (st = vertex.Bad) then
    h ← unreference h wOut.1; mret (false, h)
  else
  match OutputAt vid wOut.2 with
  | Panic msg => Panic msg
  | Err _ => h ← unreference h wOut.1; mret (false, h)
  | Ok o =>
      match o with
      | Some o =>
          if negb (ChainConstraintIndex o =? 255) then
            h ← unreference h wOut.1; mret (false, h)
          else mret (true, h)
      | None => mret (true, h)
      end
  end.

(** The function [New] hands to [ListenToAccount]; [nowis] is
    [time.Now()]. *)
Definition listener (nowis : Z) (wOut : WrappedOutput) (st : heap * InputBacklog)
    : outcome (heap * InputBacklog) :=
  let '(h, b) := st in
  '(ok, h) ← checkAndReferenceCandidate h wOut;
  if negb ok then mret (h, b) else
  match outputs b !! wOut with
  | Some _ => h ← unreference h wOut.1; mret (h, b)
  | None =>
      mret (h, mkInputBacklog (<[wOut := nowis]> (outputs b))
                 (wrap_int (outputCount b + 1))
                 (removedOutputsSinceReset b)
                 nowis)
  end.

(** The second loop of [purgeBacklog]. *)
Fixpoint purgeLoop (toDelete : list WrappedOutput)
    (st : heap * gmap WrappedOutput Z) : outcome (heap * gmap WrappedOutput Z) :=
  match toDelete with
  | [] => Ok st
  | wOut :: rest =>
      h ← unreference st.1 wOut.1;
      purgeLoop rest (h, delete wOut st.2)
  end.

(** [func (b *InputBacklog) purgeBacklog(ttl time.Duration) int]; the
    outputs to delete are collected in the order in which the map is
    walked. *)
Definition purgeBacklog (now ttl : Z) (st : heap * InputBacklog)
    : outcome (Z * (heap * InputBacklog)) :=
  let '(h, b) := st in
  let horizon := now - ttl in
  let toDelete :=
    (map_to_list (filter (fun kv => kv.2 < horizon) (outputs b))).*1 in
  '(h, outs) ← purgeLoop toDelete (h, outputs b);
  mret (Z.of_nat (length toDelete),
        (h, mkInputBacklog outs (outputCount b) (removedOutputsSinceReset b)
              (lastOutputArrived b))).

End WithVertex.

(** The references a vertex has, 0 for an address without a vertex, and
    the outputs of the vertex that the backlog holds. *)
Definition refs (h : heap) (a : addr) : Z :=
  default 0 (vertex.references <$> h !! a).

Definition held (outs : gmap WrappedOutput Z) (a : addr) : Z :=
  Z.of_nat (size (filter (fun kv : WrappedOutput * Z => kv.1.1 = a) outs)).

(** Samples for the examples: no transaction is a branch, no output is
    known to a vertex, and the backlog holds output 0 of the vertex at
    address 1 since time 5. *)
Definition sampleOutputAt (_ : vertex.WrappedTx) (_ : Z) : outcome (option unit) :=
  Ok None.

Definition sampleBacklog : InputBacklog :=
  mkInputBacklog {[ (1%positive, 0) := 5 ]} 1 0 5.

End backlog.

(** ** Package [syncmgr]: the sync manager *)

Module syncmgr.

(** The fields of [SyncManager] that [checkSync] and [IgnoreFutureTxID]
    use; the zero [time.Time] of the deadline is [None]. *)
Record SyncManager : Type := mkSyncManager {
  syncPortionSlots : Z;                          (* int *)
  syncToleranceThresholdSlots : Z;               (* int *)
  syncPortionRequestedAtLeastUntilSlot : Z;      (* ledger.Slot, uint32 *)
  syncPortionDeadline : option Z;                (* time.Time *)
  latestSlotInDB : Z                             (* atomic.Uint32 *)
}.

(** [portionExpectedIn = 5 * time.Second] *)
Definition portionExpectedIn : Z := 5 * 1000000000.

(** [func (d *SyncManager) checkSync()]: [latest] is
    [multistate.FetchLatestSlot(d.StateStore())], [slotNow] is
    [ledger.TimeNow().Slot()] and [now] is [time.Now()]; the result is the
    manager and the call of [PullSyncPortion] made, if any.  Logging is
    left out. *)
Definition checkSync (d : SyncManager) (latest slotNow now : Z)
    : outcome (SyncManager * option (Z * Z)) :=
  let d := mkSyncManager (syncPortionSlots d) (syncToleranceThresholdSlots d)
             (syncPortionRequestedAtLeastUntilSlot d) (syncPortionDeadline d)
             latest in
  Assertf (latest <=? slotNow) "latestSlot <= slotNow";;
  let behind := slotNow - latest in
  if behind <=? syncToleranceThresholdSlots d then
    mret (mkSyncManager (syncPortionSlots d) (syncToleranceThresholdSlots d)
            0 None (latestSlotInDB d), None)
  else
  if (latest <? syncPortionRequestedAtLeastUntilSlot d)
     && match syncPortionDeadline d with
        | Some deadline => now <? deadline
        | None => false
        end
  then mret (d, None)
  else
    let requested := (latest + syncPortionSlots d mod uint32_mod) mod uint32_mod in
    let requested := if slotNow <? requested then slotNow else requested in
    mret (mkSyncManager (syncPortionSlots d) (syncToleranceThresholdSlots d)
            requested (Some (now + portionExpectedIn)) (latestSlotInDB d),
          Some (latest, syncPortionSlots d)).

(** [func (d *SyncManager) IgnoreFutureTxID(txid *ledger.TransactionID) bool],
    on the slot of the transaction id. *)
Definition IgnoreFutureTxID (d : SyncManager) (txSlot : Z) : bool :=
  (latestSlotInDB d <? txSlot)
  && (syncToleranceThresholdSlots d <? txSlot - latestSlotInDB d).

End syncmgr.

(** ** Package [peering] *)

Module peering.

(** [peer.ID] is a string. *)
Abbreviation peerID := string.

Record Peer : Type := mkPeer {
  id : peerID;
  name : string;
  isStatic : bool;
  whenAdded : Z;                   (* time.Time, nanoseconds *)
  lastMsgReceived : Z;             (* time.Time *)
  clockDifferences : list Z;       (* [10]time.Duration *)
  clockDifferencesIdx : Z          (* int *)
}.

(** [peers map[peer.ID]*Peer] and [blacklist map[peer.ID]time.Time] of
    [Peers]; the libp2p host behind them is left out. *)
Record Peers : Type := mkPeers {
  peers : gmap peerID Peer;
  blacklist : gmap peerID Z
}.

Definition minute : Z := 60 * 1000000000.

(** [func (ps *Peers) _addPeer(addrInfo *peer.AddrInfo, name string, static bool)];
    [now] is [time.Now()]. *)
Definition _addPeer (now : Z) (pid : peerID) (nm : string) (static : bool)
    (ps : Peers) : Peers :=
  let p := mkPeer pid nm static now 0 (replicate 10 0) 0 in
  mkPeers (<[pid := p]> (peers ps)) (blacklist ps).

(** [func (ps *Peers) addPeer(addrInfo *peer.AddrInfo, name string, static bool)] *)
Definition addPeer (now : Z) (pid : peerID) (nm : string) (static : bool)
    (ps : Peers) : Peers :=
  match peers ps !! pid with
  | Some _ => ps
  | None => _addPeer now pid nm static ps
  end.

(** [func (ps *Peers) _addToBlacklist(id peer.ID, ttl time.Duration)] *)
Definition _addToBlacklist (now : Z) (pid : peerID) (ttl : Z) (ps : Peers) : Peers :=
  mkPeers (peers ps) (<[pid := now + ttl]> (blacklist ps)).

(** [func (ps *Peers) _dropPeer(p *Peer, reason ...string)] *)
Definition _dropPeer (now : Z) (p : Peer) (ps : Peers) : outcome Peers :=
  Assertf (negb (isStatic p)) "removeDynamicPeer: must not be pre-configured";;
  let ps := mkPeers (delete (id p) (peers ps)) (blacklist ps) in
  mret (_addToBlacklist now (id p) minute ps).

(** [func (ps *Peers) dropPeer(id peer.ID, reason ...string)] *)
Definition dropPeer (now : Z) (pid : peerID) (ps : Peers) : outcome Peers :=
  match peers ps !! pid with
  | Some p => if negb (isStatic p) then _dropPeer now p ps else mret ps
  | None => mret ps
  end.

(** [func (ps *Peers) isInBlacklist(id peer.ID) bool] *)
Definition isInBlacklist (pid : peerID) (ps : Peers) : bool :=
  bool_decide (is_Some (blacklist ps !! pid)).

(** [func (ps *Peers) cleanBlacklist()] *)
Definition cleanBlacklist (now : Z) (ps : Peers) : Peers :=
  mkPeers (peers ps) (filter (fun kv => ~ (kv.2 < now)) (blacklist ps)).

(** Every peer is filed under its own id, as [_addPeer] does it. *)
Definition idsAreKeys (ps : Peers) : Prop :=
  forall (k : peerID) (q : Peer), peers ps !! k = Some q -> id q = k.

(** What happens to the set of peers. *)
Inductive Op : Type :=
| OpAddPeer (pid : peerID) (nm : string) (static : bool)
| OpDropPeer (pid : peerID)
| OpCleanBlacklist.

Definition applyPeerOp (now : Z) (op : Op) (ps : Peers) : outcome Peers :=
  match op with
  | OpAddPeer pid nm static => mret (addPeer now pid nm static ps)
  | OpDropPeer pid => dropPeer now pid ps
  | OpCleanBlacklist => mret (cleanBlacklist now ps)
  end.

Fixpoint applyPeerOps (ops : list (Z * Op)) (ps : Peers) : outcome Peers :=
  match ops with
  | [] => Ok ps
  | (now, op) :: rest => ps' ← applyPeerOp now op ps; applyPeerOps rest ps'
  end.

(** [func (p *Peer) _evidenceClockDifference(diff time.Duration)]; an index
    outside the array panics. *)
Definition _evidenceClockDifference (diff : Z) (p : Peer) : outcome Peer :=
  let idx := clockDifferencesIdx p in
  if (0 <=? idx) && (idx <? Z.of_nat (length (clockDifferences p))) then
    mret (mkPeer (id p) (name p) (isStatic p) (whenAdded p) (lastMsgReceived p)
            (<[Z.to_nat idx := diff]> (clockDifferences p))
            (Z.rem (idx + 1) (Z.of_nat (length (clockDifferences p)))))
  else Panic "index out of range".

Fixpoint evidenceAll (diffs : list Z) (p : Peer) : outcome Peer :=
  match diffs with
  | [] => Ok p
  | d :: rest => p' ← _evidenceClockDifference d p; evidenceAll rest p'
  end.

(** *** Ranked choice of pull targets (ranking.go) *)

(** [rand.Intn(n)]: it panics unless [n] is positive; [rnd] stands for the
    state of the generator. *)
Definition Intn (rnd n : Z) : outcome Z :=
  if n <=? 0 then Panic "invalid argument to Intn" else Ok (rnd mod n).

(** The slice expression [s[lo:hi]]. *)
Definition slice {A : Type} (s : list A) (lo hi : Z) : outcome (list A) :=
  if (0 <=? lo) && (lo <=? hi) && (hi <=? Z.of_nat (length s))
  then Ok (take (Z.to_nat (hi - lo)) (drop (Z.to_nat lo) s))
  else Panic "slice bounds out of range".

(** The loop [for i, v := range cumulativeRank] of [chooseRandomIndex]. *)
Fixpoint firstAbove (rnd : Z) (cumulativeRank : list Z) (i : Z) : outcome Z :=
  match cumulativeRank with
  | [] => Panic "inconsistency in chooseRandomIndex"
  | v :: rest => if rnd <? v then Ok i else firstAbove rnd rest (i + 1)
  end.

(** [func chooseRandomIndex(cumulativeRank []int) int] *)
Definition chooseRandomIndex (rnd : Z) (cumulativeRank : list Z) : outcome Z :=
  Assertf (0 <? length cumulativeRank)%nat "len(cumulativeRank)>0";;
  r ← Intn rnd (List.last cumulativeRank 0);
  firstAbove r cumulativeRank 0.

(** [func chooseRandomRankedPeers(n int, rankedPeers []peer.ID, cumulativeRank []int) []peer.ID] *)
Definition chooseRandomRankedPeers (rnd n : Z) (rankedPeers : list peerID)
    (cumulativeRank : list Z) : outcome (list peerID) :=
  Assertf (length rankedPeers =? length cumulativeRank)%nat
    "len(rankedPeers)==len(cumulativeRank)";;
  if Z.of_nat (length rankedPeers) <=? n then mret rankedPeers else
  Assertf (n <? Z.of_nat (length rankedPeers)) "n < len(rankedPeers)";;
  rndIdx ← chooseRandomIndex rnd cumulativeRank;
  Assertf (rndIdx <? Z.of_nat (length cumulativeRank)) "rndIdx < len(cumulativeRank)";;
  let rndIdx :=
    if Z.of_nat (length rankedPeers) <? rndIdx + n
    then Z.of_nat (length rankedPeers) - n else rndIdx in
  slice rankedPeers rndIdx (rndIdx + n).

(** [func (ps *Peers) pullTargetsRanked() ([]peer.ID, []int)], over the
    peers in the order in which the map is walked, each with
    [ps._isPullTarget(p)] and [p.rank()]. *)
Fixpoint pullTargetsRanked (walk : list (peerID * bool * Z))
    (ret : list peerID) (retRankCumulative : list Z) : list peerID * list Z :=
  match walk with
  | [] => (ret, retRankCumulative)
  | (pid, isPullTarget, r) :: rest =>
      if negb isPullTarget then pullTargetsRanked rest ret retRankCumulative
      else
        let cum :=
          match retRankCumulative with
          | [] => [r]
          | _ => retRankCumulative
                 ++ [wrap_int (List.last retRankCumulative 0 + r)]
          end in
        pullTargetsRanked rest (ret ++ [pid]) cum
  end.

(** [func (ps *Peers) randomPullTargets(n int) []peer.ID] *)
Definition randomPullTargets (rnd n : Z) (walk : list (peerID * bool * Z))
    : outcome (list peerID) :=
  let '(rankedPeers, ranksCumulative) := pullTargetsRanked walk [] [] in
  chooseRandomRankedPeers rnd n rankedPeers ranksCumulative.

(** Samples for the examples: a static and a dynamic peer. *)
Definition samplePeer (pid : peerID) (static : bool) : Peer :=
  mkPeer pid "peer" static 0 0 (replicate 10 0) 0.

Definition samplePeers : Peers :=
  mkPeers {[ "a"%string := samplePeer "a" true;
             "b"%string := samplePeer "b" false ]} ∅.

End peering.

(** * Properties *)

(** ** The definitions at work *)

Example PutUint64_258 :
  PutUint64 258 = [x00; x00; x00; x00; x00; x00; x01; x02].
Proof. reflexivity. Qed.

Example Uint_258 : Uint [x01; x02] = 258.
Proof. reflexivity. Qed.

Example Compare_lexicographic :
  Compare [x01; x02] [x01; x03] = -1 /\ Compare [x02] [x01; x03] = 1 /\
  Compare [x01] [x01] = 0 /\ Compare [x01] [x01; x00] = -1.
Proof. repeat split. Qed.

Example threshold_half_of_1000 :
  multistate.AbsoluteStrongFinalityCoverageThreshold 1000 1 2 = Ok 1000.
Proof. reflexivity. Qed.

(** The division comes first: a third of 1000 is 333, two thirds are 666,
    doubled 1332 (and not [2*1000*2/3 = 1333]). *)
Example threshold_two_thirds_of_1000 :
  multistate.AbsoluteStrongFinalityCoverageThreshold 1000 2 3 = Ok 1332.
Proof. reflexivity. Qed.

(** The final doubling wraps for a supply close to the top of [uint64]. *)
Example threshold_wraps :
  multistate.AbsoluteStrongFinalityCoverageThreshold (2 ^ 64 - 1) 2 3
  = Ok 6148914691236517204.
Proof. vm_compute. reflexivity. Qed.

(** A zero denominator stops the program at the division. *)
Example threshold_zero_denominator :
  multistate.AbsoluteStrongFinalityCoverageThreshold 1000 1 0
  = Panic "integer divide by zero".
Proof. reflexivity. Qed.

Example encodeData_two_fields :
  reference.encodeData [[x0a; x0b]; []] = [x00; x02; x0a; x0b; x00; x00].
Proof. reflexivity. Qed.

Example parseArray_two_fields :
  reference.parseArray [x00; x02; x0a; x0b; x00; x00] 6 = Ok [[x0a; x0b]; []] /\
  reference.parseArray [x00; x02; x0a] 6 = Err "unexpected EOF" /\
  isErr (reference.parseArray [x00; x00; x00; x00] 1) = true.
Proof. repeat split. Qed.

Example NextSlotBoundary_of_tick_50 :
  ledger.NextSlotBoundary (ledger.mkTime 3 50) = ledger.mkTime 4 0 /\
  ledger.NextSlotBoundary (ledger.mkTime 3 0) = ledger.mkTime 3 0 /\
  ledger.TicksToNextSlotBoundary 99 (ledger.mkTime 3 70) = 30 /\
  ledger.AddTicks 99 (ledger.mkTime 3 70) 45 = ledger.mkTime 4 15.
Proof. repeat split. Qed.

(** The previous milestone at tick 10, now at tick 12 and a pace of 5: the
    target is tick 15, far from the boundary of a slot of 100 ticks. *)
Example getNextTargetTime_plain :
  sequencer.getNextTargetTime 99 (ledger.mkTime 0 10) (ledger.mkTime 0 12) 5
  = Ok (ledger.mkTime 0 15, ledger.mkTime 0 10).
Proof. vm_compute. reflexivity. Qed.

(** A clock behind the previous milestone fails the assertion. *)
Example getNextTargetTime_clock_behind :
  isOk (sequencer.getNextTargetTime 99 (ledger.mkTime 0 10) (ledger.mkTime 0 9) 5)
  = false.
Proof. reflexivity. Qed.

Example Reference_of_fresh_vertex :
  vertex.Reference (vertex._newVID (vertex._virtualTx None) [])
  = Ok (true, vertex.set_references 2 (vertex._newVID (vertex._virtualTx None) [])).
Proof. reflexivity. Qed.

Example poker_consume_PokeMe_nil :
  isOk (poker.consume 0 (poker.mkCmd None (Some 5%positive) poker.CommandAdd) ∅)
  = false.
Proof. reflexivity. Qed.

(** ** Machine integers and byte slices *)

Lemma Z_of_byte_range (b : byte) : 0 <= Z_of_byte b < 256.
Proof.
  unfold Z_of_byte. pose proof (Byte.to_N_bounded b). lia.
Qed.

Lemma Z_of_byte_of_Z (v : Z) : Z_of_byte (byte_of_Z v) = v mod 256.
Proof.
  unfold Z_of_byte, byte_of_Z.
  change 255 with (Z.ones 8). rewrite Z.land_ones by lia.
  change (2 ^ 8) with 256.
  pose proof (Z.mod_pos_bound v 256 ltac:(lia)) as Hb.
  destruct (Byte.of_N (Z.to_N (v mod 256))) as [b|] eqn:E.
  - apply Byte.to_of_N in E. rewrite E. lia.
  - apply Byte.of_N_None_iff in E. lia.
Qed.

Lemma byte_of_Z_of_byte (b : byte) : byte_of_Z (Z_of_byte b) = b.
Proof.
  unfold byte_of_Z, Z_of_byte.
  change 255 with (Z.ones 8). rewrite Z.land_ones by lia.
  pose proof (Byte.to_N_bounded b).
  rewrite Z.mod_small by (change (2^8) with 256; lia).
  rewrite N2Z.id, Byte.of_to_N. reflexivity.
Qed.

(** [acc<<8 | b] is [acc*256 + b] for a byte [b]. *)
Lemma lor_shiftl_byte (acc b : Z) :
  0 <= b < 256 -> Z.lor (Z.shiftl acc 8) b = acc * 256 + b.
Proof.
  intros Hb.
  rewrite Z.shiftl_mul_pow2 by lia. change (2 ^ 8) with 256.
  rewrite <- Z.lxor_lor, <- Z.add_nocarry_lxor; try reflexivity.
  all: apply Z.bits_inj'; intros i Hi; rewrite Z.land_spec, Z.bits_0.
  all: destruct (Z.ltb_spec i 8).
  all: try (replace (acc * 256) with (acc * 2 ^ 8) by reflexivity;
            rewrite Z.mul_pow2_bits_low by lia; reflexivity).
  all: rewrite (Z.bits_above_log2 b i); [apply andb_false_r| lia|].
  all: destruct (Z.eq_dec b 0) as [->|]; [simpl; lia|].
  all: apply Z.log2_lt_pow2; [lia|].
  all: apply Z.lt_le_trans with (2 ^ 8); [change (2^8) with 256; lia|].
  all: apply Z.pow_le_mono_r; lia.
Qed.

Lemma length_PutUint (n : nat) (v : Z) : length (PutUint n v) = n.
Proof. induction n; simpl; congruence. Qed.

Lemma fold_PutUint (n : nat) (v acc : Z) :
  fold_left (fun a x => Z.lor (Z.shiftl a 8) (Z_of_byte x)) (PutUint n v) acc
  = acc * 2 ^ (8 * Z.of_nat n) + v mod 2 ^ (8 * Z.of_nat n).
Proof.
  revert acc. induction n as [|k IH]; intros acc.
  - simpl. rewrite Z.mod_1_r. lia.
  - cbn [PutUint fold_left].
    rewrite lor_shiftl_byte by apply Z_of_byte_range.
    rewrite IH, Z_of_byte_of_Z.
    rewrite Z.shiftr_div_pow2 by lia.
    replace (8 * Z.of_nat (S k)) with (8 * Z.of_nat k + 8) by lia.
    rewrite Z.pow_add_r by lia. change (2 ^ 8) with 256.
    set (p := 2 ^ (8 * Z.of_nat k)).
    assert (0 < p) by (apply Z.pow_pos_nonneg; lia).
    rewrite (Z.rem_mul_r v p 256) by lia.
    lia.
Qed.

(** Reading back a big-endian number gives the value modulo its width. *)
Lemma Uint_PutUint (n : nat) (v : Z) :
  Uint (PutUint n v) = v mod 2 ^ (8 * Z.of_nat n).
Proof. unfold Uint. rewrite fold_PutUint. lia. Qed.

Lemma Uint_PutUint64 (v : Z) : is_uint64 v -> Uint (PutUint64 v) = v.
Proof.
  intros H. unfold PutUint64. rewrite Uint_PutUint.
  apply Z.mod_small. exact H.
Qed.

Lemma Uint_PutUint32 (v : Z) : is_uint32 v -> Uint (PutUint32 v) = v.
Proof.
  intros H. unfold PutUint32. rewrite Uint_PutUint.
  apply Z.mod_small. exact H.
Qed.

Lemma wrap_int_small (x : Z) : is_int x -> wrap_int x = x.
Proof.
  unfold is_int, int_min, int_max, wrap_int. intros H.
  assert (H64 : 2 ^ 64 = 2 * 2 ^ 63) by reflexivity.
  rewrite Z.mod_small; lia.
Qed.

(** ** The reference serialisation satisfies the interface *)

Module referenceProps.
Import reference.

Lemma bytes32_roundtrip (c : bytes32) : bytes32FromBytes (bytes32_Bytes c) = Ok c.
Proof.
  destruct c as [l Hl]. unfold bytes32FromBytes, bytes32_Bytes. simpl.
  destruct (decide (length l = 32%nat)) as [H|H]; [|contradiction].
  f_equal. apply (proj2 (sig_eq_pi _ (exist _ l H) (exist _ l Hl))). reflexivity.
Qed.

Lemma bytes32FromBytes_noPanic (data : bytes) (msg : string) :
  bytes32FromBytes data <> Panic msg.
Proof. unfold bytes32FromBytes. destruct (decide _); discriminate. Qed.

Lemma encodeData_cons (e : bytes) (l : list bytes) :
  encodeData (e :: l) = PutUint 2 (Z.of_nat (length e)) ++ e ++ encodeData l.
Proof. unfold encodeData. cbn [map concat]. symmetry. apply List.app_assoc. Qed.

Lemma decodeData_encodeData (l : list bytes) (fuel : nat) :
  Forall (fun e => (length e <= maxDataLen)%nat) l ->
  (length (encodeData l) <= fuel)%nat ->
  decodeData fuel (encodeData l) = Ok l.
Proof.
  revert fuel. induction l as [|e l IH]; intros fuel Hall Hfuel.
  - destruct fuel; reflexivity.
  - inversion Hall as [|? ? He Hl]; subst.
    rewrite encodeData_cons in *.
    assert (Hsz : Uint (PutUint 2 (Z.of_nat (length e))) = Z.of_nat (length e)).
    { rewrite Uint_PutUint. apply Z.mod_small.
      unfold maxDataLen in He. change (2 ^ (8 * Z.of_nat 2)) with 65536. lia. }
    pose proof (length_PutUint 2 (Z.of_nat (length e))) as Hlen.
    destruct (PutUint 2 (Z.of_nat (length e))) as [|hi [|lo [|? ?]]];
      try discriminate Hlen.
    cbn [app] in *.
    destruct fuel as [|fuel]; [simpl in Hfuel; lia|].
    cbn [decodeData]. rewrite Hsz, Nat2Z.id.
    rewrite length_app.
    destruct (Nat.ltb_spec (length e + length (encodeData l)) (length e)); [lia|].
    rewrite drop_app_length, take_app_length.
    rewrite IH; [reflexivity|assumption|].
    simpl in Hfuel. rewrite length_app in Hfuel. lia.
Qed.

Lemma decodeData_noPanic (fuel : nat) (data : bytes) (msg : string) :
  decodeData fuel data <> Panic msg.
Proof.
  revert data msg. induction fuel as [|fuel IH]; intros data msg.
  - destruct data as [|? [|? ?]]; discriminate.
  - destruct data as [|hi [|lo rest]]; try discriminate.
    cbn [decodeData]. destruct (_ <? _)%nat; [discriminate|].
    pose proof (IH (drop (Z.to_nat (Uint [hi; lo])) rest)) as IH'.
    destruct (decodeData fuel _) as [tl|e|msg']; simpl; try discriminate.
    exfalso. exact (IH' msg' eq_refl).
Qed.

Lemma parseArray_noPanic (data : bytes) (n : nat) (msg : string) :
  parseArray data n <> Panic msg.
Proof.
  unfold parseArray.
  pose proof (decodeData_noPanic (length data) data) as H.
  destruct (decodeData (length data) data) as [l|e|msg']; simpl.
  - destruct (_ <? _)%nat; discriminate.
  - discriminate.
  - exfalso. exact (H msg' eq_refl).
Qed.

Lemma bytes32_Bytes_fits (c : bytes32) :
  (length (bytes32_Bytes c) <= maxDataLen)%nat.
Proof.
  destruct c as [l Hl]. unfold bytes32_Bytes, maxDataLen. simpl. lia.
Qed.

Lemma reference_ok : SerializationOk serialization.
Proof.
  split; simpl.
  - apply bytes32_roundtrip.
  - apply bytes32FromBytes_noPanic.
  - apply bytes32_Bytes_fits.
  - apply bytes32_roundtrip.
  - apply bytes32FromBytes_noPanic.
  - apply bytes32_Bytes_fits.
  - unfold maxDataLen. lia.
  - intros l n Hn Hall. unfold parseArray.
    rewrite decodeData_encodeData by (assumption || lia). simpl.
    destruct (Nat.ltb_spec n (length l)); [lia|reflexivity].
Qed.

End referenceProps.

(** ** Root records *)

Module multistateProps.
Import multistate.

Section WithSerialization.
Context {S : Serialization} {S_ok : SerializationOk S}.
Local Opaque PutUint Uint.

Lemma Bytes_fields (r : RootRecord) :
  0 < LedgerCoverage r -> Bytes r = Ok (lazybytes_Bytes (fields r)).
Proof.
  intros Hcov. unfold Bytes.
  destruct (Z.ltb_spec 0 (LedgerCoverage r)); [|lia].
  reflexivity.
Qed.

Lemma fields_fit (r : RootRecord) :
  Forall (fun e => (length e <= lazybytes_maxDataLen)%nat) (fields r).
Proof.
  pose proof lazybytes_fits_uint64 as H8.
  unfold fields.
  repeat constructor; rewrite ?length_PutUint; try lia.
  - apply ChainID_Bytes_fits.
  - apply VCommitment_Bytes_fits.
Qed.

Lemma RootRecordFromBytes_fields (r : RootRecord) :
  RootRecord_wf r ->
  RootRecordFromBytes (lazybytes_Bytes (fields r)) = Ok r.
Proof.
  intros (Hc & Hi & Hs & Hn).
  unfold RootRecordFromBytes, lazybytes.ParseArrayFromBytesReadOnly.
  rewrite lazybytes_roundtrip; [|simpl; unfold numberOfElementsInRootRecord; lia|apply fields_fit].
  cbn. rewrite ChainID_roundtrip. cbn. rewrite VCommitment_roundtrip. cbn.
  unfold PutUint64, PutUint32. rewrite !length_PutUint. cbn.
  change (PutUint 8) with PutUint64. change (PutUint 4) with PutUint32.
  rewrite !Uint_PutUint64, Uint_PutUint32 by assumption.
  destruct r; reflexivity.
Qed.

Lemma RootRecordFromBytes_rejects (data : bytes) (arr : list bytes)
    (e2 e3 e4 e5 : bytes) :
  lazybytes_Parse data numberOfElementsInRootRecord = Ok arr ->
  arr !! 2%nat = Some e2 -> arr !! 3%nat = Some e3 ->
  arr !! 4%nat = Some e4 -> arr !! 5%nat = Some e5 ->
  ~ (length e2 = 8%nat /\ length e3 = 8%nat /\ length e4 = 8%nat /\ length e5 = 4%nat) ->
  isErr (RootRecordFromBytes data) = true.
Proof.
  intros Hp H2 H3 H4 H5 Hlen.
  unfold RootRecordFromBytes, lazybytes.ParseArrayFromBytesReadOnly.
  rewrite Hp. cbn.
  destruct arr as [|e0 [|e1 arr']]; try discriminate.
  cbn.
  pose proof (ChainIDFromBytes_noPanic e0) as Hc.
  destruct (ChainIDFromBytes e0) as [c|?|msg]; cbn; [|reflexivity|exfalso; exact (Hc msg eq_refl)].
  pose proof (VectorCommitmentFromBytes_noPanic e1) as Hv.
  destruct (VectorCommitmentFromBytes e1) as [v|?|msg]; cbn; [|reflexivity|exfalso; exact (Hv msg eq_refl)].
  unfold lazybytes.At. cbn. cbn in H2, H3, H4, H5. rewrite H2. cbn.
  destruct (Nat.eqb_spec (length e2) 8); cbn; [|reflexivity].
  rewrite H3. cbn.
  destruct (Nat.eqb_spec (length e3) 8); cbn; [|reflexivity].
  rewrite H4. cbn.
  destruct (Nat.eqb_spec (length e4) 8); cbn; [|reflexivity].
  rewrite H5. cbn.
  destruct (Nat.eqb_spec (length e5) 4); cbn; [|reflexivity].
  exfalso. apply Hlen. auto.
Qed.

(** Whatever the decoder accepts has the four numeric fields with exactly
    the lengths 8, 8, 8 and 4, and these are the fields it reads. *)
Lemma RootRecordFromBytes_accepts (data : bytes) (r : RootRecord) :
  RootRecordFromBytes data = Ok r ->
  exists (arr : list bytes) (e2 e3 e4 e5 : bytes),
    lazybytes_Parse data numberOfElementsInRootRecord = Ok arr /\
    arr !! 2%nat = Some e2 /\ arr !! 3%nat = Some e3 /\
    arr !! 4%nat = Some e4 /\ arr !! 5%nat = Some e5 /\
    length e2 = 8%nat /\ length e3 = 8%nat /\
    length e4 = 8%nat /\ length e5 = 4%nat /\
    LedgerCoverage r = Uint e2 /\ SlotInflation r = Uint e3 /\
    Supply r = Uint e4 /\ NumTransactions r = Uint e5.
Proof.
  unfold RootRecordFromBytes, lazybytes.ParseArrayFromBytesReadOnly,
    lazybytes.At.
  destruct (lazybytes_Parse data numberOfElementsInRootRecord)
    as [arr| |] eqn:Hp; cbn; try discriminate.
  destruct (arr !! 0%nat) as [e0|]; cbn; try discriminate.
  destruct (ChainIDFromBytes e0) as [c| |]; cbn; try discriminate.
  destruct (arr !! 1%nat) as [e1|]; cbn; try discriminate.
  destruct (VectorCommitmentFromBytes e1) as [v| |]; cbn; try discriminate.
  destruct (arr !! 2%nat) as [e2|] eqn:H2; cbn; try discriminate.
  destruct (Nat.eqb_spec (length e2) 8) as [L2|_]; cbn; try discriminate.
  destruct (arr !! 3%nat) as [e3|] eqn:H3; cbn; try discriminate.
  destruct (Nat.eqb_spec (length e3) 8) as [L3|_]; cbn; try discriminate.
  destruct (arr !! 4%nat) as [e4|] eqn:H4; cbn; try discriminate.
  destruct (Nat.eqb_spec (length e4) 8) as [L4|_]; cbn; try discriminate.
  destruct (arr !! 5%nat) as [e5|] eqn:H5; cbn; try discriminate.
  destruct (Nat.eqb_spec (length e5) 4) as [L5|_]; cbn; try discriminate.
  intros [= <-]. exists arr, e2, e3, e4, e5. cbn.
  repeat split; assumption || reflexivity.
Qed.

(** U8, the round trip of a root record.  For every root record whose
    fields hold values of their Go types and whose ledger coverage is
    positive, [Bytes] returns the serialised array of the six fields in
    their fixed order (coverage, slot inflation and supply as 8 bytes
    big-endian, the number of transactions as 4 bytes big-endian), and
    [RootRecordFromBytes] reads that encoding back as the same record.  An
    input whose array holds the four numeric fields, but not with exactly
    the lengths 8, 8, 8 and 4, is answered with an error, and whatever the
    decoder accepts has them with exactly these lengths.  (An array that
    holds fewer than six fields is treated apart, below.) *)
Theorem RootRecord_roundtrip :
  (forall r : RootRecord,
     RootRecord_wf r -> 0 < LedgerCoverage r ->
     exists data : bytes,
       Bytes r = Ok data /\
       data = lazybytes_Bytes
                [ ChainID_Bytes (SequencerID r);
                  VCommitment_Bytes (Root r);
                  PutUint 8 (LedgerCoverage r);
                  PutUint 8 (SlotInflation r);
                  PutUint 8 (Supply r);
                  PutUint 4 (NumTransactions r) ] /\
       RootRecordFromBytes data = Ok r) /\
  (forall (data : bytes) (arr : list bytes) (e2 e3 e4 e5 : bytes),
     lazybytes_Parse data 6 = Ok arr ->
     arr !! 2%nat = Some e2 -> arr !! 3%nat = Some e3 ->
     arr !! 4%nat = Some e4 -> arr !! 5%nat = Some e5 ->
     ~ (length e2 = 8%nat /\ length e3 = 8%nat /\
        length e4 = 8%nat /\ length e5 = 4%nat) ->
     isErr (RootRecordFromBytes data) = true) /\
  (forall (data : bytes) (r : RootRecord),
     RootRecordFromBytes data = Ok r ->
     exists (arr : list bytes) (e2 e3 e4 e5 : bytes),
       lazybytes_Parse data 6 = Ok arr /\
       arr !! 2%nat = Some e2 /\ arr !! 3%nat = Some e3 /\
       arr !! 4%nat = Some e4 /\ arr !! 5%nat = Some e5 /\
       length e2 = 8%nat /\ length e3 = 8%nat /\
       length e4 = 8%nat /\ length e5 = 4%nat).
Proof.
  split; [|split].
  - intros r Hwf Hcov. exists (lazybytes_Bytes (fields r)).
    split; [apply Bytes_fields; assumption|].
    split; [reflexivity|].
    apply RootRecordFromBytes_fields; assumption.
  - apply RootRecordFromBytes_rejects.
  - intros data r Hok.
    destruct (RootRecordFromBytes_accepts data r Hok)
      as (arr & e2 & e3 & e4 & e5 & Hp & H2 & H3 & H4 & H5
          & L2 & L3 & L4 & L5 & _).
    exists arr, e2, e3, e4, e5. auto 10.
Qed.

(** C1, where the decoder departs from it.  [Bytes] asserts that the array
    it writes holds six elements; [RootRecordFromBytes] never looks at the
    number of elements it has parsed and indexes them with [arr.At(i)].
    The serialisation of the first [k < 6] fields of any root record (in
    particular of all but its 4-byte number of transactions) is a
    well-formed array, and on it the decoder does not return an error: it
    panics, the index being out of range. *)
Theorem RootRecordFromBytes_missing_field (r : RootRecord) (k : nat) :
  (k < 6)%nat ->
  lazybytes_Parse (lazybytes_Bytes (take k (fields r))) 6
  = Ok (take k (fields r)) /\
  RootRecordFromBytes (lazybytes_Bytes (take k (fields r)))
  = Panic "index out of range" /\
  isErr (RootRecordFromBytes (lazybytes_Bytes (take k (fields r)))) = false.
Proof.
  intros Hk.
  assert (Hp : lazybytes_Parse (lazybytes_Bytes (take k (fields r))) 6
               = Ok (take k (fields r))).
  { apply lazybytes_roundtrip.
    - rewrite length_take. cbn [fields length]. lia.
    - apply Forall_take, fields_fit. }
  assert (Hpanic : RootRecordFromBytes (lazybytes_Bytes (take k (fields r)))
                   = Panic "index out of range").
  { unfold RootRecordFromBytes, lazybytes.ParseArrayFromBytesReadOnly,
      numberOfElementsInRootRecord.
    rewrite Hp.
    destruct k as [|[|[|[|[|[|k]]]]]]; [| | | | | |lia];
      cbn; rewrite ?ChainID_roundtrip; cbn;
      rewrite ?VCommitment_roundtrip; cbn;
      rewrite ?length_PutUint; reflexivity. }
  split; [exact Hp|]. split; [exact Hpanic|].
  rewrite Hpanic. reflexivity.
Qed.

End WithSerialization.

(** The round trip at a sample record of the reference serialisation. *)
Lemma RootRecord_roundtrip_witness :
  exists data : bytes,
    Bytes (reference.sampleRecord 10 1000) = Ok data /\
    RootRecordFromBytes data = Ok (reference.sampleRecord 10 1000).
Proof.
  destruct (proj1 (RootRecord_roundtrip (S_ok := referenceProps.reference_ok))
              (reference.sampleRecord 10 1000)) as (data & Hb & _ & Hd).
  - unfold RootRecord_wf, is_uint64, is_uint32, uint64_mod, uint32_mod.
    simpl. lia.
  - simpl. lia.
  - exists data. split; assumption.
Defined.

(** The sample record of the reference serialisation without its number of
    transactions: five fields where six are read. *)
Lemma RootRecordFromBytes_missing_field_witness :
  RootRecordFromBytes
    (lazybytes_Bytes (take 5 (fields (reference.sampleRecord 10 1000))))
  = Panic "index out of range".
Proof.
  apply (RootRecordFromBytes_missing_field
           (S_ok := referenceProps.reference_ok)
           (reference.sampleRecord 10 1000) 5).
  lia.
Defined.

(** *** The coverage threshold *)

Section Threshold.
Context {S : Serialization}.

Lemma ValidInclusionThresholdFraction_iff (n d : Z) :
  ValidInclusionThresholdFraction n d = true <-> 0 < n < d /\ 2 <= d.
Proof.
  unfold ValidInclusionThresholdFraction.
  rewrite !andb_true_iff, !Z.ltb_lt, Z.leb_le. lia.
Qed.

(** Without the wrap-around of the inner product: [(supply/d)*n] never
    exceeds [supply]. *)
Lemma AbsoluteStrongFinalityCoverageThreshold_value (supply n d : Z) :
  is_uint64 supply -> 0 < n < d -> d <= int_max ->
  AbsoluteStrongFinalityCoverageThreshold supply n d
  = Ok ((2 * (supply / d * n)) mod 2 ^ 64).
Proof.
  unfold is_uint64, int_max, uint64_mod. intros Hs Hn Hd.
  unfold AbsoluteStrongFinalityCoverageThreshold, uint64_div, uint64_of_int,
    wrap_uint64, uint64_mod.
  assert (H63 : 2 ^ 63 < 2 ^ 64) by (apply Z.pow_lt_mono_r; lia).
  rewrite (Z.mod_small d), (Z.mod_small n) by lia.
  destruct (Z.eqb_spec d 0) as [E|_]; [lia|].
  cbn [mbind outcome_bind Go.bind mret outcome_ret]. f_equal.
  assert (Hq : 0 <= supply / d) by (apply Z.div_pos; lia).
  assert (Hqd : supply / d * d <= supply)
    by (rewrite Z.mul_comm; apply Z.mul_div_le; lia).
  assert (Hqn : supply / d * n <= supply / d * d) by nia.
  rewrite (Z.mod_small (supply / d * n)) by nia.
  rewrite Z.shiftl_mul_pow2 by lia.
  f_equal. lia.
Qed.

(** C2, as the code has it.  The validity predicate accepts exactly the
    pairs with [0 < n < d] and [d >= 2].  For a valid fraction a root is
    dominating if and only if its coverage exceeds
    [2 * (floor(supply / d) * n)], the doubling taken modulo [2^64]: the
    division comes first, so the threshold is in general below
    [2*supply*n/d].  The two agree when [d] divides the supply and the
    doubled value fits 64 bits. *)
Theorem IsCoverageAboveThreshold_spec (r : RootRecord) (n d : Z) :
  RootRecord_wf r -> is_int n -> is_int d ->
  (ValidInclusionThresholdFraction n d = true <-> 0 < n < d /\ 2 <= d) /\
  (0 < n < d -> 2 <= d ->
   exists dominating : bool,
     IsCoverageAboveThreshold r n d = Ok dominating /\
     (dominating = true <->
      LedgerCoverage r > (2 * (Supply r / d * n)) mod 2 ^ 64) /\
     ((d | Supply r) -> 2 * Supply r * n / d < 2 ^ 64 ->
      (dominating = true <-> LedgerCoverage r > 2 * Supply r * n / d))).
Proof.
  intros (Hc & _ & Hs & _) Hn Hd.
  split; [apply ValidInclusionThresholdFraction_iff|].
  intros Hnd Hd2.
  unfold IsCoverageAboveThreshold.
  rewrite (proj2 (ValidInclusionThresholdFraction_iff n d)) by auto.
  cbn.
  rewrite AbsoluteStrongFinalityCoverageThreshold_value
    by (auto; unfold is_int in Hd; lia).
  cbn [mbind outcome_bind Go.bind mret outcome_ret].
  eexists. split; [reflexivity|].
  split.
  - rewrite Z.ltb_lt. lia.
  - intros [k Hk] Hfit.
    assert (Hdiv : Supply r / d = k) by (rewrite Hk; apply Z.div_mul; lia).
    assert (Heq : 2 * Supply r * n / d = 2 * (Supply r / d * n)).
    { rewrite Hdiv, Hk.
      replace (2 * (k * d) * n) with (2 * (k * n) * d) by ring.
      rewrite Z.div_mul by lia. reflexivity. }
    rewrite Heq in *.
    unfold is_uint64 in Hs.
    assert (0 <= k) by nia.
    rewrite Z.mod_small by nia.
    rewrite Z.ltb_lt. lia.
Qed.

End Threshold.

(** An instance of C2 as amended: supply 1000, coverage 600, fraction 1/2. *)
Lemma IsCoverageAboveThreshold_spec_witness :
  exists dominating : bool,
    IsCoverageAboveThreshold (reference.sampleRecord 600 1000) 1 2 = Ok dominating /\
    (dominating = true <-> 600 > (2 * (1000 / 2 * 1)) mod 2 ^ 64).
Proof.
  destruct (proj2 (IsCoverageAboveThreshold_spec
                     (reference.sampleRecord 600 1000) 1 2
                     ltac:(unfold RootRecord_wf, is_uint64, is_uint32,
                             uint64_mod, uint32_mod; simpl; lia)
                     ltac:(unfold is_int, int_min, int_max; lia)
                     ltac:(unfold is_int, int_min, int_max; lia))
              ltac:(lia) ltac:(lia)) as (b & Hb & Hiff & _).
  exists b. split; [exact Hb | exact Hiff].
Defined.

(** C2 as stated fails: with supply 3, coverage 3 and the fraction 1/2 the
    code divides first, [(3/2)*1*2 = 2], and classifies the root as
    dominating, although [3 > 2*3*1/2 = 3] does not hold (with the quotient
    rounded down or taken exactly). *)
Lemma IsCoverageAboveThreshold_counterexample :
  IsCoverageAboveThreshold (reference.sampleRecord 3 3) 1 2 = Ok true /\
  ~ (LedgerCoverage (reference.sampleRecord 3 3)
     > 2 * Supply (reference.sampleRecord 3 3) * 1 / 2) /\
  ~ (LedgerCoverage (reference.sampleRecord 3 3) * 2
     > 2 * Supply (reference.sampleRecord 3 3) * 1).
Proof.
  split; [reflexivity|].
  split; vm_compute; intros H; discriminate H.
Qed.

(** *** The latest slot *)

(** C9.  When the value stored under the latest-slot key is empty (in
    particular when nothing was ever written there) [FetchLatestSlot]
    returns slot 0 and does not fail; for a non-empty value it returns the
    slot that [ledger.SlotFromBytes] decodes from it. *)
Theorem FetchLatestSlot_spec (PartitionOther : byte)
    (SlotFromBytes : bytes -> outcome Z) (store : KVReader) :
  (store !! [latestSlotDBPartition PartitionOther] = None ->
   FetchLatestSlot PartitionOther SlotFromBytes store = Ok 0) /\
  (Get store [latestSlotDBPartition PartitionOther] = [] ->
   FetchLatestSlot PartitionOther SlotFromBytes store = Ok 0) /\
  (forall slot : Z,
     Get store [latestSlotDBPartition PartitionOther] <> [] ->
     SlotFromBytes (Get store [latestSlotDBPartition PartitionOther]) = Ok slot ->
     FetchLatestSlot PartitionOther SlotFromBytes store = Ok slot).
Proof.
  unfold FetchLatestSlot.
  split; [|split].
  - intros Hnone. unfold Get. rewrite Hnone. reflexivity.
  - intros Hempty. rewrite Hempty. reflexivity.
  - intros slot Hne Hslot. rewrite Hslot.
    destruct (Get store [latestSlotDBPartition PartitionOther]);
      [contradiction|reflexivity].
Qed.

(** A store whose latest-slot entry holds the four bytes of slot 258, and
    the empty store. *)
Lemma FetchLatestSlot_spec_witness :
  FetchLatestSlot x02 (fun b => Ok (Uint b)) ∅ = Ok 0 /\
  FetchLatestSlot x02 (fun b => Ok (Uint b))
    {[ [x03] := PutUint32 258 ]} = Ok 258.
Proof.
  split.
  - apply (proj1 (FetchLatestSlot_spec x02 (fun b => Ok (Uint b)) ∅)).
    reflexivity.
  - apply (proj2 (proj2 (FetchLatestSlot_spec x02 (fun b => Ok (Uint b))
                           {[ [x03] := PutUint32 258 ]}))).
    + vm_compute. discriminate.
    + vm_compute. reflexivity.
Defined.

End multistateProps.
(** ** The inclusion score *)

Module apiProps.
Import api.

Section WithSerialization.
Context {S : Serialization}.

Lemma countIf_cons (f : RootInclusion -> bool) (x : RootInclusion)
    (l : list RootInclusion) :
  countIf f (x :: l) = (if f x then 1 else 0) + countIf f l.
Proof.
  unfold countIf. cbn [List.filter]. destruct (f x); cbn [length]; lia.
Qed.

Lemma countIf_bounds (f : RootInclusion -> bool) (l : list RootInclusion) :
  0 <= countIf f l <= Z.of_nat (length l).
Proof.
  induction l as [|x l IH]; [unfold countIf; simpl; lia|].
  rewrite countIf_cons. cbn [length]. destruct (f x); lia.
Qed.

Lemma countIf_ext (f g : RootInclusion -> bool) (l : list RootInclusion) :
  Forall (fun x => f x = g x) l -> countIf f l = countIf g l.
Proof.
  induction 1 as [|x l Hx _ IH]; [reflexivity|].
  rewrite !countIf_cons, Hx, IH. reflexivity.
Qed.

Lemma strongScoreOf_ext (f g : RootInclusion -> bool) (l : list RootInclusion) :
  Forall (fun x => f x = g x) l -> strongScoreOf f l = strongScoreOf g l.
Proof.
  intros Hfg. unfold strongScoreOf.
  rewrite (countIf_ext f g l Hfg).
  rewrite (countIf_ext (fun x => f x && Included x)
             (fun x => g x && Included x) l); [reflexivity|].
  eapply Forall_impl; [exact Hfg|]. cbn. intros x ->. reflexivity.
Qed.

(** With a valid fraction and a divisor that is not zero as a [uint64],
    [IsCoverageAboveThreshold] answers, and [dominating] is its answer. *)
Lemma IsCoverageAboveThreshold_dominating (n d : Z) (x : RootInclusion) :
  multistate.ValidInclusionThresholdFraction n d = true ->
  uint64_of_int d <> 0 ->
  multistate.IsCoverageAboveThreshold (RootRecord x) n d = Ok (dominating n d x).
Proof.
  intros Hv Hd. unfold dominating, multistate.IsCoverageAboveThreshold.
  rewrite Hv.
  unfold multistate.AbsoluteStrongFinalityCoverageThreshold, uint64_div.
  destruct (Z.eqb_spec (uint64_of_int d) 0) as [E|_]; [contradiction|].
  reflexivity.
Qed.

(** A denominator that is an [int] of a valid fraction is not zero as a
    [uint64]. *)
Lemma uint64_of_int_valid (n d : Z) :
  multistate.ValidInclusionThresholdFraction n d = true -> d <= int_max ->
  uint64_of_int d <> 0.
Proof.
  intros Hv Hd. apply multistateProps.ValidInclusionThresholdFraction_iff in Hv.
  unfold uint64_of_int, uint64_mod, int_max in *.
  assert (H63 : 2 ^ 63 < 2 ^ 64) by (apply Z.pow_lt_mono_r; lia).
  rewrite Z.mod_small by lia. lia.
Qed.

(** The classification of the loop written out: the division is done
    first and the doubling is taken modulo [2^64]. *)
Lemma dominating_divFirst (n d : Z) (x : RootInclusion) :
  multistate.ValidInclusionThresholdFraction n d = true -> d <= int_max ->
  is_uint64 (multistate.Supply (RootRecord x)) ->
  dominating n d x = divFirst_dominating n d x.
Proof.
  intros Hv Hd Hs. unfold dominating, divFirst_dominating,
    multistate.IsCoverageAboveThreshold.
  rewrite Hv.
  apply multistateProps.ValidInclusionThresholdFraction_iff in Hv.
  cbn [mbind outcome_bind Go.bind Assertf].
  rewrite multistateProps.AbsoluteStrongFinalityCoverageThreshold_value
    by (auto; lia).
  reflexivity.
Qed.

(** The threshold of the code is never above the threshold of the
    specification: a tip that is dominating in the words of the
    specification is dominating for the code. *)
Lemma spec_dominating_divFirst (n d : Z) (x : RootInclusion) :
  0 < n < d ->
  is_uint64 (multistate.Supply (RootRecord x)) ->
  spec_dominating n d x = true -> divFirst_dominating n d x = true.
Proof.
  unfold spec_dominating, divFirst_dominating, is_uint64.
  set (s := multistate.Supply (RootRecord x)).
  set (c := multistate.LedgerCoverage (RootRecord x)).
  intros Hn Hs. rewrite !Z.ltb_lt. intros Hc.
  assert (Hq : 0 <= s / d) by (apply Z.div_pos; lia).
  assert (Hqd : d * (s / d) <= s) by (apply Z.mul_div_le; lia).
  assert (Hle : 2 * (s / d * n) <= 2 * s * n / d)
    by (apply Z.div_le_lower_bound; nia).
  assert (Hm : (2 * (s / d * n)) mod 2 ^ 64 <= 2 * (s / d * n))
    by (apply Z.mod_le; lia || nia).
  lia.
Qed.

(** The two thresholds are the same when [d] divides the supply and the
    doubled value fits 64 bits. *)
Lemma divFirst_dominating_exact (n d : Z) (x : RootInclusion) :
  0 < n < d ->
  is_uint64 (multistate.Supply (RootRecord x)) ->
  (d | multistate.Supply (RootRecord x)) ->
  2 * multistate.Supply (RootRecord x) * n / d < 2 ^ 64 ->
  divFirst_dominating n d x = spec_dominating n d x.
Proof.
  unfold spec_dominating, divFirst_dominating, is_uint64.
  set (s := multistate.Supply (RootRecord x)).
  intros Hn Hs [k Hk] Hfit.
  assert (Hdiv : s / d = k) by (rewrite Hk; apply Z.div_mul; lia).
  assert (Heq : 2 * s * n / d = 2 * (s / d * n)).
  { rewrite Hdiv, Hk.
    replace (2 * (k * d) * n) with (2 * (k * n) * d) by ring.
    rewrite Z.div_mul by lia. reflexivity. }
  rewrite Heq in *.
  assert (0 <= k) by nia.
  rewrite Z.mod_small by nia. reflexivity.
Qed.

(** The loop adds to its three counters the number of tips that include
    the transaction, the number of tips it classifies as dominating and the
    number of those that include the transaction, as long as the counters
    stay within [int]. *)
Lemma loop_counts (n d : Z) (l : list RootInclusion) (a b c : Z) :
  multistate.ValidInclusionThresholdFraction n d = true ->
  uint64_of_int d <> 0 ->
  0 <= a -> 0 <= b -> 0 <= c ->
  a + Z.of_nat (length l) <= int_max ->
  b + Z.of_nat (length l) <= int_max ->
  c + Z.of_nat (length l) <= int_max ->
  loop n d (a, b, c) l
  = Ok (a + countIf Included l,
        b + countIf (dominating n d) l,
        c + countIf (fun x => dominating n d x && Included x) l).
Proof.
  intros Hv Hd0. revert a b c.
  induction l as [|x l IH]; intros a b c Ha Hb Hc Hal Hbl Hcl.
  - unfold countIf. simpl. rewrite !Z.add_0_r. reflexivity.
  - cbn [loop loopBody length] in *.
    rewrite (IsCoverageAboveThreshold_dominating n d x Hv Hd0).
    cbn [mbind outcome_bind Go.bind].
    rewrite !countIf_cons.
    assert (Hi : forall v, 0 <= v -> v + Z.of_nat (Datatypes.S (length l)) <= int_max ->
                           wrap_int (v + 1) = v + 1).
    { intros v H0 H1. apply wrap_int_small.
      unfold is_int, int_min, int_max in *. lia. }
    destruct (Included x), (dominating n d x); cbn;
      rewrite ?Hi by assumption;
      rewrite IH by lia;
      rewrite ?Z.add_assoc, ?Z.add_0_r; reflexivity.
Qed.

(** With a valid fraction whose denominator is zero as a [uint64] (no
    [int] is) the loop stops at the division of its first tip. *)
Lemma loop_zero_divisor (n d : Z) (st : counters) (x : RootInclusion)
    (l : list RootInclusion) :
  multistate.ValidInclusionThresholdFraction n d = true ->
  uint64_of_int d = 0 ->
  loop n d st (x :: l) = Panic "integer divide by zero".
Proof.
  intros Hv Hd0. destruct st as [[a b] c]. cbn [loop loopBody].
  unfold multistate.IsCoverageAboveThreshold. rewrite Hv.
  unfold multistate.AbsoluteStrongFinalityCoverageThreshold, uint64_div.
  rewrite Hd0. reflexivity.
Qed.

(** The scores of the code are the scores of the specification for the
    tips the loop classifies as dominating. *)
Lemma CalcTxInclusionScore_counts (inclusion : TxInclusion) (n d : Z) :
  multistate.ValidInclusionThresholdFraction n d = true ->
  uint64_of_int d <> 0 ->
  100 * Z.of_nat (length (Inclusion inclusion)) <= int_max ->
  exists score : TxInclusionScore,
    CalcTxInclusionScore inclusion n d = Ok score /\
    WeakScore score = spec_weak (Inclusion inclusion) /\
    StrongScore score = strongScoreOf (dominating n d) (Inclusion inclusion).
Proof.
  intros Hv Hd0 Hlen.
  unfold CalcTxInclusionScore, spec_weak, strongScoreOf.
  destruct (Inclusion inclusion) as [|x l] eqn:El.
  { eexists. split; [reflexivity|]. split; reflexivity. }
  set (xs := x :: l) in *.
  assert (Hpos : 0 < Z.of_nat (length xs)) by (subst xs; cbn [length]; lia).
  destruct (Nat.eqb_spec (length xs) 0) as [E0|_]; [lia|].
  unfold int_max in Hlen.
  rewrite loop_counts by (auto; unfold int_max; lia).
  cbn [mbind outcome_bind Go.bind mret outcome_ret].
  rewrite !Z.add_0_l.
  pose proof (countIf_bounds Included xs) as Hi.
  pose proof (countIf_bounds (dominating n d) xs) as Hd.
  pose proof (countIf_bounds (fun x => dominating n d x && Included x) xs) as Hdi.
  eexists. split; [reflexivity|]. cbn [WeakScore StrongScore].
  split.
  - destruct (decide (xs = [])) as [E|_]; [subst xs; discriminate E|].
    rewrite wrap_int_small by (unfold is_int, int_min, int_max; lia).
    apply Z.quot_div_nonneg; lia.
  - destruct (decide (countIf (dominating n d) xs = 0)) as [E|E].
    + rewrite E. reflexivity.
    + destruct (Z.ltb_spec 0 (countIf (dominating n d) xs)); [|lia].
      rewrite wrap_int_small by (unfold is_int, int_min, int_max; lia).
      apply Z.quot_div_nonneg; lia.
Qed.

(** C3, as the code has it.  For a valid threshold fraction and tips whose
    root records hold values of their Go types, the weak score is the number
    of tips that include the transaction times 100 divided by the number of
    tips.  The strong score is the number of dominating tips that include it
    times 100 divided by the number of dominating tips, 0 when no tip is
    dominating, where a tip is dominating when its coverage exceeds
    [2 * (floor(supply / d) * n)], the doubling taken modulo [2^64]: the
    division comes first.  This is the strong score of the specification,
    which counts the tips with coverage above [2*supply*n/d], when [d]
    divides every supply and the doubled values fit 64 bits.  Both scores
    are 0 for the empty inclusion vector (whatever the fraction); for four
    tips with coverage above [2*supply*1/2] of which the first two include
    the transaction both scores are 50 at the fraction 1/2. *)
Theorem CalcTxInclusionScore_spec :
  (forall (inclusion : TxInclusion) (n d : Z),
     multistate.ValidInclusionThresholdFraction n d = true ->
     is_int d ->
     Forall (fun x => multistate.RootRecord_wf (RootRecord x))
       (Inclusion inclusion) ->
     100 * Z.of_nat (length (Inclusion inclusion)) <= int_max ->
     exists score : TxInclusionScore,
       CalcTxInclusionScore inclusion n d = Ok score /\
       WeakScore score = spec_weak (Inclusion inclusion) /\
       StrongScore score = divFirst_strong n d (Inclusion inclusion) /\
       (Forall (fun x => (d | multistate.Supply (RootRecord x)) /\
                         2 * multistate.Supply (RootRecord x) * n / d < 2 ^ 64)
          (Inclusion inclusion) ->
        StrongScore score = spec_strong n d (Inclusion inclusion))) /\
  (forall (inclusion : TxInclusion) (n d : Z),
     Inclusion inclusion = [] ->
     exists score : TxInclusionScore,
       CalcTxInclusionScore inclusion n d = Ok score /\
       WeakScore score = 0 /\ StrongScore score = 0) /\
  (forall (latest earliest : Z) (r1 r2 r3 r4 : multistate.RootRecord),
     Forall (fun r => multistate.RootRecord_wf r /\
                      multistate.LedgerCoverage r
                      > 2 * multistate.Supply r * 1 / 2)
       [r1; r2; r3; r4] ->
     exists score : TxInclusionScore,
       CalcTxInclusionScore
         (mkTxInclusion latest earliest
            [ mkRootInclusion r1 true; mkRootInclusion r2 true;
              mkRootInclusion r3 false; mkRootInclusion r4 false ]) 1 2
       = Ok score /\
       WeakScore score = 50 /\ StrongScore score = 50).
Proof.
  split; [|split].
  - intros inclusion n d Hv Hd Hwf Hlen.
    assert (Hdmax : d <= int_max) by (unfold is_int in Hd; lia).
    destruct (CalcTxInclusionScore_counts inclusion n d Hv
                (uint64_of_int_valid n d Hv Hdmax) Hlen)
      as (score & Hs & Hw & Hst).
    assert (Hdiv : Forall (fun x => dominating n d x = divFirst_dominating n d x)
                     (Inclusion inclusion)).
    { eapply Forall_impl; [exact Hwf|]. cbn. intros x (_ & _ & Hsx & _).
      apply dominating_divFirst; assumption. }
    assert (Hst' : StrongScore score = divFirst_strong n d (Inclusion inclusion)).
    { rewrite Hst. unfold divFirst_strong. apply strongScoreOf_ext, Hdiv. }
    exists score. split; [exact Hs|]. split; [exact Hw|].
    split; [exact Hst'|].
    intros Hexact. rewrite Hst'. unfold divFirst_strong, spec_strong.
    apply strongScoreOf_ext.
    apply multistateProps.ValidInclusionThresholdFraction_iff in Hv.
    rewrite Forall_forall in *. intros x Hx.
    destruct (Hwf x Hx) as (_ & _ & Hsx & _).
    destruct (Hexact x Hx) as (Hdv & Hfit).
    apply divFirst_dominating_exact; (assumption || lia).
  - intros inclusion n d Hnil. unfold CalcTxInclusionScore. rewrite Hnil.
    eexists. split; [reflexivity|]. split; reflexivity.
  - intros latest earliest r1 r2 r3 r4 Hdom.
    assert (Hv : multistate.ValidInclusionThresholdFraction 1 2 = true)
      by reflexivity.
    assert (Hd2 : 2 <= int_max) by (unfold int_max; lia).
    destruct (CalcTxInclusionScore_counts (mkTxInclusion latest earliest
            [ mkRootInclusion r1 true; mkRootInclusion r2 true;
              mkRootInclusion r3 false; mkRootInclusion r4 false ]) 1 2 Hv
                (uint64_of_int_valid 1 2 Hv Hd2))
      as (score & Hs & Hw & Hst); [cbn; unfold int_max; lia|].
    exists score. split; [exact Hs|].
    assert (Hd : forall r,
                 multistate.RootRecord_wf r /\
                 multistate.LedgerCoverage r > 2 * multistate.Supply r * 1 / 2 ->
                 forall i, dominating 1 2 (mkRootInclusion r i) = true).
    { intros r ((_ & _ & Hsr & _) & Hr) i.
      rewrite dominating_divFirst by assumption.
      apply spec_dominating_divFirst; [lia|exact Hsr|].
      unfold spec_dominating. cbn [RootRecord]. apply Z.ltb_lt. lia. }
    inversion Hdom as [|? ? H1 Hdom1]; subst.
    inversion Hdom1 as [|? ? H2 Hdom2]; subst.
    inversion Hdom2 as [|? ? H3 Hdom3]; subst.
    inversion Hdom3 as [|? ? H4 _]; subst.
    rewrite Hw, Hst. cbn [Inclusion].
    unfold spec_weak, strongScoreOf, countIf. cbn [List.filter Included].
    rewrite !Hd by assumption. cbn. split; reflexivity.
Qed.

End WithSerialization.

(** Four tips of the reference serialisation with supply 1000 and coverage
    1500, the first two including the transaction. *)
Lemma CalcTxInclusionScore_spec_witness :
  exists score : TxInclusionScore,
    CalcTxInclusionScore
      (mkTxInclusion 9 7
         [ mkRootInclusion (reference.sampleRecord 1500 1000) true;
           mkRootInclusion (reference.sampleRecord 1500 1000) true;
           mkRootInclusion (reference.sampleRecord 1500 1000) false;
           mkRootInclusion (reference.sampleRecord 1500 1000) false ]) 1 2
    = Ok score /\
    WeakScore score = 50 /\ StrongScore score = 50.
Proof.
  apply (proj2 (proj2 CalcTxInclusionScore_spec)).
  repeat constructor;
    unfold is_uint64, is_uint32, uint64_mod, uint32_mod; simpl; lia.
Defined.

(** C3 as stated fails: one tip with supply 3 and coverage 3 that includes
    the transaction, at the fraction 1/2.  The code divides first,
    [(3/2)*1*2 = 2 < 3], counts the tip as dominating and gives the strong
    score 100; in the words of the specification the tip is not dominating,
    since [3 > 2*3*1/2 = 3] does not hold (with the quotient rounded down or
    taken exactly), and the strong score is 0. *)
Lemma CalcTxInclusionScore_counterexample :
  CalcTxInclusionScore
    (mkTxInclusion 9 7 [mkRootInclusion (reference.sampleRecord 3 3) true]) 1 2
  = Ok (mkTxInclusionScore 1 2 9 7 100 100) /\
  spec_strong 1 2 [mkRootInclusion (reference.sampleRecord 3 3) true] = 0 /\
  ~ (multistate.LedgerCoverage (reference.sampleRecord 3 3) * 2
     > 2 * multistate.Supply (reference.sampleRecord 3 3) * 1).
Proof.
  split; [reflexivity|].
  split; [reflexivity|].
  vm_compute. intros H. discriminate H.
Qed.

End apiProps.
(** ** Logical time *)

Module ledgerProps.
Import ledger.

Section WithIdentity.
Variable MaxTickValueInSlot : Z.
Hypothesis MaxTick_nonneg : 0 <= MaxTickValueInSlot.

Abbreviation TPS := (TicksPerSlot MaxTickValueInSlot).
Abbreviation wf := (Time_wf MaxTickValueInSlot).
Abbreviation tk := (ticks MaxTickValueInSlot).

Lemma TicksPerSlot_pos : 0 < TPS.
Proof using MaxTick_nonneg. unfold TicksPerSlot. lia. Qed.

Lemma ticks_nonneg (t : Time) : wf t -> 0 <= tk t.
Proof using MaxTick_nonneg.
  pose proof TicksPerSlot_pos. unfold Time_wf, ticks. nia.
Qed.

(** On well-formed times the order by slot and tick is the order of the
    ticks since genesis. *)
Lemma Before_ticks (a b : Time) :
  wf a -> wf b -> Before a b = (tk a <? tk b).
Proof using MaxTick_nonneg.
  pose proof TicksPerSlot_pos as Hp.
  unfold Time_wf, Before, ticks. intros Ha Hb.
  destruct (Z.ltb_spec (Slot a) (Slot b));
    destruct (Z.eqb_spec (Slot a) (Slot b));
    destruct (Z.ltb_spec (Tick a) (Tick b));
    destruct (Z.ltb_spec (Slot a * TPS + Tick a) (Slot b * TPS + Tick b));
    cbn; try reflexivity; nia.
Qed.

Lemma AddTicks_wf (t : Time) (n : Z) :
  0 <= tk t + n -> wf (AddTicks MaxTickValueInSlot t n).
Proof using MaxTick_nonneg.
  pose proof TicksPerSlot_pos as Hp. intros H.
  unfold Time_wf, AddTicks. cbn [Slot Tick]. split.
  - apply Z.div_pos; lia.
  - apply Z.mod_pos_bound. lia.
Qed.

Lemma ticks_AddTicks (t : Time) (n : Z) :
  tk (AddTicks MaxTickValueInSlot t n) = tk t + n.
Proof using MaxTick_nonneg.
  pose proof TicksPerSlot_pos as Hp.
  unfold AddTicks. unfold ticks at 1. cbn [Slot Tick].
  pose proof (Z.div_mod (tk t + n) TPS ltac:(lia)). lia.
Qed.

Lemma MaxTime_wf (a b : Time) : wf a -> wf b -> wf (MaxTime a b).
Proof. unfold MaxTime. destruct (Before a b); auto. Qed.

Lemma ticks_MaxTime (a b : Time) :
  wf a -> wf b -> tk (MaxTime a b) = Z.max (tk a) (tk b).
Proof using MaxTick_nonneg.
  intros Ha Hb. unfold MaxTime. rewrite Before_ticks by assumption.
  destruct (Z.ltb_spec (tk a) (tk b)); lia.
Qed.

Lemma NextSlotBoundary_wf (t : Time) : wf t -> wf (NextSlotBoundary t).
Proof using MaxTick_nonneg.
  pose proof TicksPerSlot_pos as Hp.
  unfold NextSlotBoundary, Time_wf. intros Ht.
  destruct (Tick t =? 0); [exact Ht|]. cbn [Slot Tick]. lia.
Qed.

(** The next slot boundary is the first multiple of the slot length that
    is not before the time. *)
Lemma ticks_NextSlotBoundary (t : Time) :
  wf t ->
  tk (NextSlotBoundary t)
  = if Tick t =? 0 then tk t else (Slot t + 1) * TPS.
Proof.
  unfold NextSlotBoundary, ticks. intros _.
  destruct (Tick t =? 0); cbn [Slot Tick]; lia.
Qed.

(** A well-formed time is determined by its ticks since genesis. *)
Lemma ticks_inj (a b : Time) : wf a -> wf b -> tk a = tk b -> a = b.
Proof using MaxTick_nonneg.
  pose proof TicksPerSlot_pos as Hp.
  destruct a as [sa ta], b as [sb tb]. unfold Time_wf, ticks. cbn [Slot Tick].
  intros Ha Hb E.
  assert (sa = sb) by nia. subst sb. f_equal. lia.
Qed.

(** Strictly inside a slot the distance to the next boundary is what is
    left of the slot. *)
Lemma TicksToNextSlotBoundary_inside (t : Time) (s : Z) :
  wf t -> s * TPS < tk t < (s + 1) * TPS ->
  TicksToNextSlotBoundary MaxTickValueInSlot t = (s + 1) * TPS - tk t.
Proof using MaxTick_nonneg.
  pose proof TicksPerSlot_pos as Hp.
  unfold Time_wf, TicksToNextSlotBoundary, ticks. intros Ht Hs.
  assert (Slot t = s) by nia. subst s.
  destruct (Z.eqb_spec (Tick t) 0); lia.
Qed.

End WithIdentity.
End ledgerProps.

(** ** The target time of the sequencer *)

Module sequencerProps.
Import ledger sequencer ledgerProps.

Section WithIdentity.
Variable MaxTickValueInSlot : Z.

Abbreviation tk := (ticks MaxTickValueInSlot).
Abbreviation wf := (Time_wf MaxTickValueInSlot).

Lemma targetTicks_lower (prev now B pace : Z) :
  0 <= pace ->
  prev + pace <= targetTicks prev now B pace /\
  now < targetTicks prev now B pace.
Proof.
  intros Hp. unfold targetTicks.
  destruct (Z.leb_spec B (Z.max (prev + pace) (now + 1)));
    [lia|].
  destruct (Z.leb_spec B (Z.max (Z.max (prev + pace) (now + 1)) (now + 2 * pace / 3)));
    [lia|].
  destruct (Z.leb_spec (B - Z.max (Z.max (prev + pace) (now + 1)) (now + 2 * pace / 3)) pace);
    lia.
Qed.

Lemma minimumTicksAhead (pace : Z) :
  0 <= pace < 2 ^ 62 -> Z.quot (wrap_int (pace * 2)) 3 = 2 * pace / 3.
Proof.
  intros Hp.
  assert (H63 : 2 ^ 63 = 2 * 2 ^ 62) by reflexivity.
  rewrite wrap_int_small
    by (unfold is_int, int_min, int_max; lia).
  rewrite Z.quot_div_nonneg by lia. f_equal. lia.
Qed.

(** C4, as the code has it.  With [t0 = max(prev + pace, now + 1)] and [B]
    the next slot boundary of now: the target is [t0] when [t0] is not before
    [B]; otherwise, with [t1 = max(t0, now + (2*pace)/3)], it is [t1] when
    [t1] is not before [B], it is [B] when [t1] is within [pace] ticks of
    [B], and it is [t1] in the remaining case.  In every case the target is
    at least [pace] ticks after the previous own milestone and after now. *)
Theorem getNextTargetTime_spec (prevMilestoneTs nowis : Time) (pace : Z) :
  0 <= MaxTickValueInSlot ->
  wf prevMilestoneTs -> wf nowis ->
  tk prevMilestoneTs <= tk nowis ->
  0 <= pace < 2 ^ 62 ->
  exists target : Time,
    getNextTargetTime MaxTickValueInSlot prevMilestoneTs nowis pace
    = Ok (target, prevMilestoneTs) /\
    wf target /\
    tk target
    = targetTicks (tk prevMilestoneTs) (tk nowis)
        (tk (NextSlotBoundary nowis)) pace /\
    tk prevMilestoneTs + pace <= tk target /\
    tk nowis < tk target /\
    DiffTicks MaxTickValueInSlot target prevMilestoneTs >= pace.
Proof.
  intros HM Hprev Hnow Hle Hpace.
  pose proof (TicksPerSlot_pos _ HM) as HT.
  pose proof (ticks_nonneg _ HM _ Hprev) as Hp0.
  pose proof (ticks_nonneg _ HM _ Hnow) as Hn0.
  assert (Hthirds : 0 <= 2 * pace / 3) by (apply Z.div_pos; lia).
  set (a1 := AddTicks MaxTickValueInSlot prevMilestoneTs pace).
  set (a2 := AddTicks MaxTickValueInSlot nowis 1).
  set (a3 := AddTicks MaxTickValueInSlot nowis (2 * pace / 3)).
  assert (Wa1 : wf a1) by (apply AddTicks_wf; lia).
  assert (Wa2 : wf a2) by (apply AddTicks_wf; lia).
  assert (Wa3 : wf a3) by (apply AddTicks_wf; lia).
  assert (Ta1 : tk a1 = tk prevMilestoneTs + pace) by (apply ticks_AddTicks; lia).
  assert (Ta2 : tk a2 = tk nowis + 1) by (apply ticks_AddTicks; lia).
  assert (Ta3 : tk a3 = tk nowis + 2 * pace / 3) by (apply ticks_AddTicks; lia).
  set (T0 := MaxTime a1 a2).
  set (T1 := MaxTime T0 a3).
  set (Bd := NextSlotBoundary nowis).
  assert (W0 : wf T0) by (apply MaxTime_wf; assumption).
  assert (W1 : wf T1) by (apply MaxTime_wf; assumption).
  assert (WB : wf Bd) by (apply NextSlotBoundary_wf; assumption).
  assert (E0 : tk T0 = Z.max (tk prevMilestoneTs + pace) (tk nowis + 1))
    by (unfold T0; rewrite ticks_MaxTime by assumption; lia).
  assert (E1 : tk T1 = Z.max (tk T0) (tk nowis + 2 * pace / 3))
    by (unfold T1; rewrite ticks_MaxTime by assumption; lia).
  pose proof (targetTicks_lower (tk prevMilestoneTs) (tk nowis) (tk Bd) pace
                ltac:(lia)) as [Hlow1 Hlow2].
  assert (Hcode :
    exists target : Time,
      getNextTargetTime MaxTickValueInSlot prevMilestoneTs nowis pace
      = Ok (target, prevMilestoneTs) /\
      wf target /\
      tk target = targetTicks (tk prevMilestoneTs) (tk nowis) (tk Bd) pace).
  { unfold getNextTargetTime.
    rewrite (Before_ticks _ HM nowis prevMilestoneTs) by assumption.
    destruct (Z.ltb_spec (tk nowis) (tk prevMilestoneTs)) as [Hlt|_]; [lia|].
    cbn [negb Assertf mbind outcome_bind Go.bind].
    rewrite minimumTicksAhead by assumption.
    fold a1 a2 a3. fold T0. fold T1. fold Bd.
    rewrite (Before_ticks _ HM T0 Bd) by assumption.
    rewrite (Before_ticks _ HM T1 Bd) by assumption.
    unfold targetTicks. rewrite <- E0, <- E1.
    destruct (Z.ltb_spec (tk T0) (tk Bd)) as [H0|H0]; cbn [negb].
    2:{ exists T0. destruct (Z.leb_spec (tk Bd) (tk T0)); [auto|lia]. }
    destruct (Z.leb_spec (tk Bd) (tk T0)) as [H0'|_]; [lia|].
    destruct (Z.ltb_spec (tk T1) (tk Bd)) as [H1|H1]; cbn [negb].
    2:{ exists T1. destruct (Z.leb_spec (tk Bd) (tk T1)); [auto|lia]. }
    destruct (Z.leb_spec (tk Bd) (tk T1)) as [H1'|_]; [lia|].
    (* now is strictly inside its slot, and so is T1 *)
    assert (HB : tk Bd = (Slot nowis + 1) * TicksPerSlot MaxTickValueInSlot
                 /\ Slot nowis * TicksPerSlot MaxTickValueInSlot < tk nowis).
    { unfold Bd in *. rewrite ticks_NextSlotBoundary in * by assumption.
      destruct (Z.eqb_spec (Tick nowis) 0) as [Ez|Ez]; [lia|].
      split; [reflexivity|]. unfold ticks, Time_wf in *. lia. }
    destruct HB as [HB Hin].
    rewrite (TicksToNextSlotBoundary_inside _ HM T1 (Slot nowis)) by (auto; lia).
    rewrite <- HB.
    destruct (Z.leb_spec (tk Bd - tk T1) pace).
    - exists Bd. auto.
    - exists T1. auto. }
  destruct Hcode as (target & Hrun & Wt & Et).
  exists target.
  split; [exact Hrun|]. split; [exact Wt|]. split; [exact Et|].
  unfold DiffTicks. lia.
Qed.

End WithIdentity.

(** A slot of 100 ticks, the previous milestone at tick 10, now at tick 50
    and a pace of 30: the target is the slot boundary, tick 100. *)
Lemma getNextTargetTime_spec_witness :
  exists target : Time,
    getNextTargetTime 99 (mkTime 0 10) (mkTime 0 50) 30
    = Ok (target, mkTime 0 10) /\
    ticks 99 target = 100 /\
    ticks 99 (mkTime 0 10) + 30 <= ticks 99 target.
Proof.
  destruct (getNextTargetTime_spec 99 (mkTime 0 10) (mkTime 0 50) 30)
    as (target & Hrun & _ & Et & Hpace & _).
  - lia.
  - unfold Time_wf, TicksPerSlot. simpl. lia.
  - unfold Time_wf, TicksPerSlot. simpl. lia.
  - vm_compute. discriminate.
  - lia.
  - exists target. split; [exact Hrun|]. split; [exact Et | exact Hpace].
Defined.

(** C4 as stated fails at that input: [max(prev + pace, now + 1)] is tick 51,
    which is 49 ticks before the boundary, more than [pace/1.5 = 20], so the
    stated rule keeps tick 51; the code first raises the target to
    [now + (2*pace)/3 = 70], finds it within [pace = 30] ticks of the
    boundary and returns the boundary, tick 100. *)
Lemma getNextTargetTime_counterexample :
  getNextTargetTime 99 (mkTime 0 10) (mkTime 0 50) 30
  = Ok (mkTime 1 0, mkTime 0 10) /\
  spec_target 99 (mkTime 0 10) (mkTime 0 50) 30 = mkTime 0 51 /\
  mkTime 1 0 <> spec_target 99 (mkTime 0 10) (mkTime 0 50) 30.
Proof.
  split; [vm_compute; reflexivity|].
  split; [vm_compute; reflexivity|].
  vm_compute. discriminate.
Qed.

End sequencerProps.
(** ** Status and reference count of a wrapped transaction *)

Module vertexProps.
Import vertex.

Section WithFlag.
Variable FlagVertexDefined : Flags.

Abbreviation status := (GetTxStatusNoLock FlagVertexDefined).

(** Setting a flag raises it: [(fl | f) & f == f]. *)
Lemma FlagsUp_SetFlagsUp (fl f : Flags) : FlagsUp (SetFlagsUp fl f) f = true.
Proof.
  unfold FlagsUp, SetFlagsUp. apply Z.eqb_eq.
  apply Z.bits_inj'. intros i _.
  rewrite Z.land_spec, Z.lor_spec.
  destruct (Z.testbit fl i), (Z.testbit f i); reflexivity.
Qed.

(** A raised flag stays raised when flags are set. *)
Lemma FlagsUp_SetFlagsUp_keep (fl f : Flags) :
  FlagsUp fl f = true -> SetFlagsUp fl f = fl.
Proof.
  unfold FlagsUp, SetFlagsUp. intros H. apply Z.eqb_eq in H.
  apply Z.bits_inj'. intros i _. rewrite Z.lor_spec.
  apply (f_equal (fun z => Z.testbit z i)) in H. rewrite Z.land_spec in H.
  destruct (Z.testbit fl i), (Z.testbit f i); try reflexivity; discriminate H.
Qed.

Lemma status_cases (vid : WrappedTx) (st : Status) :
  status vid = Ok st ->
  match st with
  | Undefined => FlagsUp (flags vid) FlagVertexDefined = false /\ err vid = None
  | Good => FlagsUp (flags vid) FlagVertexDefined = true /\ err vid = None
  | Bad => FlagsUp (flags vid) FlagVertexDefined = true /\ err vid <> None
  end.
Proof.
  unfold GetTxStatusNoLock.
  destruct (FlagsUp (flags vid) FlagVertexDefined); cbn [negb].
  - case_bool_decide as He; intros [= <-]; split; auto.
  - case_bool_decide as He; cbn; [|discriminate]. intros [= <-]. auto.
Qed.

Lemma status_defined_after (vid : WrappedTx) (e : option string) (fl : Flags) :
  FlagsUp fl FlagVertexDefined = true ->
  status (set_err e (set_flags fl vid))
  = Ok (match e with Some _ => Bad | None => Good end).
Proof.
  intros Hup. unfold GetTxStatusNoLock. cbn [flags err set_err set_flags].
  rewrite Hup. cbn [negb].
  destruct e; case_bool_decide; try reflexivity; congruence.
Qed.

Lemma SetTxStatusGood_ok (vid vid' : WrappedTx) :
  SetTxStatusGood FlagVertexDefined vid = Ok vid' ->
  status vid = Ok Undefined /\ status vid' = Ok Good.
Proof.
  unfold SetTxStatusGood.
  destruct (status vid) as [st| |] eqn:Est; cbn; try discriminate.
  case_bool_decide as Hst; cbn; [|discriminate]. subst st.
  intros [= <-]. split; [reflexivity|].
  apply status_cases in Est. destruct Est as [_ Herr].
  pose proof (status_defined_after vid (err vid)
                (SetFlagsUp (flags vid) FlagVertexDefined)
                (FlagsUp_SetFlagsUp _ _)) as H.
  rewrite Herr in H at 2.
  destruct vid; cbn in *. exact H.
Qed.

Lemma SetTxStatusBadNoLock_ok (reason : option string) (vid vid' : WrappedTx) :
  SetTxStatusBadNoLock FlagVertexDefined reason vid = Ok vid' ->
  status vid = Ok Undefined /\
  status vid' = Ok (match reason with Some _ => Bad | None => Good end).
Proof.
  unfold SetTxStatusBadNoLock.
  destruct (status vid) as [st| |] eqn:Est; cbn; try discriminate.
  case_bool_decide as Hst; cbn; [|discriminate]. subst st.
  intros [= <-]. split; [reflexivity|].
  apply status_defined_after, FlagsUp_SetFlagsUp.
Qed.

(** No set-status call changes a status that is defined. *)
Lemma applyOp_defined (op : SetStatusOp) (vid vid' : WrappedTx) (st : Status) :
  st <> Undefined -> status vid = Ok st ->
  applyOp FlagVertexDefined op vid = Ok vid' -> vid' = vid.
Proof.
  intros Hdef Hst.
  destruct op as [|reason|reason|]; cbn [applyOp]; intros Hop.
  - apply SetTxStatusGood_ok in Hop. destruct Hop as [Hu _]. congruence.
  - apply SetTxStatusBadNoLock_ok in Hop. destruct Hop as [Hu _]. congruence.
  - apply SetTxStatusBadNoLock_ok in Hop. destruct Hop as [Hu _]. congruence.
  - unfold SetTxStatusGoodNoLock in Hop.
    case_bool_decide as He; cbn in Hop; [|discriminate].
    injection Hop as <-.
    apply status_cases in Hst.
    destruct st; [congruence| |destruct Hst; contradiction].
    destruct Hst as [Hup _].
    rewrite (FlagsUp_SetFlagsUp_keep _ _ Hup). destruct vid; reflexivity.
Qed.

Lemma applyOps_defined (ops : list SetStatusOp) (vid vid' : WrappedTx)
    (st : Status) :
  st <> Undefined -> status vid = Ok st ->
  applyOps FlagVertexDefined ops vid = Ok vid' -> vid' = vid.
Proof.
  intros Hdef Hst. induction ops as [|op ops IH]; cbn [applyOps].
  - intros [= <-]. reflexivity.
  - destruct (applyOp FlagVertexDefined op vid) as [v| |] eqn:Eop;
      cbn; try discriminate.
    apply (applyOp_defined op vid v st Hdef Hst) in Eop. subst v. exact IH.
Qed.

(** C5 (U2, terminal status).  [SetTxStatusGood] and [SetTxStatusBadNoLock]
    (and [SetTxStatusBad], the same under the lock) succeed only on a vertex
    whose status is [Undefined], which they leave [Good], respectively [Bad];
    on an undefined vertex they do succeed.  Once the status is [Good] or
    [Bad] each of them fails its assertion, and no program of set-status
    calls changes the vertex: the flag, the error and hence the status stay
    as they are. *)
Theorem status_set_at_most_once (vid : WrappedTx) :
  (forall vid' : WrappedTx,
     SetTxStatusGood FlagVertexDefined vid = Ok vid' ->
     status vid = Ok Undefined /\ status vid' = Ok Good) /\
  (forall (reason : string) (vid' : WrappedTx),
     SetTxStatusBadNoLock FlagVertexDefined (Some reason) vid = Ok vid' ->
     status vid = Ok Undefined /\ status vid' = Ok Bad) /\
  (status vid = Ok Undefined ->
   isOk (SetTxStatusGood FlagVertexDefined vid) = true /\
   forall reason : option string,
     isOk (SetTxStatusBadNoLock FlagVertexDefined reason vid) = true) /\
  (forall st : Status,
     st <> Undefined -> status vid = Ok st ->
     isOk (SetTxStatusGood FlagVertexDefined vid) = false /\
     (forall reason : option string,
        isOk (SetTxStatusBadNoLock FlagVertexDefined reason vid) = false /\
        isOk (SetTxStatusBad FlagVertexDefined reason vid) = false) /\
     (forall (ops : list SetStatusOp) (vid' : WrappedTx),
        applyOps FlagVertexDefined ops vid = Ok vid' ->
        vid' = vid /\ status vid' = Ok st)).
Proof.
  split; [apply SetTxStatusGood_ok|].
  split; [intros reason vid'; apply (SetTxStatusBadNoLock_ok (Some reason))|].
  split.
  - intros Hu. unfold SetTxStatusGood, SetTxStatusBadNoLock. rewrite Hu.
    cbn. split; [reflexivity|]. intros reason. reflexivity.
  - intros st Hdef Hst.
    unfold SetTxStatusBad, SetTxStatusGood, SetTxStatusBadNoLock. rewrite Hst.
    cbn. case_bool_decide; [contradiction|]. cbn.
    split; [reflexivity|]. split; [intros reason; split; reflexivity|].
    intros ops vid' Hops.
    apply (applyOps_defined ops vid vid' st Hdef Hst) in Hops. subst vid'.
    split; [reflexivity | exact Hst].
Qed.

End WithFlag.

(** A fresh vertex with flag bit 1: marked good once, a later attempt to
    mark it bad fails and the status stays [Good]. *)
Lemma status_set_at_most_once_witness :
  exists vid' : WrappedTx,
    SetTxStatusGood 1 (_newVID (_virtualTx None) []) = Ok vid' /\
    GetTxStatusNoLock 1 vid' = Ok Good /\
    isOk (SetTxStatusBadNoLock 1 (Some "conflict"%string) vid') = false.
Proof.
  destruct (SetTxStatusGood 1 (_newVID (_virtualTx None) [])) as [vid'| |] eqn:E;
    try discriminate E.
  exists vid'.
  destruct (proj1 (status_set_at_most_once 1 (_newVID (_virtualTx None) []))
              vid' E) as [_ Hgood].
  split; [reflexivity|]. split; [exact Hgood|].
  destruct (proj2 (proj2 (proj2 (status_set_at_most_once 1 vid'))) Good
              ltac:(discriminate) Hgood) as (_ & Hbad & _).
  exact (proj1 (Hbad (Some "conflict"%string))).
Defined.

(** *** References *)

Lemma applyRefOp_zero (op : RefOp) (vid vid' : WrappedTx) :
  references vid = 0 -> applyRefOp op vid = Ok vid' -> references vid' = 0.
Proof.
  intros Hz. destruct op; cbn [applyRefOp].
  - unfold Reference. rewrite Hz. cbn. intros [= <-]. exact Hz.
  - unfold UnReference. rewrite Hz. cbn. discriminate.
  - unfold MarkDeleted. destruct (wrapper vid); cbn; intros [= <-];
      exact Hz.
Qed.

(** C7, as the code has it.  On a vertex with a positive reference count
    [UnReference] decrements the count by one and changes nothing else: the
    shape stays what it was, also when the count reaches 0, and it is
    [MarkDeleted], a separate operation, that converts a vertex or a virtual
    transaction to the Deleted shape (leaving the count alone).  A count of
    0 is what [IsDeleted] reports and it is terminal: [Reference] answers
    false and leaves it at 0, [UnReference] fails its assertion, and no
    program of these operations raises it again. *)
Theorem UnReference_spec (vid : WrappedTx) :
  (0 < references vid ->
   UnReference vid = Ok (set_references (references vid - 1) vid) /\
   wrapper (set_references (references vid - 1) vid) = wrapper vid /\
   (IsDeleted (set_references (references vid - 1) vid) = true
    <-> references vid = 1)) /\
  (wrapper vid <> _deletedTx ->
   MarkDeleted vid = Ok (set_wrapper _deletedTx vid) /\
   references (set_wrapper _deletedTx vid) = references vid) /\
  (references vid = 0 ->
   IsDeleted vid = true /\
   Reference vid = Ok (false, vid) /\
   isOk (UnReference vid) = false /\
   forall (ops : list RefOp) (vid' : WrappedTx),
     applyRefOps ops vid = Ok vid' -> references vid' = 0).
Proof.
  split; [|split].
  - intros Hpos. unfold UnReference.
    destruct (Z.ltb_spec 0 (references vid)); [|lia]. cbn.
    split; [reflexivity|]. split; [reflexivity|].
    unfold IsDeleted. cbn [references set_references]. rewrite Z.eqb_eq. lia.
  - intros Hshape. unfold MarkDeleted.
    destruct (wrapper vid); try contradiction; split; reflexivity.
  - intros Hz. unfold IsDeleted, Reference, UnReference. rewrite Hz. cbn.
    repeat split.
    intros ops. revert vid Hz. induction ops as [|op ops IH]; intros vid Hz vid'.
    + cbn. intros [= <-]. exact Hz.
    + cbn [applyRefOps].
      destruct (applyRefOp op vid) as [v| |] eqn:Eop; cbn; try discriminate.
      apply IH. exact (applyRefOp_zero op vid v Hz Eop).
Qed.

(** A fresh virtual transaction holds one reference; releasing it leaves
    the count at 0 and the shape virtual. *)
Lemma UnReference_spec_witness :
  UnReference (_newVID (_virtualTx None) [])
  = Ok (set_references 0 (_newVID (_virtualTx None) [])).
Proof.
  apply (proj1 (proj1 (UnReference_spec (_newVID (_virtualTx None) []))
                  ltac:(simpl; lia))).
Defined.

(** C7 as stated fails: releasing the only reference of a fresh virtual
    transaction brings the count to 0, yet the shape is still virtual, not
    Deleted. *)
Lemma UnReference_counterexample :
  exists vid' : WrappedTx,
    UnReference (_newVID (_virtualTx None) []) = Ok vid' /\
    references vid' = 0 /\
    wrapper vid' = _virtualTx None /\
    wrapper vid' <> _deletedTx.
Proof.
  eexists. split; [reflexivity|]. cbn. repeat split. discriminate.
Qed.

End vertexProps.
(** ** The sequencer-tips pool *)

Module tippoolProps.
Import tippool.

(** Two times neither of which is before the other are equal. *)
Lemma Before_trichotomy (a b : ledger.Time) :
  ledger.Before a b = false -> ledger.Before b a = false -> a = b.
Proof.
  destruct a as [sa ta], b as [sb tb]. unfold ledger.Before. cbn.
  intros H1 H2.
  destruct (Z.ltb_spec sa sb), (Z.ltb_spec sb sa),
    (Z.eqb_spec sa sb), (Z.eqb_spec sb sa),
    (Z.ltb_spec ta tb), (Z.ltb_spec tb ta);
    cbn in *; try discriminate; try lia.
  f_equal; lia.
Qed.

Lemma Before_irrefl (a : ledger.Time) : ledger.Before a a = false.
Proof.
  unfold ledger.Before. rewrite !Z.ltb_irrefl, andb_false_r. reflexivity.
Qed.

Lemma Before_asym (a b : ledger.Time) :
  ledger.Before a b = true -> ledger.Before b a = false.
Proof.
  destruct a as [sa ta], b as [sb tb]. unfold ledger.Before. cbn.
  destruct (Z.ltb_spec sa sb), (Z.ltb_spec sb sa),
    (Z.eqb_spec sa sb), (Z.eqb_spec sb sa),
    (Z.ltb_spec ta tb), (Z.ltb_spec tb ta);
    cbn; try discriminate; try reflexivity; lia.
Qed.

Section WithTxID.
Variable Timestamp : bytes -> ledger.Time.
Variable IsBranchTransaction : bytes -> bool.
Variable IsSequencerMilestone : bytes -> bool.

Abbreviation replaces := (spec_replaces Timestamp).
Abbreviation consume := (Consume Timestamp IsBranchTransaction IsSequencerMilestone).

(** [oldReplaceWithNew] computes the replacement rule of the specification. *)
Lemma oldReplaceWithNew_spec (h : heap) (old new : addr)
    (vold vnew : vertex.WrappedTx) :
  old <> new ->
  h !! old = Some vold -> h !! new = Some vnew ->
  IsSequencerMilestone (vertex.ID vold) = true ->
  IsSequencerMilestone (vertex.ID vnew) = true ->
  oldReplaceWithNew Timestamp IsSequencerMilestone h old new
  = Ok (replaces vold vnew).
Proof.
  intros Hne Hold Hnew Hso Hsn.
  unfold oldReplaceWithNew, spec_replaces, IsPreferredMilestoneAgainstTheOther,
    deref.
  rewrite Hold, Hnew. rewrite (bool_decide_true (old <> new)) by assumption. cbn.
  set (tsOld := Timestamp (vertex.ID vold)).
  set (tsNew := Timestamp (vertex.ID vnew)).
  destruct (ledger.Before tsOld tsNew) eqn:Hb; [reflexivity|].
  unfold ledger.After.
  destruct (ledger.Before tsNew tsOld) eqn:Ha; cbn.
  - f_equal. rewrite bool_decide_false; [reflexivity|].
    intros E. rewrite E, Before_irrefl in Ha. discriminate.
  - pose proof (Before_trichotomy _ _ Hb Ha) as E.
    rewrite (bool_decide_true (tsNew = tsOld)) by (symmetry; exact E).
    rewrite (bool_decide_true (tsOld = tsNew)) by exact E.
    cbn. rewrite Hsn, Hso. cbn.
    case_bool_decide as Hs; [congruence|]. cbn.
    unfold vertex.IsPreferredBase, vertex.LedgerCoverageSum.
    fold tsOld tsNew.
    rewrite (bool_decide_true (tsNew = tsOld)) by (symmetry; exact E).
    destruct (vertex.coverage vold <? vertex.coverage vnew);
      destruct (vertex.coverage vnew =? vertex.coverage vold); reflexivity.
Qed.

Lemma Reference_cases (vid : vertex.WrappedTx) :
  vertex.references vid < MaxUint16 ->
  vertex.Reference vid
  = if vertex.references vid =? 0 then Ok (false, vid)
    else Ok (true, vertex.set_references (vertex.references vid + 1) vid).
Proof.
  intros Hlt. unfold vertex.Reference.
  destruct (vertex.references vid =? 0); [reflexivity|].
  destruct (Z.ltb_spec (vertex.references vid) MaxUint16); [reflexivity|lia].
Qed.

(** C6, as the code has it.  The incoming milestone is stored only if it can
    be referenced, that is if its reference count is not 0.  With that
    proviso: when no milestone is stored for its chain id it is stored;
    otherwise it replaces the stored tip exactly when it is another vertex
    and has a strictly newer timestamp, or the same timestamp and the higher
    ledger coverage, or the same timestamp and coverage and the larger
    transaction id byte-wise.  An incoming milestone with an older timestamp
    never replaces the stored tip, and the tips of other chains are left
    alone. *)
Theorem Consume_spec (h : heap) (latestMilestones : SequencerTips)
    (inp : addr) (vnew : vertex.WrappedTx) (seqID branch : bytes) :
  h !! inp = Some vnew ->
  vertex.SequencerIDIfAvailable vnew = Some seqID ->
  vertex.BaselineBranch IsBranchTransaction vnew = Some branch ->
  vertex.references vnew < MaxUint16 ->
  (latestMilestones !! seqID = None ->
   exists (h' : heap) (tips' : SequencerTips),
     consume inp (h, latestMilestones) = Ok (h', tips') /\
     tips' !! seqID
     = (if vertex.references vnew =? 0 then None
        else Some (mkMilestoneData inp branch)) /\
     forall other : bytes, other <> seqID ->
       tips' !! other = latestMilestones !! other) /\
  (forall (old : milestoneData) (vold : vertex.WrappedTx),
     latestMilestones !! seqID = Some old ->
     h !! WrappedTx old = Some vold ->
     0 < vertex.references vold ->
     IsSequencerMilestone (vertex.ID vold) = true ->
     IsSequencerMilestone (vertex.ID vnew) = true ->
     exists (h' : heap) (tips' : SequencerTips),
       consume inp (h, latestMilestones) = Ok (h', tips') /\
       tips' !! seqID
       = Some (if negb (bool_decide (WrappedTx old = inp))
                  && replaces vold vnew
                  && negb (vertex.references vnew =? 0)
               then mkMilestoneData inp branch
               else old) /\
       (ledger.Before (Timestamp (vertex.ID vnew)) (Timestamp (vertex.ID vold))
        = true -> tips' !! seqID = Some old) /\
       forall other : bytes, other <> seqID ->
         tips' !! other = latestMilestones !! other).
Proof.
  intros Hinp Hseq Hbranch Hmax.
  pose proof (Reference_cases vnew Hmax) as Href.
  assert (Hmd : forall n,
    newMilestoneData IsBranchTransaction inp (vertex.set_references n vnew)
    = Ok (mkMilestoneData inp branch)).
  { intros n. unfold newMilestoneData.
    replace (vertex.BaselineBranch IsBranchTransaction
               (vertex.set_references n vnew))
      with (vertex.BaselineBranch IsBranchTransaction vnew)
      by reflexivity.
    rewrite Hbranch. reflexivity. }
  split.
  - intros Hnone. unfold Consume, deref. rewrite Hinp. cbn.
    rewrite Hseq, Hnone, Href.
    destruct (vertex.references vnew =? 0); cbn.
    + eexists _, _. split; [reflexivity|]. split; [exact Hnone|]. reflexivity.
    + rewrite Hmd. cbn. eexists _, _. split; [reflexivity|].
      split; [apply lookup_insert_eq|].
      intros other Hother. apply lookup_insert_ne. congruence.
  - intros old vold Hold Hvold Hrefs Hso Hsn.
    unfold Consume, deref. rewrite Hinp. cbn. rewrite Hseq, Hold.
    case_bool_decide as Hsame; cbn [negb andb].
    { eexists _, _. split; [reflexivity|]. split; [exact Hold|].
      split; [intros _; exact Hold | reflexivity]. }
    rewrite (oldReplaceWithNew_spec h (WrappedTx old) inp vold vnew)
      by assumption.
    cbn.
    assert (Holder :
      ledger.Before (Timestamp (vertex.ID vnew)) (Timestamp (vertex.ID vold))
      = true -> replaces vold vnew = false).
    { intros Hb. unfold spec_replaces. rewrite (Before_asym _ _ Hb).
      rewrite bool_decide_false; [reflexivity|].
      intros E. rewrite E, Before_irrefl in Hb. discriminate. }
    destruct (replaces vold vnew) eqn:Hrep; cbn [andb].
    2:{ eexists _, _. split; [reflexivity|]. split; [exact Hold|].
        split; [intros _; exact Hold | reflexivity]. }
    rewrite Href.
    destruct (vertex.references vnew =? 0); cbn.
    { eexists _, _. split; [reflexivity|]. split; [exact Hold|].
      split; [intros _; exact Hold | reflexivity]. }
    rewrite lookup_insert_ne by congruence. rewrite Hvold. cbn.
    unfold vertex.UnReference.
    destruct (Z.ltb_spec 0 (vertex.references vold)); [|lia]. cbn.
    rewrite Hmd. cbn.
    eexists _, _. split; [reflexivity|].
    split; [apply lookup_insert_eq|].
    split; [intros Hb; discriminate (Holder Hb)|].
    intros other Hother. apply lookup_insert_ne. congruence.
Qed.

End WithTxID.

(** The pool holds a milestone of slot 3, tick 10; the incoming milestone
    of the same chain at tick 20 replaces it. *)
Lemma Consume_spec_witness :
  exists (h' : heap) (tips' : SequencerTips),
    Consume sampleTimestamp (fun _ => false) (fun _ => true) 2%positive
      (sampleHeap, samplePool)
    = Ok (h', tips') /\
    tips' !! repeat x07 32
    = Some (mkMilestoneData 2%positive (sampleTxID 3 0 x00)).
Proof.
  pose proof (Consume_spec sampleTimestamp (fun _ => false) (fun _ => true)
                sampleHeap samplePool 2%positive
                (sampleMilestone 3 20 x00 400 1)
                (repeat x07 32) (sampleTxID 3 0 x00)) as H.
  destruct H as [_ H];
    [vm_compute; reflexivity | reflexivity | reflexivity
    | vm_compute; reflexivity |].
  destruct (H (mkMilestoneData 1%positive (sampleTxID 3 0 x00))
              (sampleMilestone 3 10 x00 500 2))
    as (h' & tips' & Hrun & Htip & _);
    [vm_compute; reflexivity | vm_compute; reflexivity
    | vm_compute; reflexivity | reflexivity | reflexivity |].
  exists h', tips'. split; [exact Hrun|]. exact Htip.
Defined.

(** C6 as stated fails: no milestone is stored for the chain, but the
    incoming vertex has reference count 0 (it is being torn down), so
    [Reference] answers false and the pool stays empty. *)
Lemma Consume_counterexample :
  vertex.SequencerIDIfAvailable (sampleMilestone 3 10 x00 500 0)
  = Some (repeat x07 32) /\
  Consume sampleTimestamp (fun _ => false) (fun _ => true) 1%positive
    (sampleDeletedHeap, ∅)
  = Ok (sampleDeletedHeap, ∅) /\
  GetLatestMilestone (∅ : SequencerTips) (repeat x07 32) = None.
Proof.
  split; [reflexivity|]. split; [vm_compute; reflexivity | reflexivity].
Qed.

End tippoolProps.
(** ** The poker *)

Module pokerProps.
Import poker.

Lemma AppendUnique_NoDup (slice : list addr) (el : addr) :
  NoDup slice -> NoDup (AppendUnique slice el).
Proof.
  intros Hnd. unfold AppendUnique. case_bool_decide as Hin; [exact Hnd|].
  apply NoDup_app. split; [exact Hnd|]. split; [|apply NoDup_singleton].
  intros x Hx Hx'. apply list_elem_of_singleton in Hx'. subst x. contradiction.
Qed.

Lemma AppendUnique_elem (slice : list addr) (el x : addr) :
  x ∈ AppendUnique slice el <-> x ∈ slice \/ x = el.
Proof.
  unfold AppendUnique. case_bool_decide as Hin.
  - split; [auto|]. intros [H| ->]; assumption.
  - rewrite elem_of_app, list_elem_of_singleton. reflexivity.
Qed.

(** The list [addCmd] stores for [wanted]. *)
Lemma addCmd_lookup (now : Z) (wanted who : addr) (m : Poker) :
  exists w : list addr,
    addCmd now wanted who m !! wanted = Some (mkWaitingList w (now + ttlWanted)) /\
    (forall x, x ∈ w <-> x ∈ waiting (lookupList m wanted) \/ x = who) /\
    (NoDup (waiting (lookupList m wanted)) -> NoDup w).
Proof.
  unfold addCmd. eexists. split; [apply lookup_insert_eq|].
  destruct (waiting (lookupList m wanted)) as [|y l] eqn:E; cbn [length Nat.eqb].
  - split; [|intros _; apply NoDup_singleton].
    intros x. rewrite list_elem_of_singleton. split; [auto|].
    intros [H| ->]; [inversion H | reflexivity].
  - split; [apply AppendUnique_elem | apply AppendUnique_NoDup].
Qed.

Lemma lookupList_Some (m : Poker) (wanted : addr) (lst : waitingList) :
  m !! wanted = Some lst -> lookupList m wanted = lst.
Proof. unfold lookupList. intros ->. reflexivity. Qed.

Lemma noDuplicates_lookupList (m : Poker) (wanted : addr) :
  noDuplicates m -> NoDup (waiting (lookupList m wanted)).
Proof.
  intros Hm. unfold lookupList.
  destruct (m !! wanted) as [lst|] eqn:E; cbn; [exact (Hm _ _ E)|constructor].
Qed.

Lemma addCmd_noDuplicates (now : Z) (wanted who : addr) (m : Poker) :
  noDuplicates m -> noDuplicates (addCmd now wanted who m).
Proof.
  intros Hm k lst Hk.
  destruct (decide (k = wanted)) as [->|Hne].
  - destruct (addCmd_lookup now wanted who m) as (w & Hw & _ & Hnd).
    rewrite Hw in Hk. injection Hk as <-.
    apply Hnd, noDuplicates_lookupList, Hm.
  - unfold addCmd in Hk. rewrite lookup_insert_ne in Hk by congruence.
    exact (Hm _ _ Hk).
Qed.

(** The waiters named by the pokes of one [PokeAll] are the waiting list. *)
Lemma pokes_waiters (wanted : addr) (l : list addr) :
  ((fun vid => (vid, wanted)) <$> l).*1 = l.
Proof. induction l as [|x l IH]; cbn; [reflexivity | f_equal; exact IH]. Qed.

Lemma pokeAllCmd_noDuplicates (wanted : addr) (m : Poker) :
  noDuplicates m ->
  noDuplicates (pokeAllCmd wanted m).2 /\ NoDup (pokeAllCmd wanted m).1.*1.
Proof.
  intros Hm. unfold pokeAllCmd.
  destruct (0 <? length (waiting (lookupList m wanted)))%nat; cbn [fst snd].
  - split.
    + intros k lst Hk. apply lookup_delete_Some in Hk as [_ Hk].
      exact (Hm _ _ Hk).
    + rewrite pokes_waiters. apply noDuplicates_lookupList, Hm.
  - split; [exact Hm | constructor].
Qed.

Lemma periodicCleanup_noDuplicates (now : Z) (m : Poker) :
  noDuplicates m -> noDuplicates (periodicCleanup now m).
Proof.
  intros Hm k lst Hk. unfold periodicCleanup in Hk.
  apply map_lookup_filter_Some in Hk as [Hk _]. exact (Hm _ _ Hk).
Qed.

(** The commands the callers push never fail an assertion. *)
Lemma consume_toCmd (now : Z) (ev : Event) (m : Poker) :
  consume now (toCmd ev) m
  = Ok (match ev with
        | Wait wanted who => ([], addCmd now wanted who m)
        | PokeAll wanted => pokeAllCmd wanted m
        | PeriodicSweep => ([], periodicCleanup now m)
        end).
Proof. destruct ev; reflexivity. Qed.

Lemma consume_noDuplicates (now : Z) (ev : Event) (m : Poker) :
  noDuplicates m ->
  exists (pokes : list Poke) (m' : Poker),
    consume now (toCmd ev) m = Ok (pokes, m') /\
    noDuplicates m' /\ NoDup pokes.*1.
Proof.
  intros Hm. rewrite consume_toCmd. destruct ev as [wanted who|wanted|].
  - eexists _, _. split; [reflexivity|].
    split; [apply addCmd_noDuplicates, Hm | constructor].
  - destruct (pokeAllCmd_noDuplicates wanted m Hm) as [H1 H2].
    destruct (pokeAllCmd wanted m) as [pokes m'].
    eexists _, _. split; [reflexivity|]. split; assumption.
  - eexists _, _. split; [reflexivity|].
    split; [apply periodicCleanup_noDuplicates, Hm | constructor].
Qed.

Lemma run_noDuplicates (evs : list (Z * Event)) (m : Poker) :
  noDuplicates m ->
  exists (pokes : list (list Poke)) (m' : Poker),
    run (toQueue evs) m = Ok (pokes, m') /\
    noDuplicates m' /\
    Forall (fun ps : list Poke => NoDup ps.*1) pokes.
Proof.
  revert m. induction evs as [|[now ev] evs IH]; intros m Hm.
  - exists [], m. split; [reflexivity|]. split; [exact Hm|constructor].
  - cbn [toQueue map run fst snd].
    destruct (consume_noDuplicates now ev m Hm) as (ps & m1 & Hc & Hm1 & Hps).
    rewrite Hc. cbn.
    destruct (IH m1 Hm1) as (pokes & m' & Hr & Hm' & Hall).
    unfold toQueue in Hr. rewrite Hr. cbn.
    eexists _, _. split; [reflexivity|]. split; [exact Hm'|].
    constructor; assumption.
Qed.

(** C10.  Started on a map whose waiting lists have no duplicates (the
    empty map of [Start] is one), the consumer processes every sequence of
    commands without failing and leaves no duplicate in any waiting list;
    the pokes made while processing one command name every waiter at most
    once; and registering a waiter again for the same wanted vertex leaves
    the list as it was after the first registration, with that waiter in it
    exactly once. *)
Theorem waitingList_noDuplicates (m : Poker) (evs : list (Z * Event)) :
  noDuplicates m ->
  (exists (pokes : list (list Poke)) (m' : Poker),
     run (toQueue evs) m = Ok (pokes, m') /\
     (forall (wanted : addr) (lst : waitingList),
        m' !! wanted = Some lst -> NoDup (waiting lst)) /\
     Forall (fun ps : list Poke => NoDup ps.*1) pokes) /\
  (forall (now1 now2 : Z) (wanted who : addr),
     let once := addCmd now1 wanted who m in
     let twice := addCmd now2 wanted who once in
     waiting (lookupList twice wanted) = waiting (lookupList once wanted) /\
     NoDup (waiting (lookupList twice wanted)) /\
     who ∈ waiting (lookupList twice wanted)).
Proof.
  intros Hm. split; [apply run_noDuplicates, Hm|].
  intros now1 now2 wanted who once twice.
  destruct (addCmd_lookup now1 wanted who m) as (w & Hw & Hin & Hnd).
  assert (Hwho : who ∈ w) by (apply Hin; auto).
  assert (Hw' : NoDup w) by (apply Hnd, noDuplicates_lookupList, Hm).
  assert (Htw : waiting (lookupList twice wanted) = w).
  { unfold twice, addCmd at 1. unfold lookupList at 1.
    rewrite lookup_insert_eq. cbn.
    fold once. rewrite (lookupList_Some once wanted _ Hw). cbn.
    destruct w as [|y l]; [inversion Hwho|]. cbn.
    unfold AppendUnique. rewrite bool_decide_true by exact Hwho. reflexivity. }
  rewrite Htw, (lookupList_Some once wanted _ Hw). cbn. auto.
Qed.

(** Waiter 5 registers twice for vertex 9, waiter 6 once; the poke of 9
    reaches 5 and 6 once each. *)
Lemma waitingList_noDuplicates_witness :
  run (toQueue [(0, Wait 9 5); (1, Wait 9 6); (2, Wait 9 5); (3, PokeAll 9)]) ∅
  = Ok ([[]; []; []; [(5%positive, 9%positive); (6%positive, 9%positive)]], ∅).
Proof.
  destruct (proj1 (waitingList_noDuplicates ∅
              [(0, Wait 9 5); (1, Wait 9 6); (2, Wait 9 5); (3, PokeAll 9)]
              ltac:(intros ? ? H; rewrite lookup_empty in H; discriminate H)))
    as (pokes & m' & Hrun & _).
  rewrite Hrun. vm_compute in Hrun. exact (eq_sym Hrun).
Defined.

(** *** A [Wait] before a [PokeAll] *)

Section Ordering.
Variables (wanted w : addr).

Abbreviation registered := (poker.registered wanted w).

Lemma registered_step (now ku : Z) (ev : Event) (m : Poker) :
  registered ku m ->
  keeps wanted ku [(now, ev)] = true ->
  exists (pokes : list Poke) (m' : Poker),
    consume now (toCmd ev) m = Ok (pokes, m') /\
    registered
      (match ev with
       | Wait wanted' _ =>
           if bool_decide (wanted' = wanted) then now + ttlWanted else ku
       | _ => ku
       end) m'.
Proof.
  intros (lst & Hl & Hw & Hku) Hkeep. rewrite consume_toCmd.
  destruct ev as [wanted' who|wanted'|]; cbn [keeps] in Hkeep.
  - eexists _, _. split; [reflexivity|].
    case_bool_decide as Heq.
    + subst wanted'.
      destruct (addCmd_lookup now wanted who m) as (l' & Hl' & Hin & _).
      exists (mkWaitingList l' (now + ttlWanted)).
      split; [exact Hl'|]. split; [|reflexivity].
      cbn. apply Hin. left. rewrite (lookupList_Some _ _ _ Hl). exact Hw.
    + exists lst. unfold addCmd. rewrite lookup_insert_ne by congruence. auto.
  - rewrite andb_true_r in Hkeep. apply negb_true_iff in Hkeep.
    apply bool_decide_eq_false in Hkeep.
    unfold pokeAllCmd.
    destruct (0 <? length (waiting (lookupList m wanted')))%nat.
    + eexists _, _. split; [reflexivity|].
      exists lst. rewrite lookup_delete_ne by congruence. auto.
    + eexists _, _. split; [reflexivity|]. exists lst. auto.
  - rewrite andb_true_r in Hkeep. apply Z.leb_le in Hkeep.
    eexists _, _. split; [reflexivity|].
    exists lst. split; [|auto].
    unfold periodicCleanup. apply map_lookup_filter_Some.
    split; [exact Hl|]. cbn. lia.
Qed.

Lemma registered_run (mid : list (Z * Event)) (ku tp : Z) (m : Poker) :
  registered ku m ->
  keeps wanted ku mid = true ->
  exists (before : list (list Poke)) (ps : list Poke) (m' : Poker),
    run (toQueue (mid ++ [(tp, PokeAll wanted)])) m = Ok (before ++ [ps], m') /\
    length before = length mid /\
    (w, wanted) ∈ ps.
Proof.
  revert ku m. induction mid as [|[now ev] mid IH]; intros ku m Hreg Hkeep.
  - destruct Hreg as (lst & Hl & Hw & _).
    exists [], ((fun vid => (vid, wanted)) <$> waiting lst), (delete wanted m).
    split; [|split; [reflexivity|]].
    + cbn. unfold pokeAllCmd. rewrite (lookupList_Some _ _ _ Hl).
      destruct (waiting lst) as [|y l]; [inversion Hw|]. reflexivity.
    + apply list_elem_of_fmap. exists w. auto.
  - assert (Hhead : keeps wanted ku [(now, ev)] = true /\
                    keeps wanted
                      (match ev with
                       | Wait wanted' _ =>
                           if bool_decide (wanted' = wanted)
                           then now + ttlWanted else ku
                       | _ => ku
                       end) mid = true).
    { destruct ev as [wanted' who|wanted'|]; cbn [keeps] in *.
      - auto.
      - apply andb_true_iff in Hkeep as [H1 H2]. rewrite H1. auto.
      - apply andb_true_iff in Hkeep as [H1 H2]. rewrite H1. auto. }
    destruct Hhead as [Hhead Hrest].
    destruct (registered_step now ku ev m Hreg Hhead) as (p1 & m1 & Hc & Hreg1).
    destruct (IH _ m1 Hreg1 Hrest) as (before & ps & m' & Hr & Hlen & Hin).
    exists (p1 :: before), ps, m'.
    split; [|split; [cbn; congruence | exact Hin]].
    cbn [app toQueue map run fst snd]. rewrite Hc. cbn.
    unfold toQueue in Hr. rewrite Hr. reflexivity.
Qed.

(** C8, as the code has it.  A [Wait(wanted, w)] followed, possibly after
    other commands, by a [PokeAll(wanted)]: if in between no other
    [PokeAll(wanted)] is processed and every periodic sweep runs no later
    than the [keepUntil] of the list of [wanted] (one minute after the
    latest [Wait] for [wanted]), then the commands are processed without
    failure and, while that [PokeAll] is processed, the callback of [w] is
    invoked with [wanted]. *)
Theorem Wait_before_PokeAll (m : Poker) (tw tp : Z) (mid : list (Z * Event)) :
  keeps wanted (tw + ttlWanted) mid = true ->
  exists (before : list (list Poke)) (ps : list Poke) (m' : Poker),
    run (toQueue ((tw, Wait wanted w) :: mid ++ [(tp, PokeAll wanted)])) m
    = Ok (before ++ [ps], m') /\
    length before = Datatypes.S (length mid) /\
    (w, wanted) ∈ ps.
Proof.
  intros Hkeep.
  assert (Hreg : registered (tw + ttlWanted) (addCmd tw wanted w m)).
  { destruct (addCmd_lookup tw wanted w m) as (l & Hl & Hin & _).
    eexists. split; [exact Hl|]. split; [|reflexivity].
    cbn. apply Hin. auto. }
  destruct (registered_run mid _ tp _ Hreg Hkeep)
    as (before & ps & m' & Hr & Hlen & Hin).
  exists ([] :: before), ps, m'.
  split; [|split; [cbn; congruence | exact Hin]].
  cbn [toQueue map run fst snd]. rewrite consume_toCmd.
  cbn [mbind outcome_bind Go.bind].
  unfold toQueue in Hr. rewrite Hr. reflexivity.
Qed.

End Ordering.

(** Waiter 5 waits for vertex 9 at time 0; a sweep half a minute later
    keeps the list, and the poke of 9 reaches 5. *)
Lemma Wait_before_PokeAll_witness :
  exists (before : list (list Poke)) (ps : list Poke) (m' : Poker),
    run (toQueue [(0, Wait 9 5); (30000000000, PeriodicSweep);
                  (30000000001, PokeAll 9)]) ∅
    = Ok (before ++ [ps], m') /\
    (5%positive, 9%positive) ∈ ps.
Proof.
  destruct (Wait_before_PokeAll 9%positive 5%positive ∅ 0 30000000001
              [(30000000000, PeriodicSweep)] ltac:(vm_compute; reflexivity))
    as (before & ps & m' & Hrun & _ & Hin).
  exists before, ps, m'. split; [exact Hrun | exact Hin].
Defined.

(** C8 as stated fails: waiter 5 registers for vertex 9 at time 0, the
    sweep one minute and a nanosecond later drops the expired list, and the
    [PokeAll] of 9 that follows pokes nobody. *)
Lemma Wait_before_PokeAll_counterexample :
  run (toQueue [(0, Wait 9 5); (60000000001, PeriodicSweep);
                (60000000002, PokeAll 9)]) ∅
  = Ok ([[]; []; []], ∅).
Proof. vm_compute. reflexivity. Qed.

End pokerProps.

(** * Further properties *)

(** ** Shared facts *)

Lemma Ok_inj {A : Type} (a b : A) : Ok a = Ok b -> a = b.
Proof. congruence. Qed.

Lemma Z_of_byte_inj (x y : byte) : Z_of_byte x = Z_of_byte y -> x = y.
Proof.
  intros H. rewrite <- (byte_of_Z_of_byte x), <- (byte_of_Z_of_byte y), H.
  reflexivity.
Qed.

(** [bytes.Compare] is a three-way comparison of a total order. *)
Lemma Compare_values (a b : bytes) :
  Compare a b = -1 \/ Compare a b = 0 \/ Compare a b = 1.
Proof.
  revert b. induction a as [|x a IH]; intros [|y b]; cbn; auto.
  destruct (Z_of_byte x <? Z_of_byte y); auto.
  destruct (Z_of_byte y <? Z_of_byte x); auto.
Qed.

Lemma Compare_eq (a b : bytes) : Compare a b = 0 <-> a = b.
Proof.
  revert b. induction a as [|x a IH]; intros [|y b]; cbn;
    try (split; [discriminate|discriminate]); try tauto.
  destruct (Z.ltb_spec (Z_of_byte x) (Z_of_byte y)) as [H1|H1].
  { split; [discriminate|]. intros [= -> _]. lia. }
  destruct (Z.ltb_spec (Z_of_byte y) (Z_of_byte x)) as [H2|H2].
  { split; [discriminate|]. intros [= -> _]. lia. }
  assert (x = y) by (apply Z_of_byte_inj; lia). subst y.
  rewrite IH. split; [intros ->; reflexivity|intros [= ->]; reflexivity].
Qed.

Lemma Compare_antisym (a b : bytes) : Compare b a = - Compare a b.
Proof.
  revert b. induction a as [|x a IH]; intros [|y b]; cbn; try reflexivity.
  destruct (Z.ltb_spec (Z_of_byte x) (Z_of_byte y)) as [H1|H1];
    destruct (Z.ltb_spec (Z_of_byte y) (Z_of_byte x)) as [H2|H2];
    try reflexivity; try lia.
  apply IH.
Qed.

Lemma Compare_trans (a b c : bytes) :
  0 < Compare a b -> 0 < Compare b c -> 0 < Compare a c.
Proof.
  revert b c. induction a as [|x a IH]; intros [|y b] [|z c]; cbn;
    try lia.
  destruct (Z.ltb_spec (Z_of_byte x) (Z_of_byte y)) as [H1|H1]; [lia|].
  destruct (Z.ltb_spec (Z_of_byte y) (Z_of_byte z)) as [H2|H2]; [lia|].
  destruct (Z.ltb_spec (Z_of_byte y) (Z_of_byte x)) as [H3|H3];
    destruct (Z.ltb_spec (Z_of_byte z) (Z_of_byte y)) as [H4|H4];
    destruct (Z.ltb_spec (Z_of_byte x) (Z_of_byte z)) as [H5|H5];
    destruct (Z.ltb_spec (Z_of_byte z) (Z_of_byte x)) as [H6|H6];
    try lia.
  apply IH.
Qed.

Lemma Before_trans (a b c : ledger.Time) :
  ledger.Before a b = true -> ledger.Before b c = true ->
  ledger.Before a c = true.
Proof.
  destruct a as [sa ta], b as [sb tb], c as [sc tc]. unfold ledger.Before. cbn.
  destruct (Z.ltb_spec sa sb), (Z.ltb_spec sb sc), (Z.ltb_spec sa sc),
    (Z.eqb_spec sa sb), (Z.eqb_spec sb sc), (Z.eqb_spec sa sc),
    (Z.ltb_spec ta tb), (Z.ltb_spec tb tc), (Z.ltb_spec ta tc);
    cbn; try discriminate; try reflexivity; lia.
Qed.

Module multistateKVProps.
Import multistate multistateKV.

Section WithStore.
Context {S : Serialization} {S_ok : SerializationOk S}.
Variable PartitionOther : byte.
Variable SlotFromBytes : bytes -> outcome Z.
Variable Slot_Bytes : Z -> bytes.

Lemma partitions_differ :
  latestSlotDBPartition PartitionOther <> rootRecordDBPartition PartitionOther.
Proof.
  unfold latestSlotDBPartition, rootRecordDBPartition. intros E.
  apply (f_equal Z_of_byte) in E. rewrite Z_of_byte_of_Z in E.
  pose proof (Z_of_byte_range PartitionOther) as Hr.
  destruct (Z.eq_dec (Z_of_byte PartitionOther) 255) as [H255|H255].
  - rewrite H255 in E. discriminate E.
  - rewrite Z.mod_small in E by lia. lia.
Qed.

(** X6.  A root record written under a branch id is the one fetched under it;
    the record must be encodable (positive coverage, fields in range) and
    its encoding not empty. *)
Theorem FetchRootRecord_writeRootRecord
    (w : KVReader) (txid : TransactionID) (r : RootRecord) (data : bytes) :
  RootRecord_wf r -> Bytes r = Ok data -> data <> [] ->
  exists w', writeRootRecord PartitionOther w txid r = Ok w' /\
    FetchRootRecord PartitionOther w' txid = Ok (Some r).
Proof.
  intros Hwf HB Hne. unfold writeRootRecord. rewrite HB.
  cbn [mbind outcome_bind Go.bind mret outcome_ret].
  eexists. split; [reflexivity|].
  unfold FetchRootRecord, Get, KVSet. cbn [app].
  rewrite lookup_insert_eq. cbn [default from_option id].
  destruct (Nat.eqb_spec (length data) 0) as [El|_].
  { destruct data; [congruence|discriminate El]. }
  assert (Hcov : 0 < LedgerCoverage r).
  { unfold Bytes in HB. destruct (Z.ltb_spec 0 (LedgerCoverage r)); [assumption|].
    discriminate HB. }
  rewrite (multistateProps.Bytes_fields r Hcov) in HB. apply Ok_inj in HB.
  rewrite <- HB.
  rewrite (multistateProps.RootRecordFromBytes_fields r Hwf). reflexivity.
Qed.

(** X7.  Root records and the latest-slot marker live under different keys:
    writing a root record changes neither the latest slot nor the record of
    another branch, and writing the latest slot changes no root record. *)
Theorem partitions_separate
    (w w' : KVReader) (txid txid' : TransactionID) (r : RootRecord) (slot : Z) :
  writeRootRecord PartitionOther w txid r = Ok w' ->
  FetchLatestSlot PartitionOther SlotFromBytes w'
  = FetchLatestSlot PartitionOther SlotFromBytes w /\
  (txid' <> txid ->
   FetchRootRecord PartitionOther w' txid' = FetchRootRecord PartitionOther w txid') /\
  FetchRootRecord PartitionOther (writeLatestSlot PartitionOther Slot_Bytes w slot) txid'
  = FetchRootRecord PartitionOther w txid'.
Proof.
  pose proof partitions_differ as Hd.
  unfold writeRootRecord. destruct (Bytes r) as [data| |]; try discriminate.
  cbn [mbind outcome_bind Go.bind mret outcome_ret app].
  intros Hw. apply Ok_inj in Hw. subst w'.
  unfold FetchLatestSlot, FetchRootRecord, writeLatestSlot, Get, KVSet.
  split; [|split].
  - rewrite lookup_insert_ne; [reflexivity|].
    intros E. destruct txid; [|discriminate E]. congruence.
  - intros Hne. rewrite lookup_insert_ne; [reflexivity|]. congruence.
  - rewrite lookup_insert_ne; [reflexivity|].
    intros E. destruct txid'; [|discriminate E]. congruence.
Qed.

(** The slot written by [writeLatestSlot] is the one [FetchLatestSlot]
    returns, when the slot's bytes are not empty and decode to it. *)
Lemma FetchLatestSlot_writeLatestSlot (w : KVReader) (slot : Z) :
  Slot_Bytes slot <> [] ->
  SlotFromBytes (Slot_Bytes slot) = Ok slot ->
  FetchLatestSlot PartitionOther SlotFromBytes
    (writeLatestSlot PartitionOther Slot_Bytes w slot) = Ok slot.
Proof.
  intros Hne Hrt.
  unfold FetchLatestSlot, writeLatestSlot, Get, KVSet.
  rewrite lookup_insert_eq. cbn [default from_option id].
  destruct (Nat.eqb_spec (length (Slot_Bytes slot)) 0) as [El|_].
  { destruct (Slot_Bytes slot); [congruence|discriminate El]. }
  rewrite Hrt. reflexivity.
Qed.

Variable FetchRootRecords : KVReader -> Z -> outcome (list RootRecord).

Lemma slotsWithRecords_unfold (recsOf : Z -> list RootRecord) (s : nat) :
  slotsWithRecords recsOf s
  = (if (0 <? length (recsOf (Z.of_nat s)))%nat then [Z.of_nat s] else [])
    ++ match s with
       | O => []
       | Datatypes.S s' => slotsWithRecords recsOf s'
       end.
Proof. destruct s; cbn [slotsWithRecords]; [rewrite app_nil_r|]; reflexivity. Qed.

Lemma nSlotsBackLoop_spec (store : KVReader) (nBack : Z)
    (recsOf : Z -> list RootRecord) (s : nat) :
  (forall k : nat, (k <= s)%nat ->
     FetchRootRecords store (Z.of_nat k) = Ok (recsOf (Z.of_nat k))) ->
  forall (ret : list RootRecord) (slotCount : Z),
  0 <= slotCount < nBack ->
  nSlotsBackLoop FetchRootRecords store nBack s ret slotCount
  = Ok (ret ++ concat (recsOf <$> take (Z.to_nat (nBack - slotCount))
                                       (slotsWithRecords recsOf s))).
Proof.
  induction s as [|s IH]; intros HF ret c Hc.
  - cbn [nSlotsBackLoop]. rewrite (HF 0%nat) by lia.
    cbn [mbind outcome_bind Go.bind mret outcome_ret].
    rewrite slotsWithRecords_unfold, app_nil_r.
    destruct (Nat.ltb_spec 0 (length (recsOf (Z.of_nat 0)))) as [Hl|Hl].
    + rewrite orb_true_r.
      replace (Z.to_nat (nBack - c)) with (Datatypes.S (Z.to_nat (nBack - c - 1))) by lia.
      cbn [take fmap list_fmap concat]. rewrite take_nil, app_nil_r. reflexivity.
    + rewrite orb_true_r.
      rewrite take_nil. cbn [fmap list_fmap concat]. rewrite app_nil_r. reflexivity.
  - cbn [nSlotsBackLoop]. rewrite (HF (Datatypes.S s)) by lia.
    cbn [mbind outcome_bind Go.bind mret outcome_ret].
    rewrite (slotsWithRecords_unfold recsOf (Datatypes.S s)).
    destruct (Nat.ltb_spec 0 (length (recsOf (Z.of_nat (Datatypes.S s))))) as [Hl|Hl];
      cbn [Nat.eqb]; rewrite orb_false_r.
    + replace (Z.to_nat (nBack - c)) with (Datatypes.S (Z.to_nat (nBack - (c + 1)))) by lia.
      cbn [app take fmap list_fmap concat].
      destruct (Z.leb_spec nBack (c + 1)) as [Hn|Hn].
      * replace (Z.to_nat (nBack - (c + 1))) with 0%nat by lia.
        rewrite take_0. cbn [fmap list_fmap concat]. rewrite app_nil_r. reflexivity.
      * rewrite IH by (try lia; intros k Hk; apply HF; lia).
        rewrite <- app_assoc. reflexivity.
    + cbn [app].
      destruct (Z.leb_spec nBack c) as [Hn|Hn]; [lia|].
      apply IH; [intros k Hk; apply HF; lia|lia].
Qed.

(** X8.  [FetchRootRecordsNSlotsBack] returns the records of the [nBack] most
    recent slots that hold any, newest slot first; slots without records
    are skipped and do not count, and the walk ends at slot 0. *)
Theorem FetchRootRecordsNSlotsBack_spec (store : KVReader) (nBack latest : Z)
    (recsOf : Z -> list RootRecord) :
  0 < nBack -> 0 <= latest ->
  FetchLatestSlot PartitionOther SlotFromBytes store = Ok latest ->
  (forall s : Z, 0 <= s <= latest -> FetchRootRecords store s = Ok (recsOf s)) ->
  FetchRootRecordsNSlotsBack PartitionOther SlotFromBytes FetchRootRecords store nBack
  = Ok (concat (recsOf <$> take (Z.to_nat nBack)
                                (slotsWithRecords recsOf (Z.to_nat latest)))).
Proof.
  intros Hn Hl Hlatest HF. unfold FetchRootRecordsNSlotsBack.
  destruct (Z.leb_spec nBack 0); [lia|]. rewrite Hlatest.
  cbn [mbind outcome_bind Go.bind].
  rewrite (nSlotsBackLoop_spec store nBack recsOf); [|intros k Hk; apply HF; lia|lia].
  rewrite Z.sub_0_r. reflexivity.
Qed.

(** A non-positive [nBack] gives no record, whatever the store holds, and
    the store is not read. *)
Lemma FetchRootRecordsNSlotsBack_nonpositive (store : KVReader) (nBack : Z) :
  nBack <= 0 ->
  FetchRootRecordsNSlotsBack PartitionOther SlotFromBytes FetchRootRecords store nBack
  = Ok [].
Proof.
  intros H. unfold FetchRootRecordsNSlotsBack.
  destruct (Z.leb_spec nBack 0); [reflexivity|lia].
Qed.

End WithStore.

(** A sample record of the reference serialisation written to the empty store. *)
Lemma FetchRootRecord_writeRootRecord_witness :
  exists w' : KVReader,
    writeRootRecord x02 ∅ sampleBranchTxID (reference.sampleRecord 10 1000) = Ok w' /\
    FetchRootRecord x02 w' sampleBranchTxID = Ok (Some (reference.sampleRecord 10 1000)).
Proof.
  eapply (FetchRootRecord_writeRootRecord (S_ok := referenceProps.reference_ok)
            x02 ∅ sampleBranchTxID (reference.sampleRecord 10 1000)).
  - unfold RootRecord_wf, is_uint64, is_uint32, uint64_mod, uint32_mod.
    simpl. lia.
  - apply multistateProps.Bytes_fields. simpl. lia.
  - discriminate.
Defined.

(** Writing a root record into the sample store leaves its latest slot at 2. *)
Lemma partitions_separate_witness :
  exists w' : KVReader,
    writeRootRecord x02 sampleStore sampleBranchTxID (reference.sampleRecord 10 1000)
    = Ok w' /\
    FetchLatestSlot x02 sampleSlotFromBytes w' = Ok 2.
Proof.
  assert (E : writeRootRecord x02 sampleStore sampleBranchTxID
                (reference.sampleRecord 10 1000)
              = Ok (KVSet sampleStore (x02 :: sampleBranchTxID)
                      (lazybytes_Bytes (fields (reference.sampleRecord 10 1000))))).
  { unfold writeRootRecord.
    rewrite multistateProps.Bytes_fields by (simpl; lia). reflexivity. }
  eexists. split; [exact E|].
  rewrite (proj1 (partitions_separate x02 sampleSlotFromBytes (fun _ => [])
                    sampleStore _ sampleBranchTxID sampleBranchTxID
                    (reference.sampleRecord 10 1000) 0 E)).
  vm_compute. reflexivity.
Defined.

(** The latest slot is 2 and only slot 1 holds a record: one slot back gives that record. *)
Lemma FetchRootRecordsNSlotsBack_spec_witness :
  FetchRootRecordsNSlotsBack x02 sampleSlotFromBytes sampleFetchRootRecords
    sampleStore 1
  = Ok [reference.sampleRecord 10 1000].
Proof.
  rewrite (FetchRootRecordsNSlotsBack_spec x02 sampleSlotFromBytes
             sampleFetchRootRecords sampleStore 1 2 sampleRecsOf).
  - reflexivity.
  - lia.
  - lia.
  - vm_compute. reflexivity.
  - intros s _. reflexivity.
Defined.

End multistateKVProps.

Module ledgeridProps.
Import ledgerid.

Lemma Uint_app (l : bytes) (acc : Z) :
  fold_left (fun a x => Z.lor (Z.shiftl a 8) (Z_of_byte x)) l acc
  = acc * 2 ^ (8 * Z.of_nat (length l)) + Uint l.
Proof.
  unfold Uint. revert acc. induction l as [|x l IH]; intros acc.
  - simpl. lia.
  - cbn [fold_left length]. rewrite IH, (IH (Z.lor _ _)).
    rewrite !lor_shiftl_byte by apply Z_of_byte_range.
    replace (8 * Z.of_nat (S (length l))) with (8 + 8 * Z.of_nat (length l)) by lia.
    rewrite Z.pow_add_r by lia. change (2 ^ 8) with 256. lia.
Qed.

Lemma Uint_cons (x : byte) (l : bytes) :
  Uint (x :: l) = Z_of_byte x * 2 ^ (8 * Z.of_nat (length l)) + Uint l.
Proof.
  unfold Uint at 1. cbn [fold_left]. rewrite Uint_app.
  rewrite lor_shiftl_byte by apply Z_of_byte_range. lia.
Qed.

Lemma Uint_range (l : bytes) : 0 <= Uint l < 2 ^ (8 * Z.of_nat (length l)).
Proof.
  induction l as [|x l IH].
  - cbn. lia.
  - rewrite Uint_cons. cbn [length].
    replace (8 * Z.of_nat (S (length l))) with (8 + 8 * Z.of_nat (length l)) by lia.
    rewrite Z.pow_add_r by lia. change (2 ^ 8) with 256.
    pose proof (Z_of_byte_range x). nia.
Qed.

(** The bytes written for [v] depend on [v] modulo the width only. *)
Lemma PutUint_mod (n : nat) (v : Z) :
  PutUint n (v mod 2 ^ (8 * Z.of_nat n)) = PutUint n v.
Proof.
  assert (G : forall k m, (k <= m)%nat ->
            PutUint k (v mod 2 ^ (8 * Z.of_nat m)) = PutUint k v).
  { induction k as [|k IH]; intros m Hm; [reflexivity|].
    cbn [PutUint]. rewrite IH by lia. f_equal.
    rewrite <- (byte_of_Z_of_byte (byte_of_Z (Z.shiftr v _))).
    rewrite <- (byte_of_Z_of_byte (byte_of_Z (Z.shiftr (v mod _) _))).
    f_equal. rewrite !Z_of_byte_of_Z.
    rewrite !Z.shiftr_div_pow2 by lia.
    set (p := 2 ^ (8 * Z.of_nat k)).
    assert (Hp : 0 < p) by (apply Z.pow_pos_nonneg; lia).
    replace (8 * Z.of_nat m) with (8 * Z.of_nat k + 8 + 8 * Z.of_nat (m - S k)) by lia.
    rewrite !Z.pow_add_r by lia. fold p. change (2 ^ 8) with 256.
    set (q := 2 ^ (8 * Z.of_nat (m - S k))).
    assert (Hq : 0 < q) by (apply Z.pow_pos_nonneg; lia).
    rewrite <- Z.mul_assoc.
    rewrite (Z.rem_mul_r v p (256 * q)) by lia.
    replace (v mod p + p * ((v / p) mod (256 * q)))
      with ((v / p) mod (256 * q) * p + v mod p) by lia.
    rewrite Z.div_add_l by lia.
    rewrite (Z.div_small (v mod p) p) by (apply Z.mod_pos_bound; lia).
    rewrite Z.add_0_r.
    rewrite (Z.rem_mul_r (v / p) 256 q) by lia.
    replace ((v / p) mod 256 + 256 * ((v / p / 256) mod q))
      with ((v / p) mod 256 + (v / p / 256) mod q * 256) by lia.
    rewrite Z.mod_add by lia.
    apply Z.mod_mod. lia. }
  apply G. lia.
Qed.

(** Writing what was read gives back the bytes. *)
Lemma PutUint_Uint (l : bytes) : PutUint (length l) (Uint l) = l.
Proof.
  induction l as [|x l IH]; [reflexivity|].
  cbn [length PutUint]. f_equal.
  - rewrite Uint_cons, Z.shiftr_div_pow2 by lia.
    pose proof (Uint_range l) as Hr.
    rewrite Z.div_add_l by lia. rewrite (Z.div_small (Uint l)) by lia.
    rewrite Z.add_0_r. apply byte_of_Z_of_byte.
  - rewrite <- PutUint_mod, Uint_cons.
    rewrite Z.add_comm, Z.mod_add by (pose proof (Uint_range l); lia).
    rewrite PutUint_mod. exact IH.
Qed.

Lemma binaryRead_app (n : nat) (v : Z) (rest : bytes) :
  binaryRead n (PutUint n v ++ rest) = Ok (v mod 2 ^ (8 * Z.of_nat n), rest).
Proof.
  unfold binaryRead.
  rewrite length_app, length_PutUint.
  destruct (Nat.ltb_spec (n + length rest) n) as [H|_]; [lia|].
  rewrite take_app_length', drop_app_length' by (symmetry; apply length_PutUint).
  rewrite Uint_PutUint. reflexivity.
Qed.

Lemma binaryRead_inv (n : nat) (rdr rest : bytes) (v : Z) :
  binaryRead n rdr = Ok (v, rest) -> rdr = PutUint n v ++ rest /\ is_uint n v.
Proof.
  unfold binaryRead.
  destruct (Nat.ltb_spec (length rdr) n) as [H|H]; [discriminate|].
  intros [= <- <-].
  assert (Hl : length (take n rdr) = n) by (rewrite length_take; lia).
  split.
  - pose proof (PutUint_Uint (take n rdr)) as E. rewrite Hl in E.
    rewrite E. symmetry. apply take_drop.
  - pose proof (Uint_range (take n rdr)) as E. rewrite Hl in E. exact E.
Qed.

Lemma Read_app (k rest : bytes) :
  k <> [] -> Read (length k) (k ++ rest) = Ok (length k, k, rest).
Proof.
  intros Hk. unfold Read. rewrite length_app.
  destruct k as [|x k]; [congruence|]. cbn [length Nat.eqb Nat.add].
  rewrite Nat.min_l by lia.
  replace (S (length k) - S (length k + length rest))%nat with 0%nat by lia.
  change (S (length k)) with (length (x :: k)).
  rewrite take_app_length, drop_app_length. cbn [replicate].
  rewrite app_nil_r. reflexivity.
Qed.

Lemma Read_inv (size n : nat) (rdr buf rest : bytes) :
  Read size rdr = Ok (n, buf, rest) -> n = size ->
  rdr = buf ++ rest /\ length buf = size /\ rdr <> [].
Proof.
  unfold Read. destruct rdr as [|x rdr]; [discriminate|].
  cbn [length Nat.eqb]. intros [= <- <- <-] Hn.
  replace (size - S (length rdr))%nat with 0%nat by lia.
  cbn [replicate]. rewrite app_nil_r.
  repeat split; [symmetry; apply take_drop| |discriminate].
  rewrite length_take. cbn [length]. lia.
Qed.


Lemma Read_app' (size : nat) (k rest : bytes) :
  length k = size -> k <> [] -> Read size (k ++ rest) = Ok (size, k, rest).
Proof. intros <-. apply Read_app. Qed.

Lemma is_uint_mod (n : nat) (v : Z) :
  is_uint n v -> v mod 2 ^ (8 * Z.of_nat n) = v.
Proof. intros H. apply Z.mod_small. exact H. Qed.

Lemma int64_mod (v : Z) :
  is_int64 v ->
  (if v mod 2 ^ 64 <? 2 ^ 63 then v mod 2 ^ 64 else v mod 2 ^ 64 - 2 ^ 64) = v.
Proof.
  unfold is_int64. intros H.
  assert (H64 : 2 ^ 64 = 2 * 2 ^ 63) by reflexivity.
  destruct (Z.neg_nonneg_cases v) as [Hn|Hn].
  - replace (v mod 2 ^ 64) with (v + 2 ^ 64).
    + destruct (Z.ltb_spec (v + 2 ^ 64) (2 ^ 63)); lia.
    + symmetry. rewrite <- (Z.mod_add v 1 (2 ^ 64)) by lia.
      rewrite Z.mul_1_l. apply Z.mod_small. lia.
  - rewrite Z.mod_small by lia.
    destruct (Z.ltb_spec v (2 ^ 63)); lia.
Qed.

Ltac read_step :=
  first [ rewrite binaryRead_app
        | rewrite Read_app' by (assumption || apply length_PutUint) ];
  cbn [AssertNoError mbind outcome_bind Go.bind mret outcome_ret].

(** The decoder on an encoding followed by [extra] bytes. *)
Lemma decode_encode_app (id : IdentityData) (data extra : bytes) :
  IdentityData_wf id ->
  Description id <> [] ->
  Z.of_nat (length (Description id)) < 2 ^ 16 ->
  Bytes id = Ok data ->
  MustLedgerIdentityDataFromBytes (data ++ extra)
  = match extra with
    | [] => Ok id
    | _ :: _ => Panic "not all bytes has been read"
    end.
Proof.
  intros (H1 & H2 & H3 & H4 & H5 & H6 & H7 & H8 & H9 & H10 & H11 & H12 & H13 & H14)
         Hne Hlen.
  unfold Bytes.
  destruct (Nat.eqb_spec (length (GenesisControllerPublicKey id)) PublicKeySize)
    as [Hkey|]; [|discriminate].
  assert (Hk : GenesisControllerPublicKey id <> []).
  { intros E. rewrite E in Hkey. discriminate Hkey. }
  cbn [Assertf mbind outcome_bind Go.bind mret outcome_ret].
  intros HB. apply Ok_inj in HB. subst data.
  unfold MustLedgerIdentityDataFromBytes, binaryReadInt64.
  rewrite <- !app_assoc.
  do 2 read_step.
  rewrite Nat.eqb_refl. cbn [Assertf mbind outcome_bind Go.bind].
  do 14 read_step.
  rewrite (is_uint_mod 2) by (unfold is_uint; change (8 * Z.of_nat 2) with 16; lia).
  rewrite Nat2Z.id, (Read_app (Description id) extra Hne).
  cbn [AssertNoError mbind outcome_bind Go.bind].
  rewrite Nat.eqb_refl. cbn [Assertf mbind outcome_bind Go.bind].
  destruct extra as [|x extra];
    cbn [Assertf mbind outcome_bind Go.bind length Nat.eqb mret outcome_ret];
    [|reflexivity].
  rewrite (is_uint_mod 4 (GenesisTimeUnix id)), (is_uint_mod 8 (InitialSupply id)),
    (is_uint_mod 1 (MaxTickValueInSlot id)), (is_uint_mod 1 (NumHalvingEpochs id)),
    (is_uint_mod 4 (SlotsPerHalvingEpoch id)), (is_uint_mod 8 (BranchBonusBase id)),
    (is_uint_mod 8 (ChainInflationPerTickFractionBase id)),
    (is_uint_mod 8 (ChainInflationOpportunitySlots id)), (is_uint_mod 8 (VBCost id)),
    (is_uint_mod 1 (TransactionPace id)), (is_uint_mod 1 (TransactionPaceSequencer id)),
    (is_uint_mod 8 (MinimumAmountOnSequencer id)),
    (is_uint_mod 8 (MaxNumberOfEndorsements id)) by assumption.
  change (8 * Z.of_nat 8) with 64.
  rewrite int64_mod by assumption.
  destruct id; reflexivity.
Qed.

Lemma Bytes_ok (id : IdentityData) :
  length (GenesisControllerPublicKey id) = PublicKeySize ->
  exists data, Bytes id = Ok data /\
    length data = (110 + length (Description id))%nat.
Proof.
  intros Hkey. unfold Bytes. rewrite Hkey.
  cbn [Nat.eqb PublicKeySize Assertf mbind outcome_bind Go.bind mret outcome_ret].
  eexists. split; [reflexivity|].
  rewrite !length_app, !length_PutUint, Hkey. unfold PublicKeySize. lia.
Qed.

(** X1.  Decoding the encoding of a ledger identity gives it back, for an
    identity whose fields hold values of their types, with a key of 32 bytes
    and a description of 1 to 65535 bytes. *)
Theorem IdentityData_roundtrip (id : IdentityData) :
  IdentityData_wf id ->
  length (GenesisControllerPublicKey id) = PublicKeySize ->
  Description id <> [] ->
  Z.of_nat (length (Description id)) < 2 ^ 16 ->
  Bytes id ≫= MustLedgerIdentityDataFromBytes = Ok id.
Proof.
  intros Hwf Hkey Hne Hlen.
  destruct (Bytes_ok id Hkey) as (data & HB & _). rewrite HB.
  cbn [mbind outcome_bind Go.bind].
  rewrite <- (app_nil_r data). exact (decode_encode_app id data [] Hwf Hne Hlen HB).
Qed.

(** X3.  Bytes after an encoding make the decoder panic: it checks that all the
    input was read. *)
Theorem MustLedgerIdentityDataFromBytes_trailing
    (id : IdentityData) (data extra : bytes) :
  IdentityData_wf id ->
  Description id <> [] ->
  Z.of_nat (length (Description id)) < 2 ^ 16 ->
  Bytes id = Ok data ->
  extra <> [] ->
  MustLedgerIdentityDataFromBytes (data ++ extra)
  = Panic "not all bytes has been read".
Proof.
  intros Hwf Hne Hlen HB Hextra.
  rewrite (decode_encode_app id data extra Hwf Hne Hlen HB).
  destruct extra; [congruence|reflexivity].
Qed.

(** X4.  An identity with an empty description is encoded, with a length of 0
    at the end, but its encoding is refused: reading zero bytes at the end
    of the input reports [EOF], which the decoder asserts away. *)
Theorem empty_Description_not_decoded (id : IdentityData) :
  length (GenesisControllerPublicKey id) = PublicKeySize ->
  Description id = [] ->
  exists data, Bytes id = Ok data /\
    MustLedgerIdentityDataFromBytes data = Panic "EOF".
Proof.
  intros Hkey Hd.
  assert (Hk : GenesisControllerPublicKey id <> []).
  { intros E. rewrite E in Hkey. discriminate Hkey. }
  unfold Bytes. rewrite Hkey, Hd.
  cbn [Nat.eqb PublicKeySize Assertf mbind outcome_bind Go.bind mret outcome_ret].
  eexists. split; [reflexivity|].
  unfold MustLedgerIdentityDataFromBytes, binaryReadInt64.
  rewrite <- !app_assoc.
  do 2 read_step.
  cbn [Nat.eqb Assertf mbind outcome_bind Go.bind].
  do 14 read_step.
  reflexivity.
Qed.

Lemma PutUint_int64 (u : Z) :
  is_uint 8 u ->
  let v := if u <? 2 ^ 63 then u else u - 2 ^ 64 in
  PutUint 8 v = PutUint 8 u /\ is_int64 v.
Proof.
  unfold is_uint, is_int64. change (8 * Z.of_nat 8) with 64. intros H.
  assert (H64 : 2 ^ 64 = 2 * 2 ^ 63) by reflexivity.
  destruct (Z.ltb_spec u (2 ^ 63)); cbn zeta; (split; [|lia]); [reflexivity|].
  rewrite <- (PutUint_mod 8 (u - 2 ^ 64)). change (8 * Z.of_nat 8) with 64.
  replace (u - 2 ^ 64) with (u + (-1) * 2 ^ 64) by lia.
  rewrite Z.mod_add by lia. rewrite Z.mod_small by lia. reflexivity.
Qed.

Ltac unread H v Hv :=
  match type of H with
  | context [AssertNoError (binaryRead ?n ?r)] =>
      let E := fresh "E" in
      destruct (binaryRead n r) as [[v ?]|?|?] eqn:E;
      cbn [AssertNoError mbind outcome_bind Go.bind mret outcome_ret] in H;
      try discriminate H;
      apply binaryRead_inv in E; destruct E as [-> Hv]
  end.

Lemma MustLedgerIdentityDataFromBytes_inv_aux (data : bytes) (id : IdentityData) :
  MustLedgerIdentityDataFromBytes data = Ok id ->
  Bytes id = Ok data /\ IdentityData_wf id /\
  length (GenesisControllerPublicKey id) = PublicKeySize /\
  Description id <> [] /\ Z.of_nat (length (Description id)) < 2 ^ 16.
Proof.
  unfold MustLedgerIdentityDataFromBytes, binaryReadInt64. intros H.
  unread H v1 Hv1.
  destruct (Read PublicKeySize _) as [[[n1 key] r1]|?|?] eqn:EK;
    cbn [AssertNoError mbind outcome_bind Go.bind] in H; try discriminate H.
  match type of H with context [Assertf (?a =? ?b)%nat _] =>
    destruct (Nat.eqb_spec a b) as [Hn1|?] end;
    cbn [Assertf mbind outcome_bind Go.bind] in H; [|discriminate H].
  apply Read_inv in EK; [|exact Hn1]. destruct EK as (-> & Hkey & _).
  unread H v2 Hv2.
  destruct (binaryRead 8 _) as [[u r2]|?|?] eqn:EN in H;
    cbn [AssertNoError mbind outcome_bind Go.bind mret outcome_ret] in H;
    try discriminate H.
  apply binaryRead_inv in EN. destruct EN as [-> Hu].
  unread H v3 Hv3. unread H v4 Hv4.
  unread H v5 Hv5. unread H v6 Hv6. unread H v7 Hv7. unread H v8 Hv8.
  unread H v9 Hv9. unread H v10 Hv10. unread H v11 Hv11. unread H v12 Hv12.
  unread H v13 Hv13. unread H size16 Hsize.
  destruct (Read (Z.to_nat _) _) as [[[n2 desc] r3]|?|?] eqn:ED;
    cbn [AssertNoError mbind outcome_bind Go.bind] in H; try discriminate H.
  match type of H with context [Assertf (n2 =? ?b)%nat _] =>
    destruct (Nat.eqb_spec n2 b) as [Hn2|?] end;
    cbn [Assertf mbind outcome_bind Go.bind] in H; [|discriminate H].
  apply Read_inv in ED; [|exact Hn2]. destruct ED as (-> & Hdesc & Hne).
  destruct r3 as [|? ?]; cbn [length Nat.eqb Assertf mbind outcome_bind Go.bind mret outcome_ret] in H;
    [|discriminate H].
  injection H as <-. cbn [Description GenesisControllerPublicKey].
  rewrite app_nil_r in *.
  destruct (PutUint_int64 u Hu) as [HP Hi].
  assert (Hz : Z.of_nat (length desc) = size16).
  { rewrite Hdesc. apply Z2Nat.id. apply Hsize. }
  split; [|split; [|split; [|split]]].
  - unfold Bytes. cbn [GenesisControllerPublicKey]. rewrite Hkey, Nat.eqb_refl.
    cbn [Assertf mbind outcome_bind Go.bind mret outcome_ret].
    cbn [Description GenesisTimeUnix InitialSupply TickDuration MaxTickValueInSlot
         NumHalvingEpochs SlotsPerHalvingEpoch BranchBonusBase
         ChainInflationPerTickFractionBase ChainInflationOpportunitySlots VBCost
         TransactionPace TransactionPaceSequencer MinimumAmountOnSequencer
         MaxNumberOfEndorsements].
    rewrite HP, Hz. rewrite <- !app_assoc. reflexivity.
  - unfold IdentityData_wf.
    cbn [Description GenesisTimeUnix InitialSupply TickDuration MaxTickValueInSlot
         NumHalvingEpochs SlotsPerHalvingEpoch BranchBonusBase
         ChainInflationPerTickFractionBase ChainInflationOpportunitySlots VBCost
         TransactionPace TransactionPaceSequencer MinimumAmountOnSequencer
         MaxNumberOfEndorsements].
    repeat (split; [assumption|]). assumption.
  - exact Hkey.
  - exact Hne.
  - rewrite Hz. apply Hsize.
Qed.

(** X2.  What the decoder accepts is the encoding of the identity it returns:
    the fields are in range, the key has 32 bytes and the description 1 to
    65535 bytes. *)
Theorem MustLedgerIdentityDataFromBytes_inv (data : bytes) (id : IdentityData) :
  MustLedgerIdentityDataFromBytes data = Ok id ->
  Bytes id = Ok data /\ IdentityData_wf id /\
  length (GenesisControllerPublicKey id) = PublicKeySize /\
  Description id <> [] /\ Z.of_nat (length (Description id)) < 2 ^ 16.
Proof. exact (MustLedgerIdentityDataFromBytes_inv_aux data id). Qed.


Lemma MustLedgerIdentityDataFromBytes_noErr (data : bytes) (e : string) :
  MustLedgerIdentityDataFromBytes data <> Err e.
Proof.
  unfold MustLedgerIdentityDataFromBytes, binaryReadInt64.
  repeat match goal with
  | |- context [binaryRead ?n ?r] =>
      destruct (binaryRead n r) as [[? ?]|?|?];
      cbn [AssertNoError mbind outcome_bind Go.bind mret outcome_ret];
      try discriminate
  | |- context [AssertNoError (Read ?n ?r)] =>
      destruct (Read n r) as [[[? ?] ?]|?|?];
      cbn [AssertNoError mbind outcome_bind Go.bind mret outcome_ret];
      try discriminate
  | |- context [Assertf ?c _] =>
      destruct c;
      cbn [Assertf mbind outcome_bind Go.bind mret outcome_ret];
      try discriminate
  end.
Qed.

(** X5.  An input of fewer than 111 bytes (the fixed fields and one byte of
    description) makes the decoder panic. *)
Theorem MustLedgerIdentityDataFromBytes_short (data : bytes) :
  (length data < 111)%nat ->
  exists msg, MustLedgerIdentityDataFromBytes data = Panic msg.
Proof.
  intros Hlen.
  destruct (MustLedgerIdentityDataFromBytes data) as [id|e|msg] eqn:E.
  - exfalso. apply MustLedgerIdentityDataFromBytes_inv_aux in E.
    destruct E as (HB & _ & Hkey & Hne & _).
    destruct (Bytes_ok id Hkey) as (data' & HB' & Hl).
    rewrite HB in HB'. apply Ok_inj in HB'. subst data'.
    destruct (Description id); [congruence|]. cbn [length] in Hl. lia.
  - exfalso. exact (MustLedgerIdentityDataFromBytes_noErr data e E).
  - exists msg. reflexivity.
Qed.

Lemma sampleIdentity_wf : IdentityData_wf sampleIdentity.
Proof.
  unfold IdentityData_wf, is_uint, is_int64, sampleIdentity. cbn. lia.
Qed.

(** The sample identity is read back from its encoding. *)
Lemma IdentityData_roundtrip_witness :
  Bytes sampleIdentity ≫= MustLedgerIdentityDataFromBytes = Ok sampleIdentity.
Proof.
  apply (IdentityData_roundtrip sampleIdentity).
  - exact sampleIdentity_wf.
  - reflexivity.
  - discriminate.
  - vm_compute. reflexivity.
Defined.

(** One zero byte after the encoding of the sample identity. *)
Lemma MustLedgerIdentityDataFromBytes_trailing_witness :
  MustLedgerIdentityDataFromBytes (sampleIdentityBytes ++ [x00])
  = Panic "not all bytes has been read".
Proof.
  apply (MustLedgerIdentityDataFromBytes_trailing sampleIdentity).
  - exact sampleIdentity_wf.
  - discriminate.
  - vm_compute. reflexivity.
  - vm_compute. reflexivity.
  - discriminate.
Defined.

(** An identity of zeros with a key of 32 bytes and no description. *)
Lemma empty_Description_not_decoded_witness :
  exists data : bytes,
    Bytes (mkIdentityData [] 0 0 (repeat x07 32) 0 0 0 0 0 0 0 0 0 0 0 0) = Ok data /\
    MustLedgerIdentityDataFromBytes data = Panic "EOF".
Proof.
  apply (empty_Description_not_decoded
           (mkIdentityData [] 0 0 (repeat x07 32) 0 0 0 0 0 0 0 0 0 0 0 0));
    reflexivity.
Defined.

(** The decoder accepts the encoding of the sample identity. *)
Lemma MustLedgerIdentityDataFromBytes_inv_witness :
  Bytes sampleIdentity = Ok sampleIdentityBytes /\
  Description sampleIdentity <> [].
Proof.
  destruct (MustLedgerIdentityDataFromBytes_inv sampleIdentityBytes sampleIdentity)
    as (HB & _ & _ & Hne & _).
  - vm_compute. reflexivity.
  - split; [exact HB | exact Hne].
Defined.

(** The encoding of the sample identity without its last byte. *)
Lemma MustLedgerIdentityDataFromBytes_short_witness :
  exists msg : string,
    MustLedgerIdentityDataFromBytes (take 110 sampleIdentityBytes) = Panic msg.
Proof.
  apply (MustLedgerIdentityDataFromBytes_short (take 110 sampleIdentityBytes)).
  vm_compute. lia.
Defined.

End ledgeridProps.

(** ** Package [vertex]: more on flags, status and references *)

Module vertexMoreProps.
Import vertex.

Section WithFlag.
Variable FlagVertexDefined : Flags.

(** [SetFlagsUpNoLock] only raises flags: a flag that is up stays up
    whatever is set later. *)
Lemma SetFlagsUp_monotone (fl f g : Flags) :
  FlagsUp fl f = true -> FlagsUp (SetFlagsUp fl g) f = true.
Proof.
  unfold FlagsUp, SetFlagsUp. rewrite !Z.eqb_eq. intros H.
  apply Z.bits_inj'. intros i _.
  apply (f_equal (fun z => Z.testbit z i)) in H.
  rewrite Z.land_spec in H. rewrite Z.land_spec, Z.lor_spec.
  destruct (Z.testbit fl i), (Z.testbit g i), (Z.testbit f i);
    try reflexivity; discriminate H.
Qed.

(** X9.  [SetTxStatusBad] with a nil reason does not make the vertex bad: the
    flag goes up with no error recorded, and the status reads [Good]. *)
Theorem SetTxStatusBad_nil (vid : WrappedTx) :
  GetTxStatusNoLock FlagVertexDefined vid = Ok Undefined ->
  exists vid' : WrappedTx,
    SetTxStatusBad FlagVertexDefined None vid = Ok vid' /\
    GetTxStatusNoLock FlagVertexDefined vid' = Ok Good.
Proof.
  intros Hu. unfold SetTxStatusBad, SetTxStatusBadNoLock. rewrite Hu.
  cbn [mbind outcome_bind Go.bind Assertf mret outcome_ret].
  rewrite bool_decide_true by reflexivity.
  cbn [mbind outcome_bind Go.bind Assertf mret outcome_ret].
  eexists. split; [reflexivity|].
  apply (vertexProps.status_defined_after FlagVertexDefined vid None).
  apply vertexProps.FlagsUp_SetFlagsUp.
Qed.

End WithFlag.

Lemma set_references_id (vid : WrappedTx) (n : Z) :
  n = references vid -> set_references n vid = vid.
Proof. intros ->. destruct vid; reflexivity. Qed.

(** X10.  Taking a reference and releasing it leaves the vertex as it was, and so
    does releasing one and taking it again while another reference is
    held; the last reference cannot be taken back: once released,
    [Reference] answers false. *)
Theorem Reference_UnReference (vid : WrappedTx) :
  (0 < references vid < MaxUint16 ->
   Reference vid ≫= (fun r => UnReference r.2) = Ok vid) /\
  (1 < references vid <= MaxUint16 ->
   UnReference vid ≫= Reference = Ok (true, vid)) /\
  (references vid = 1 ->
   exists vid' : WrappedTx,
     UnReference vid ≫= Reference = Ok (false, vid') /\ references vid' = 0).
Proof.
  unfold MaxUint16. split; [|split].
  - intros Hr. unfold Reference, UnReference.
    destruct (Z.eqb_spec (references vid) 0); [lia|].
    destruct (Z.ltb_spec (references vid) MaxUint16); [|unfold MaxUint16 in *; lia].
    cbn [Assertf mbind outcome_bind Go.bind mret outcome_ret snd references set_references].
    destruct (Z.ltb_spec 0 (references vid + 1)); [|lia].
    cbn [Assertf mbind outcome_bind Go.bind mret outcome_ret].
    f_equal. destruct vid as [i w f e c r]; unfold set_references;
      cbn [ID wrapper flags err coverage references] in *.
    replace (r + 1 - 1) with r by lia. reflexivity.
  - intros Hr. unfold Reference, UnReference.
    destruct (Z.ltb_spec 0 (references vid)); [|lia].
    cbn [Assertf mbind outcome_bind Go.bind mret outcome_ret references set_references].
    destruct (Z.eqb_spec (references vid - 1) 0); [lia|].
    destruct (Z.ltb_spec (references vid - 1) MaxUint16); [|unfold MaxUint16 in *; lia].
    cbn [Assertf mbind outcome_bind Go.bind mret outcome_ret].
    do 2 f_equal. destruct vid as [i w f e c r]; unfold set_references;
      cbn [ID wrapper flags err coverage references] in *.
    replace (r - 1 + 1) with r by lia. reflexivity.
  - intros Hr. unfold Reference, UnReference. rewrite Hr.
    cbn. eexists. split; reflexivity.
Qed.

(** X11.  No program of [Reference], [UnReference] and [MarkDeleted] takes the
    reference count out of [uint16], and none changes the id, the flags,
    the error or the coverage of the vertex. *)
Theorem references_stay_uint16 (ops : list RefOp) (vid vid' : WrappedTx) :
  0 <= references vid <= MaxUint16 ->
  applyRefOps ops vid = Ok vid' ->
  0 <= references vid' <= MaxUint16 /\
  ID vid' = ID vid /\ flags vid' = flags vid /\ err vid' = err vid /\
  coverage vid' = coverage vid.
Proof.
  revert vid. induction ops as [|op ops IH]; intros vid Hr.
  - cbn. intros H. apply Ok_inj in H. subst vid'. auto.
  - cbn [applyRefOps].
    destruct (applyRefOp op vid) as [v| |] eqn:Eop;
      cbn [mbind outcome_bind Go.bind]; try discriminate.
    intros Hrest.
    assert (Hv : 0 <= references v <= MaxUint16 /\
                 ID v = ID vid /\ flags v = flags vid /\ err v = err vid /\
                 coverage v = coverage vid).
    { destruct op; cbn [applyRefOp] in Eop.
      - unfold Reference in Eop.
        destruct (Z.eqb_spec (references vid) 0).
        + cbn in Eop. apply Ok_inj in Eop. subst v. auto.
        + destruct (Z.ltb_spec (references vid) MaxUint16);
            cbn in Eop; [|discriminate Eop].
          apply Ok_inj in Eop. subst v. cbn. repeat split; lia.
      - unfold UnReference in Eop.
        destruct (Z.ltb_spec 0 (references vid)); cbn in Eop; [|discriminate Eop].
        apply Ok_inj in Eop. subst v. cbn. repeat split; lia.
      - unfold MarkDeleted in Eop.
        destruct (wrapper vid); cbn in Eop; try discriminate Eop;
          apply Ok_inj in Eop; subst v; cbn; auto. }
    destruct Hv as (Hb & Hid & Hfl & He & Hc).
    destruct (IH v Hb Hrest) as (Hb' & Hid' & Hfl' & He' & Hc').
    repeat split; try lia; congruence.
Qed.

Section WithTxID.
Variable Timestamp : bytes -> ledger.Time.

(** X12.  [IsPreferredBase] is a strict preference: nothing is preferred to
    itself, of two candidates at most one is preferred to the other, and of
    two candidates with different transaction ids exactly one is. *)
Theorem IsPreferredBase_strict (cov1 cov2 : Z) (txid1 txid2 : option bytes) :
  IsPreferredBase Timestamp cov1 cov1 txid1 txid1 = false /\
  (IsPreferredBase Timestamp cov1 cov2 txid1 txid2 = true ->
   IsPreferredBase Timestamp cov2 cov1 txid2 txid1 = false) /\
  (forall id1 id2 : bytes,
     txid1 = Some id1 -> txid2 = Some id2 -> id1 <> id2 ->
     IsPreferredBase Timestamp cov1 cov2 txid1 txid2 = false ->
     IsPreferredBase Timestamp cov2 cov1 txid2 txid1 = true).
Proof.
  unfold IsPreferredBase. split; [|split].
  - rewrite Z.ltb_irrefl, Z.eqb_refl.
    destruct txid1 as [id|]; [|reflexivity].
    rewrite bool_decide_true by reflexivity.
    rewrite (proj2 (Compare_eq id id) eq_refl). reflexivity.
  - destruct (Z.ltb_spec cov2 cov1) as [H1|H1].
    { intros _. destruct (Z.ltb_spec cov1 cov2); [lia|].
      destruct (Z.eqb_spec cov2 cov1); [lia|reflexivity]. }
    destruct (Z.eqb_spec cov1 cov2) as [E|E]; [|discriminate]. subst cov2.
    rewrite Z.ltb_irrefl, Z.eqb_refl.
    destruct txid1 as [id1|], txid2 as [id2|]; try discriminate.
    case_bool_decide as Ht.
    + rewrite bool_decide_true by congruence.
      rewrite (Compare_antisym id1 id2).
      destruct (Z.ltb_spec 0 (Compare id1 id2)); [|discriminate].
      intros _. destruct (Z.ltb_spec 0 (- Compare id1 id2)); [lia|reflexivity].
    + rewrite bool_decide_false by congruence.
      apply tippoolProps.Before_asym.
  - intros id1 id2 -> -> Hne.
    destruct (Z.ltb_spec cov2 cov1) as [H1|H1]; [discriminate|].
    destruct (Z.eqb_spec cov1 cov2) as [E|E].
    2:{ intros _. destruct (Z.ltb_spec cov1 cov2); [reflexivity|lia]. }
    subst cov2. rewrite Z.ltb_irrefl, Z.eqb_refl.
    case_bool_decide as Ht.
    + rewrite bool_decide_true by congruence.
      rewrite (Compare_antisym id1 id2).
      pose proof (Compare_values id1 id2) as Hv.
      pose proof (Compare_eq id1 id2) as He.
      destruct (Z.ltb_spec 0 (Compare id1 id2)); [discriminate|].
      intros _. destruct (Z.ltb_spec 0 (- Compare id1 id2)); [reflexivity|].
      exfalso. apply Hne, He. lia.
    + rewrite bool_decide_false by congruence.
      intros Hb.
      destruct (ledger.Before (Timestamp id1) (Timestamp id2)) eqn:Hb';
        [reflexivity|].
      exfalso. apply Ht. symmetry.
      exact (tippoolProps.Before_trichotomy _ _ Hb Hb').
Qed.

(** X13.  The preference is transitive. *)
Theorem IsPreferredBase_trans (cov1 cov2 cov3 : Z) (txid1 txid2 txid3 : option bytes) :
  IsPreferredBase Timestamp cov1 cov2 txid1 txid2 = true ->
  IsPreferredBase Timestamp cov2 cov3 txid2 txid3 = true ->
  IsPreferredBase Timestamp cov1 cov3 txid1 txid3 = true.
Proof.
  unfold IsPreferredBase.
  destruct (Z.ltb_spec cov2 cov1) as [H12|H12].
  { intros _.
    destruct (Z.ltb_spec cov3 cov2) as [H23|H23].
    - intros _. destruct (Z.ltb_spec cov3 cov1); [reflexivity|lia].
    - destruct (Z.eqb_spec cov2 cov3); [|discriminate].
      intros _. destruct (Z.ltb_spec cov3 cov1); [reflexivity|lia]. }
  destruct (Z.eqb_spec cov1 cov2) as [E12|]; [|discriminate]. subst cov2.
  destruct txid1 as [id1|]; [|discriminate].
  destruct txid2 as [id2|]; [|discriminate].
  intros P12.
  destruct (Z.ltb_spec cov3 cov1) as [H23|H23]; [reflexivity|].
  destruct (Z.eqb_spec cov1 cov3) as [E13|]; [|discriminate].
  destruct txid3 as [id3|]; [|discriminate].
  intros P23.
  revert P12 P23.
  destruct (decide (Timestamp id1 = Timestamp id2)) as [T12|T12];
    destruct (decide (Timestamp id2 = Timestamp id3)) as [T23|T23].
  - rewrite !bool_decide_true by congruence.
    rewrite !Z.ltb_lt. apply Compare_trans.
  - rewrite (bool_decide_true (Timestamp id1 = Timestamp id2)) by assumption.
    rewrite (bool_decide_false (Timestamp id2 = Timestamp id3)) by assumption.
    rewrite (bool_decide_false (Timestamp id1 = Timestamp id3)) by congruence.
    rewrite T12. intros _ H. exact H.
  - rewrite (bool_decide_false (Timestamp id1 = Timestamp id2)) by assumption.
    rewrite (bool_decide_true (Timestamp id2 = Timestamp id3)) by assumption.
    rewrite (bool_decide_false (Timestamp id1 = Timestamp id3)) by congruence.
    rewrite T23. intros H _. exact H.
  - rewrite (bool_decide_false (Timestamp id1 = Timestamp id2)) by assumption.
    rewrite (bool_decide_false (Timestamp id2 = Timestamp id3)) by assumption.
    intros H12' H23'.
    pose proof (Before_trans _ _ _ H23' H12') as H13.
    rewrite bool_decide_false; [exact H13|].
    intros E. rewrite E in H13.
    rewrite tippoolProps.Before_irrefl in H13. discriminate H13.
Qed.

End WithTxID.

(** A fresh virtual transaction marked bad with a nil reason reads as good. *)
Lemma SetTxStatusBad_nil_witness :
  exists vid' : WrappedTx,
    SetTxStatusBad 1 None (_newVID (_virtualTx None) []) = Ok vid' /\
    GetTxStatusNoLock 1 vid' = Ok Good.
Proof.
  apply (SetTxStatusBad_nil 1 (_newVID (_virtualTx None) [])).
  reflexivity.
Defined.

(** A reference taken on a fresh vertex and released again. *)
Lemma Reference_UnReference_witness :
  Reference (_newVID (_virtualTx None) []) ≫= (fun r => UnReference r.2)
  = Ok (_newVID (_virtualTx None) []).
Proof.
  apply (proj1 (Reference_UnReference (_newVID (_virtualTx None) []))).
  unfold MaxUint16. simpl. lia.
Defined.

(** A fresh vertex referenced once and released twice ends with no reference. *)
Lemma references_stay_uint16_witness :
  0 <= references (set_references 0 (_newVID (_virtualTx None) [])) <= MaxUint16 /\
  ID (set_references 0 (_newVID (_virtualTx None) [])) = [].
Proof.
  destruct (references_stay_uint16 [OpReference; OpUnReference; OpUnReference]
              (_newVID (_virtualTx None) [])
              (set_references 0 (_newVID (_virtualTx None) [])))
    as (Hr & Hid & _).
  - unfold MaxUint16. simpl. lia.
  - reflexivity.
  - split; [exact Hr | exact Hid].
Defined.

(** With the higher coverage the second candidate is preferred, so the first is not. *)
Lemma IsPreferredBase_strict_witness :
  IsPreferredBase tippool.sampleTimestamp 3 5
    (Some (tippool.sampleTxID 3 10 x00)) (Some (tippool.sampleTxID 3 20 x00))
  = false.
Proof.
  apply (proj1 (proj2 (IsPreferredBase_strict tippool.sampleTimestamp 5 3
                         (Some (tippool.sampleTxID 3 20 x00))
                         (Some (tippool.sampleTxID 3 10 x00))))).
  reflexivity.
Defined.

(** Coverages 7, 5 and 3. *)
Lemma IsPreferredBase_trans_witness :
  IsPreferredBase tippool.sampleTimestamp 7 3
    (Some (tippool.sampleTxID 3 10 x00)) (Some (tippool.sampleTxID 3 20 x00))
  = true.
Proof.
  apply (IsPreferredBase_trans tippool.sampleTimestamp 7 5 3
           (Some (tippool.sampleTxID 3 10 x00)) None
           (Some (tippool.sampleTxID 3 20 x00)));
    reflexivity.
Defined.

End vertexMoreProps.

(** ** Package [vertex]: consumers of outputs *)

Module consumersProps.
Import consumers.

Section WithCheck.
Variable checkConflicts : gset addr -> bool.

Lemma ConsumersOf_AttachConsumer (idx j : Z) (consumer : addr) (consumed : Consumed) :
  ConsumersOf (AttachConsumer idx consumer checkConflicts consumed).2 j
  = if decide (j = idx) then ConsumersOf consumed idx ∪ {[ consumer ]}
    else ConsumersOf consumed j.
Proof.
  unfold AttachConsumer, ConsumersOf. cbn [snd].
  destruct (decide (j = idx)) as [->|Hne].
  - rewrite lookup_insert_eq. cbn [default from_option id].
    destruct (consumed !! idx); cbn [default from_option id]; [reflexivity|].
    set_solver.
  - rewrite lookup_insert_ne by congruence. reflexivity.
Qed.

Lemma dom_AttachConsumer (idx : Z) (consumer : addr) (consumed : Consumed) :
  dom (AttachConsumer idx consumer checkConflicts consumed).2
  = {[ idx ]} ∪ dom consumed.
Proof. unfold AttachConsumer. cbn [snd]. apply dom_insert_L. Qed.

Lemma ConsumersOf_attachAll (calls : list (Z * addr)) (consumed : Consumed)
    (i : Z) (x : addr) :
  x ∈ ConsumersOf (attachAll checkConflicts calls consumed) i
  <-> x ∈ ConsumersOf consumed i \/ (i, x) ∈ calls.
Proof.
  revert consumed. induction calls as [|[idx c] calls IH]; intros consumed.
  - cbn. set_solver.
  - cbn [attachAll]. rewrite IH, ConsumersOf_AttachConsumer.
    destruct (decide (i = idx)) as [->|Hne].
    + rewrite elem_of_union, elem_of_singleton, elem_of_cons. naive_solver.
    + rewrite elem_of_cons. naive_solver.
Qed.

Lemma dom_attachAll (calls : list (Z * addr)) (consumed : Consumed) :
  dom (attachAll checkConflicts calls consumed)
  = list_to_set calls.*1 ∪ dom consumed.
Proof.
  revert consumed. induction calls as [|[idx c] calls IH]; intros consumed.
  - cbn. set_solver.
  - cbn [attachAll]. rewrite IH, dom_AttachConsumer. cbn. set_solver.
Qed.

(** X14.  After a series of [AttachConsumer] calls on a fresh transaction, the
    consumers recorded for an output are exactly those attached to it,
    whether or not a conflict was reported; the first number of
    [NumConsumers] counts the outputs attached to, the second is no larger,
    and it is positive as soon as one output got two different consumers. *)
Theorem attachAll_spec (calls : list (Z * addr)) :
  let consumed := attachAll checkConflicts calls ∅ in
  (forall (i : Z) (x : addr), x ∈ ConsumersOf consumed i <-> (i, x) ∈ calls) /\
  (NumConsumers consumed).1 = Z.of_nat (size (list_to_set calls.*1 : gset Z)) /\
  0 <= (NumConsumers consumed).2 <= (NumConsumers consumed).1 /\
  (forall (i : Z) (x y : addr),
     (i, x) ∈ calls -> (i, y) ∈ calls -> x <> y ->
     1 <= (NumConsumers consumed).2).
Proof.
  intros consumed.
  assert (Hmem : forall (i : Z) (x : addr),
            x ∈ ConsumersOf consumed i <-> (i, x) ∈ calls).
  { intros i x. unfold consumed. rewrite ConsumersOf_attachAll.
    unfold ConsumersOf. rewrite lookup_empty. cbn. set_solver. }
  split; [exact Hmem|]. unfold NumConsumers. cbn [fst snd].
  split; [|split].
  - rewrite <- size_dom. unfold consumed. rewrite dom_attachAll, dom_empty_L.
    rewrite union_empty_r_L. reflexivity.
  - split; [lia|]. apply inj_le.
    rewrite <- !size_dom. apply subseteq_size.
    apply subseteq_dom, map_filter_subseteq.
  - intros i x y Hx Hy Hne.
    apply Hmem in Hx, Hy. unfold ConsumersOf in Hx, Hy.
    destruct (consumed !! i) as [s|] eqn:Hs; cbn in Hx, Hy; [|set_solver].
    assert (Hsize : (1 < size s)%nat).
    { assert (Hsub : ({[ x; y ]} : gset addr) ⊆ s) by set_solver.
      apply subseteq_size in Hsub.
      rewrite size_union in Hsub by set_solver.
      rewrite !size_singleton in Hsub. lia. }
    assert (Hin : filter (fun kv : Z * gset addr => (1 < size kv.2)%nat) consumed !! i = Some s).
    { apply map_lookup_filter_Some. split; [exact Hs|exact Hsize]. }
    assert (Hnz : size (filter (fun kv : Z * gset addr => (1 < size kv.2)%nat) consumed) <> 0%nat).
    { intros E. apply map_size_empty_iff in E. rewrite E in Hin.
      rewrite lookup_empty in Hin. discriminate Hin. }
    lia.
Qed.

End WithCheck.

(** Output 0 gets the consumers 1 and 2, output 1 the consumer 1: one conflict set. *)
Lemma attachAll_spec_witness :
  1 <= (NumConsumers
          (attachAll (fun s => bool_decide (1 < size s)%nat)
             [(0, 1%positive); (0, 2%positive); (1, 1%positive)] ∅)).2.
Proof.
  apply (proj2 (proj2 (proj2
           (attachAll_spec (fun s => bool_decide (1 < size s)%nat)
              [(0, 1%positive); (0, 2%positive); (1, 1%positive)])))
         0 1%positive 2%positive).
  - apply list_elem_of_here.
  - apply list_elem_of_further, list_elem_of_here.
  - discriminate.
Defined.

End consumersProps.

(** ** Package [tippool]: references held by the pool *)

Module tippoolMoreProps.
Import tippool tippoolEffects.

Section WithTxID.
Variable Timestamp : bytes -> ledger.Time.
Variable IsBranchTransaction : bytes -> bool.
Variable IsSequencerMilestone : bytes -> bool.

Abbreviation consume := (Consume Timestamp IsBranchTransaction IsSequencerMilestone).

Lemma Reference_inv (vid vid' : vertex.WrappedTx) (b : bool) :
  vertex.Reference vid = Ok (b, vid') ->
  (b = false /\ vid' = vid /\ vertex.references vid = 0) \/
  (b = true /\ vertex.references vid <> 0 /\ vertex.references vid < MaxUint16 /\
   vid' = vertex.set_references (vertex.references vid + 1) vid).
Proof.
  unfold vertex.Reference.
  destruct (Z.eqb_spec (vertex.references vid) 0) as [E|E].
  - cbn. intros H. apply Ok_inj in H. injection H as <- <-. auto.
  - destruct (Z.ltb_spec (vertex.references vid) MaxUint16) as [Hlt|_]; cbn;
      [|discriminate].
    intros H. apply Ok_inj in H. injection H as <- <-. right. auto.
Qed.

Lemma UnReference_inv (vid vid' : vertex.WrappedTx) :
  vertex.UnReference vid = Ok vid' ->
  0 < vertex.references vid /\
  vid' = vertex.set_references (vertex.references vid - 1) vid.
Proof.
  unfold vertex.UnReference.
  destruct (Z.ltb_spec 0 (vertex.references vid)) as [Hpos|_]; cbn; [|discriminate].
  intros H. apply Ok_inj in H. auto.
Qed.

Lemma Consume_cases (h h' : heap) (tips tips' : SequencerTips) (inp : addr) :
  consume inp (h, tips) = Ok (h', tips') ->
  (h' = h /\ tips' = tips) \/ stored h tips inp h' tips'.
Proof.
  unfold Consume, deref.
  destruct (h !! inp) as [vnew|] eqn:Hinp; cbn [mbind outcome_bind Go.bind];
    [|discriminate].
  destruct (vertex.SequencerIDIfAvailable vnew) as [seqID|] eqn:Hseq;
    [|discriminate].
  destruct (tips !! seqID) as [old|] eqn:Hold.
  - case_bool_decide as Hsame.
    { intros H. apply Ok_inj in H. injection H as <- <-. left. auto. }
    destruct (oldReplaceWithNew _ _ _ _ _) as [[|]| |];
      cbn [mbind outcome_bind Go.bind mret outcome_ret]; try discriminate.
    2:{ intros H. apply Ok_inj in H. injection H as <- <-. left. auto. }
    destruct (vertex.Reference vnew) as [[b vid']| |] eqn:Href;
      cbn [mbind outcome_bind Go.bind mret outcome_ret]; try discriminate.
    apply Reference_inv in Href.
    destruct Href as [(-> & -> & Hz)|(-> & Hnz & Hmax & ->)].
    { intros H. apply Ok_inj in H. injection H as <- <-. left. auto. }
    rewrite lookup_insert_ne by congruence.
    destruct (h !! WrappedTx old) as [vold|] eqn:Hvold;
      cbn [mbind outcome_bind Go.bind mret outcome_ret]; [|discriminate].
    destruct (vertex.UnReference vold) as [vold'| |] eqn:Hun;
      cbn [mbind outcome_bind Go.bind mret outcome_ret]; try discriminate.
    apply UnReference_inv in Hun. destruct Hun as [Hpos ->].
    unfold newMilestoneData.
    destruct (vertex.BaselineBranch _ _) as [branch|];
      cbn [mbind outcome_bind Go.bind mret outcome_ret]; [|discriminate].
    intros H. apply Ok_inj in H. injection H as <- <-. right.
    exists vnew, seqID, branch. rewrite Hold.
    split; [assumption|]. split; [assumption|]. split; [assumption|].
    split; [assumption|]. split; [reflexivity|]. split; [assumption|].
    exists vold. auto.
  - destruct (vertex.Reference vnew) as [[b vid']| |] eqn:Href;
      cbn [mbind outcome_bind Go.bind mret outcome_ret]; try discriminate.
    apply Reference_inv in Href.
    destruct Href as [(-> & -> & Hz)|(-> & Hnz & Hmax & ->)].
    { intros H. apply Ok_inj in H. injection H as <- <-. left. auto. }
    unfold newMilestoneData.
    destruct (vertex.BaselineBranch _ _) as [branch|];
      cbn [mbind outcome_bind Go.bind mret outcome_ret]; [|discriminate].
    intros H. apply Ok_inj in H. injection H as <- <-. right.
    exists vnew, seqID, branch. rewrite Hold. auto 10.
Qed.

(** X15.  A successful [Consume] either changes nothing, or it makes the
    incoming vertex the tip of its chain, takes one reference on it and
    releases one reference of the tip it replaces; no other vertex and no
    other chain is touched. *)
Theorem Consume_reference_balance
    (h h' : heap) (tips tips' : SequencerTips) (inp : addr) :
  consume inp (h, tips) = Ok (h', tips') ->
  (h' = h /\ tips' = tips) \/ stored h tips inp h' tips'.
Proof. apply Consume_cases. Qed.

(** X16.  Consuming the same input again changes nothing: the second call finds
    the vertex stored and takes no second reference. *)
Theorem Consume_idempotent
    (h h' : heap) (tips tips' : SequencerTips) (inp : addr) :
  consume inp (h, tips) = Ok (h', tips') ->
  consume inp (h', tips') = Ok (h', tips').
Proof.
  intros H. destruct (Consume_cases _ _ _ _ _ H) as [[-> ->]|Hs]; [exact H|].
  destruct Hs as (vnew & seqID & branch & Hinp & Hseq & Hnz & Hmax & -> & Hh).
  assert (Hinp' : h' !! inp
            = Some (vertex.set_references (vertex.references vnew + 1) vnew)).
  { destruct (tips !! seqID) as [old|].
    - destruct Hh as (Hne & vold & _ & _ & ->).
      rewrite lookup_insert_ne by assumption. apply lookup_insert_eq.
    - rewrite Hh. apply lookup_insert_eq. }
  unfold Consume, deref. rewrite Hinp'.
  cbn [mbind outcome_bind Go.bind].
  replace (vertex.SequencerIDIfAvailable
             (vertex.set_references (vertex.references vnew + 1) vnew))
    with (vertex.SequencerIDIfAvailable vnew) by reflexivity.
  rewrite Hseq, lookup_insert_eq. cbn [WrappedTx].
  rewrite bool_decide_true by reflexivity. reflexivity.
Qed.

End WithTxID.

(** The milestone at address 2 is stored in an empty pool and gets its second reference. *)
Lemma Consume_reference_balance_witness :
  stored sampleHeap ∅ 2%positive
    (<[2%positive := sampleMilestone 3 20 x00 400 2]> sampleHeap)
    (<[repeat x07 32 := mkMilestoneData 2%positive (sampleTxID 3 0 x00)]> ∅).
Proof.
  destruct (Consume_reference_balance sampleTimestamp (fun _ => false)
              (fun _ => true) sampleHeap
              (<[2%positive := sampleMilestone 3 20 x00 400 2]> sampleHeap)
              ∅
              (<[repeat x07 32 := mkMilestoneData 2%positive (sampleTxID 3 0 x00)]> ∅)
              2%positive) as [[_ Hsame]|Hstored].
  - unfold Consume, deref.
    change (sampleHeap !! 2%positive) with (Some (sampleMilestone 3 20 x00 400 1)).
    cbn [mbind outcome_bind Go.bind].
    change (vertex.SequencerIDIfAvailable (sampleMilestone 3 20 x00 400 1))
      with (Some (repeat x07 32)).
    cbv beta iota. rewrite lookup_empty. reflexivity.
  - exfalso.
    apply (f_equal (fun tips : SequencerTips => tips !! repeat x07 32)) in Hsame.
    rewrite lookup_insert_eq, lookup_empty in Hsame. discriminate Hsame.
  - exact Hstored.
Defined.

(** The same milestone consumed again. *)
Lemma Consume_idempotent_witness :
  Consume sampleTimestamp (fun _ => false) (fun _ => true) 2%positive
    (<[2%positive := sampleMilestone 3 20 x00 400 2]> sampleHeap,
     <[repeat x07 32 := mkMilestoneData 2%positive (sampleTxID 3 0 x00)]> ∅)
  = Ok (<[2%positive := sampleMilestone 3 20 x00 400 2]> sampleHeap,
        <[repeat x07 32 := mkMilestoneData 2%positive (sampleTxID 3 0 x00)]> ∅).
Proof.
  apply (Consume_idempotent sampleTimestamp (fun _ => false) (fun _ => true)
           sampleHeap _ ∅ _ 2%positive).
  unfold Consume, deref.
  change (sampleHeap !! 2%positive) with (Some (sampleMilestone 3 20 x00 400 1)).
  cbn [mbind outcome_bind Go.bind].
  change (vertex.SequencerIDIfAvailable (sampleMilestone 3 20 x00 400 1))
    with (Some (repeat x07 32)).
  cbv beta iota. rewrite lookup_empty. reflexivity.
Defined.

End tippoolMoreProps.

(** ** Package [poker]: a poke is delivered once *)

Module pokerMoreProps.
Import poker.

Section Once.
Variable wanted : addr.

Lemma pokeAllCmd_clears (m : Poker) :
  waiting (lookupList (pokeAllCmd wanted m).2 wanted) = [].
Proof.
  unfold pokeAllCmd.
  destruct (waiting (lookupList m wanted)) as [|x l] eqn:E; cbn [length Nat.ltb Nat.leb snd].
  - exact E.
  - unfold lookupList. rewrite lookup_delete_eq. reflexivity.
Qed.

Lemma nobody_waiting_step (now : Z) (ev : Event) (m : Poker) :
  waiting (lookupList m wanted) = [] ->
  (forall who : addr, ev <> Wait wanted who) ->
  exists (pokes : list Poke) (m' : Poker),
    consume now (toCmd ev) m = Ok (pokes, m') /\
    waiting (lookupList m' wanted) = [].
Proof.
  intros Hnone Hev. rewrite pokerProps.consume_toCmd.
  destruct ev as [wanted' who|wanted'|].
  - eexists _, _. split; [reflexivity|].
    unfold addCmd. unfold lookupList at 1.
    rewrite lookup_insert_ne by (intros ->; exact (Hev who eq_refl)).
    exact Hnone.
  - destruct (pokeAllCmd wanted' m) as [ps m'] eqn:E.
    eexists _, _. split; [reflexivity|].
    unfold pokeAllCmd in E.
    destruct (0 <? length (waiting (lookupList m wanted')))%nat;
      injection E as <- <-; [|exact Hnone].
    unfold lookupList in *.
    destruct (decide (wanted' = wanted)) as [->|Hne].
    + rewrite lookup_delete_eq. reflexivity.
    + rewrite lookup_delete_ne by assumption. exact Hnone.
  - eexists _, _. split; [reflexivity|].
    unfold periodicCleanup, lookupList in *.
    destruct (filter _ m !! wanted) as [lst|] eqn:E; [|reflexivity].
    apply map_lookup_filter_Some in E as [E _]. rewrite E in Hnone.
    exact Hnone.
Qed.

Lemma nobody_waiting_run (mid : list (Z * Event)) (tp : Z) (m : Poker) :
  waiting (lookupList m wanted) = [] ->
  Forall (fun e : Z * Event => forall who : addr, e.2 <> Wait wanted who) mid ->
  exists (before : list (list Poke)) (m' : Poker),
    run (toQueue (mid ++ [(tp, PokeAll wanted)])) m = Ok (before ++ [[]], m') /\
    length before = length mid.
Proof.
  revert m. induction mid as [|[now ev] mid IH]; intros m Hnone Hmid.
  - exists [], m. split; [|reflexivity].
    cbn. unfold pokeAllCmd. rewrite Hnone. reflexivity.
  - inversion Hmid as [|? ? Hev Hrest]; subst.
    destruct (nobody_waiting_step now ev m Hnone Hev) as (p1 & m1 & Hc & Hnone1).
    destruct (IH m1 Hnone1 Hrest) as (before & m' & Hr & Hlen).
    exists (p1 :: before), m'. split; [|cbn; congruence].
    cbn [app toQueue map run fst snd]. rewrite Hc.
    cbn [mbind outcome_bind Go.bind].
    unfold toQueue in Hr. rewrite Hr. reflexivity.
Qed.

(** X17.  A waiter is poked once: after a [PokeAll] of [wanted], a later
    [PokeAll] of [wanted] pokes nobody unless somebody registered for
    [wanted] in between. *)
Theorem PokeAll_once (m : Poker) (t0 t1 : Z) (mid : list (Z * Event)) :
  Forall (fun e : Z * Event => forall who : addr, e.2 <> Wait wanted who) mid ->
  exists (first : list Poke) (before : list (list Poke)) (m' : Poker),
    run (toQueue ((t0, PokeAll wanted) :: mid ++ [(t1, PokeAll wanted)])) m
    = Ok (first :: before ++ [[]], m') /\
    length before = length mid.
Proof.
  intros Hmid.
  destruct (nobody_waiting_run mid t1 (pokeAllCmd wanted m).2
              (pokeAllCmd_clears m) Hmid) as (before & m' & Hr & Hlen).
  exists (pokeAllCmd wanted m).1, before, m'. split; [|exact Hlen].
  cbn [toQueue map run fst snd]. rewrite pokerProps.consume_toCmd.
  destruct (pokeAllCmd wanted m) as [ps m1]. cbn [fst snd] in *.
  cbn [mbind outcome_bind Go.bind].
  unfold toQueue in Hr. rewrite Hr. reflexivity.
Qed.

End Once.

(** Waiter 5 waits for vertex 9; the second poke of 9 reaches nobody. *)
Lemma PokeAll_once_witness :
  exists (first : list Poke) (before : list (list Poke)) (m' : Poker),
    run (toQueue ((1, PokeAll 9%positive)
                  :: [(2, Wait 8%positive 5%positive); (3, PeriodicSweep)]
                  ++ [(4, PokeAll 9%positive)]))
      (addCmd 0 9%positive 5%positive ∅)
    = Ok (first :: before ++ [[]], m') /\
    length before = 2%nat.
Proof.
  apply (PokeAll_once 9%positive (addCmd 0 9%positive 5%positive ∅) 1 4
           [(2, Wait 8%positive 5%positive); (3, PeriodicSweep)]).
  repeat constructor; intros who; discriminate.
Defined.

End pokerMoreProps.

(** ** Package [api]: more on the inclusion score *)

Module apiMoreProps.
Import api.

Section WithSerialization.
Context {S : Serialization}.

(** X18.  With a threshold fraction that is not valid the score of a non-empty
    inclusion vector is not computed: the first tip fails the assertion of
    [IsCoverageAboveThreshold].  (The empty vector gives zeros whatever the
    fraction.) *)
Theorem CalcTxInclusionScore_invalid_fraction
    (inclusion : TxInclusion) (n d : Z) :
  multistate.ValidInclusionThresholdFraction n d = false ->
  Inclusion inclusion <> [] ->
  CalcTxInclusionScore inclusion n d
  = Panic "IsCoverageAboveThreshold: fraction is wrong".
Proof.
  intros Hv Hne. unfold CalcTxInclusionScore.
  destruct (Inclusion inclusion) as [|x l]; [congruence|].
  cbn [length Nat.eqb loop loopBody].
  unfold multistate.IsCoverageAboveThreshold. rewrite Hv.
  destruct (Included x); reflexivity.
Qed.

Lemma countIf_all (f : RootInclusion -> bool) (l : list RootInclusion) :
  Forall (fun x => f x = true) l -> countIf f l = Z.of_nat (length l).
Proof.
  induction 1 as [|x l Hx _ IH]; [reflexivity|].
  rewrite apiProps.countIf_cons, Hx, IH. cbn [length]. lia.
Qed.

Lemma countIf_none (f : RootInclusion -> bool) (l : list RootInclusion) :
  Forall (fun x => f x = false) l -> countIf f l = 0.
Proof.
  induction 1 as [|x l Hx _ IH]; [reflexivity|].
  rewrite apiProps.countIf_cons, Hx, IH. reflexivity.
Qed.

Lemma countIf_le (f g : RootInclusion -> bool) (l : list RootInclusion) :
  (forall x, f x = true -> g x = true) -> countIf f l <= countIf g l.
Proof.
  intros Hfg. induction l as [|x l IH]; [reflexivity|].
  rewrite !apiProps.countIf_cons. pose proof (Hfg x) as Hx.
  destruct (f x), (g x); try lia; discriminate (Hx eq_refl).
Qed.

(** X19.  Both scores are percentages; the weak score is 100 when every tip
    includes the transaction, and both are 0 when none does. *)
Theorem CalcTxInclusionScore_percent
    (inclusion : TxInclusion) (n d : Z) (score : TxInclusionScore) :
  multistate.ValidInclusionThresholdFraction n d = true ->
  100 * Z.of_nat (length (Inclusion inclusion)) <= int_max ->
  CalcTxInclusionScore inclusion n d = Ok score ->
  0 <= WeakScore score <= 100 /\ 0 <= StrongScore score <= 100 /\
  (Inclusion inclusion <> [] ->
   Forall (fun x => Included x = true) (Inclusion inclusion) ->
   WeakScore score = 100) /\
  (Forall (fun x => Included x = false) (Inclusion inclusion) ->
   WeakScore score = 0 /\ StrongScore score = 0).
Proof.
  intros Hv Hlen. unfold CalcTxInclusionScore.
  destruct (Inclusion inclusion) as [|x l] eqn:El.
  { cbn. intros H. apply Ok_inj in H. subst score. cbn.
    repeat split; try lia. congruence. }
  destruct (Z.eq_dec (uint64_of_int d) 0) as [Hd0|Hd0].
  { cbn [length Nat.eqb].
    rewrite (apiProps.loop_zero_divisor n d (0, 0, 0) x l Hv Hd0).
    cbn [mbind outcome_bind Go.bind]. intros H. discriminate H. }
  set (xs := x :: l) in *.
  assert (Hpos : 0 < Z.of_nat (length xs)) by (subst xs; cbn [length]; lia).
  destruct (Nat.eqb_spec (length xs) 0) as [E0|_]; [lia|].
  unfold int_max in Hlen.
  rewrite apiProps.loop_counts by (auto; unfold int_max; lia).
  cbn [mbind outcome_bind Go.bind mret outcome_ret].
  rewrite !Z.add_0_l.
  pose proof (apiProps.countIf_bounds Included xs) as Hi.
  pose proof (apiProps.countIf_bounds (dominating n d) xs) as Hd.
  pose proof (apiProps.countIf_bounds (fun x => dominating n d x && Included x) xs) as Hdi.
  assert (Hdd : countIf (fun x => dominating n d x && Included x) xs
                <= countIf (dominating n d) xs).
  { apply countIf_le. intros y Hy. apply andb_true_iff in Hy. tauto. }
  intros H. apply Ok_inj in H. subst score. cbn [WeakScore StrongScore].
  rewrite !wrap_int_small by (unfold is_int, int_min, int_max; lia).
  assert (Hw : Z.quot (countIf Included xs * 100) (Z.of_nat (length xs))
               = countIf Included xs * 100 / Z.of_nat (length xs))
    by (apply Z.quot_div_nonneg; lia).
  rewrite Hw.
  assert (Hs : 0 < countIf (dominating n d) xs ->
     Z.quot (countIf (fun x => dominating n d x && Included x) xs * 100)
            (countIf (dominating n d) xs)
     = countIf (fun x => dominating n d x && Included x) xs * 100
       / countIf (dominating n d) xs)
    by (intros; apply Z.quot_div_nonneg; lia).
  split; [|split; [|split]].
  - split; [apply Z.div_pos; lia|].
    apply Z.div_le_upper_bound; lia.
  - destruct (Z.ltb_spec 0 (countIf (dominating n d) xs)) as [Hp|Hp]; [|lia].
    rewrite (Hs Hp). split; [apply Z.div_pos; lia|].
    apply Z.div_le_upper_bound; lia.
  - intros _ Hall. rewrite (countIf_all Included xs Hall).
    rewrite Z.mul_comm. apply Z.div_mul. lia.
  - intros Hnone. rewrite (countIf_none Included xs Hnone).
    rewrite (countIf_none (fun x => dominating n d x && Included x) xs).
    + split; [reflexivity|].
      destruct (Z.ltb_spec 0 (countIf (dominating n d) xs)); [|reflexivity].
      cbn. apply Z.quot_0_l. lia.
    + eapply Forall_impl; [exact Hnone|]. cbn. intros y ->. apply andb_false_r.
Qed.

End WithSerialization.

(** The fraction 2/1 on one tip. *)
Lemma CalcTxInclusionScore_invalid_fraction_witness :
  CalcTxInclusionScore
    (mkTxInclusion 9 7 [mkRootInclusion (reference.sampleRecord 1500 1000) true])
    2 1
  = Panic "IsCoverageAboveThreshold: fraction is wrong".
Proof.
  apply CalcTxInclusionScore_invalid_fraction.
  - reflexivity.
  - discriminate.
Defined.

(** Two dominating tips, one of which includes the transaction: both scores are 50. *)
Lemma CalcTxInclusionScore_percent_witness :
  0 <= WeakScore (mkTxInclusionScore 1 2 9 7 50 50) <= 100 /\
  0 <= StrongScore (mkTxInclusionScore 1 2 9 7 50 50) <= 100.
Proof.
  destruct (CalcTxInclusionScore_percent
              (mkTxInclusion 9 7
                 [ mkRootInclusion (reference.sampleRecord 1500 1000) true;
                   mkRootInclusion (reference.sampleRecord 1500 1000) false ])
              1 2 (mkTxInclusionScore 1 2 9 7 50 50)) as (Hw & Hs & _).
  - reflexivity.
  - cbn. unfold int_max. lia.
  - vm_compute. reflexivity.
  - split; assumption.
Defined.

End apiMoreProps.

(** ** Package [api]: sequencer statistics *)

Module apiStatsProps.
Import apiStats.

Lemma firstNonZero_cons_balance (b0 a : Z) (rest : list Z) :
  (if (if b0 =? 0 then a else b0) =? 0 then firstNonZero rest
   else (if b0 =? 0 then a else b0))
  = if b0 =? 0 then firstNonZero (a :: rest) else b0.
Proof.
  cbn [firstNonZero].
  destruct (Z.eqb_spec b0 0) as [->|Hb]; [reflexivity|].
  destruct (Z.eqb_spec b0 0); [contradiction|reflexivity].
Qed.

Lemma statsLoop_spec (mainBranches : list BranchData) (sequStat : SequStat) :
  exists stat : SequStat,
    statsLoop sequStat (Some <$> mainBranches) = Ok stat /\
    forall seq : string,
      let won := wonBy seq mainBranches in
      let sd0 := default zeroStatistic (sequStat !! seq) in
      (won = [] -> stat !! seq = sequStat !! seq) /\
      (won <> [] ->
       exists sd : SequencerStatistic,
         stat !! seq = Some sd /\
         Wins sd = (Wins sd0 + Z.of_nat (length won)) mod uint32_mod /\
         OnChainBalance sd
         = if OnChainBalance sd0 =? 0 then firstNonZero (Amount <$> won)
           else OnChainBalance sd0).
Proof.
  revert sequStat. induction mainBranches as [|bd l IH]; intros sequStat.
  - exists sequStat. split; [reflexivity|]. intros seq. cbn. split; [auto|congruence].
  - cbn [fmap list_fmap statsLoop statsBody mbind outcome_bind Go.bind mret outcome_ret].
    set (sd0 := default zeroStatistic (sequStat !! SequencerIDString bd)).
    set (sd1 := mkSequencerStatistic _ _ _).
    destruct (IH (<[SequencerIDString bd := sd1]> sequStat)) as (stat & Hrun & Hspec).
    exists stat. split; [exact Hrun|]. intros seq.
    specialize (Hspec seq). cbn zeta in Hspec. destruct Hspec as [Hnil Hcons].
    cbn [wonBy List.filter]. fold (wonBy seq l).
    destruct (String.eqb_spec (SequencerIDString bd) seq) as [<-|Hne].
    + rewrite lookup_insert_eq in Hnil, Hcons. cbn [default from_option id] in Hcons.
      fold sd0. split; [discriminate|]. intros _.
      destruct (wonBy (SequencerIDString bd) l) as [|b w] eqn:Ew.
      * exists sd1. split; [apply Hnil; reflexivity|].
        subst sd1. cbn [Wins OnChainBalance length fmap list_fmap firstNonZero].
        split; [reflexivity|].
        destruct (Z.eqb_spec (OnChainBalance sd0) 0); [|reflexivity].
        destruct (Z.eqb_spec (Amount bd) 0); congruence.
      * destruct (Hcons ltac:(discriminate)) as (sd & Hsd & Hw & Hb).
        exists sd. split; [exact Hsd|]. split.
        -- rewrite Hw. subst sd1. cbn [Wins].
           rewrite Zplus_mod_idemp_l. f_equal. cbn [length]. lia.
        -- rewrite Hb. subst sd1. cbn [OnChainBalance].
           change (Amount <$> bd :: b :: w) with (Amount bd :: (Amount <$> b :: w)).
           apply firstNonZero_cons_balance.
    + rewrite lookup_insert_ne in Hnil, Hcons by assumption.
      split; assumption.
Qed.

(** X20.  [GetSequencerStatistics] counts, for every sequencer, the branches of
    the chain it won, as a [uint32], and reports as its balance the first
    amount on its sequencer outputs that is not zero; a sequencer that won
    no branch is not in the map. *)
Theorem GetSequencerStatistics_spec (mainBranches : list BranchData) (seq : string) :
  exists stat : SequStat,
    GetSequencerStatistics (Some <$> mainBranches) = Ok stat /\
    (wonBy seq mainBranches = [] -> stat !! seq = None) /\
    (wonBy seq mainBranches <> [] ->
     exists sd : SequencerStatistic,
       stat !! seq = Some sd /\
       Wins sd = Z.of_nat (length (wonBy seq mainBranches)) mod uint32_mod /\
       OnChainBalance sd = firstNonZero (Amount <$> wonBy seq mainBranches)).
Proof.
  destruct (statsLoop_spec mainBranches ∅) as (stat & Hrun & Hspec).
  exists stat. split; [exact Hrun|].
  specialize (Hspec seq). cbn zeta in Hspec. rewrite lookup_empty in Hspec.
  exact Hspec.
Qed.

(** X21.  A nil branch in the chain (the chain of a store without latest
    branches holds one) makes [GetSequencerStatistics] panic. *)
Theorem GetSequencerStatistics_nil (mainBranches : list (option BranchData)) :
  None ∈ mainBranches ->
  GetSequencerStatistics mainBranches = Panic "nil pointer dereference".
Proof.
  unfold GetSequencerStatistics. generalize (∅ : SequStat).
  induction mainBranches as [|bd l IH]; intros m Hin.
  - inversion Hin.
  - cbn [statsLoop]. destruct bd as [bd|]; [|reflexivity].
    cbn [statsBody mbind outcome_bind Go.bind mret outcome_ret].
    apply IH. inversion Hin; subst; try discriminate; assumption.
Qed.

(** A chain of three branches, two of them won by A with the amounts 0 and 7. *)
Lemma GetSequencerStatistics_spec_witness :
  exists (stat : SequStat) (sd : SequencerStatistic),
    GetSequencerStatistics
      (Some <$> [ mkBranchData "A" 0 None; mkBranchData "B" 5 (Some "b"%string);
                  mkBranchData "A" 7 None ]) = Ok stat /\
    stat !! "A"%string = Some sd /\ Wins sd = 2 /\ OnChainBalance sd = 7.
Proof.
  destruct (GetSequencerStatistics_spec
              [ mkBranchData "A" 0 None; mkBranchData "B" 5 (Some "b"%string);
                mkBranchData "A" 7 None ] "A"%string)
    as (stat & Hrun & _ & Hwon).
  destruct Hwon as (sd & Hsd & Hwins & Hbal); [discriminate|].
  exists stat, sd. repeat split; assumption.
Defined.

(** The chain that holds only a nil branch. *)
Lemma GetSequencerStatistics_nil_witness :
  GetSequencerStatistics [None] = Panic "nil pointer dereference".
Proof.
  apply GetSequencerStatistics_nil. apply list_elem_of_here.
Defined.

End apiStatsProps.

(** ** Package [backlog]: references held by the input backlog *)

Module backlogProps.
Import backlog.

Lemma set_references_twice (vid : vertex.WrappedTx) (n m : Z) :
  vertex.set_references n (vertex.set_references m vid)
  = vertex.set_references n vid.
Proof. reflexivity. Qed.

Section WithVertex.
Variable FlagVertexDefined : vertex.Flags.
Variable IsBranchTransaction : bytes -> bool.
Variable Output : Type.
Variable _outputAt : vertex.WrappedTx -> Z -> outcome (option Output).
Variable ChainConstraintIndex : Output -> Z.

Abbreviation check :=
  (checkAndReferenceCandidate FlagVertexDefined IsBranchTransaction Output
     _outputAt ChainConstraintIndex).

Lemma unreference_inv (h h' : heap) (a : addr) :
  unreference h a = Ok h' ->
  exists vid : vertex.WrappedTx,
    h !! a = Some vid /\ 0 < vertex.references vid /\
    h' = <[a := vertex.set_references (vertex.references vid - 1) vid]> h.
Proof.
  unfold unreference, tippool.deref.
  destruct (h !! a) as [vid|]; cbn [mbind outcome_bind Go.bind]; [|discriminate].
  destruct (vertex.UnReference vid) as [vid'| |] eqn:E;
    cbn [mbind outcome_bind Go.bind mret outcome_ret]; try discriminate.
  apply tippoolMoreProps.UnReference_inv in E. destruct E as [Hpos ->].
  intros H. apply Ok_inj in H. subst h'. exists vid. auto.
Qed.

(** Releasing the reference just taken restores the heap. *)
Lemma unreference_undo (h h' : heap) (a : addr) (vid : vertex.WrappedTx) :
  h !! a = Some vid ->
  unreference
    (<[a := vertex.set_references (vertex.references vid + 1) vid]> h) a = Ok h' ->
  h' = h.
Proof.
  intros Hvid H. apply unreference_inv in H.
  destruct H as (v & Hv & _ & ->).
  rewrite lookup_insert_eq in Hv. apply (inj Some) in Hv. subst v.
  rewrite insert_insert_eq. rewrite set_references_twice.
  cbn [vertex.references vertex.set_references].
  replace (vertex.references vid + 1 - 1) with (vertex.references vid) by lia.
  rewrite vertexMoreProps.set_references_id by reflexivity.
  apply insert_id. exact Hvid.
Qed.

Lemma check_cases (h h' : heap) (wOut : WrappedOutput) (ok : bool) :
  check h wOut = Ok (ok, h') ->
  exists vid : vertex.WrappedTx,
    h !! wOut.1 = Some vid /\
    if ok then
      IsBranchTransaction (vertex.ID vid) = false /\
      vertex.wrapper vid <> vertex._deletedTx /\
      vertex.references vid <> 0 /\
      h' = <[wOut.1 := vertex.set_references (vertex.references vid + 1) vid]> h
    else h' = h.
Proof.
  unfold checkAndReferenceCandidate, tippool.deref.
  destruct (h !! wOut.1) as [vid|] eqn:Hvid; cbn [mbind outcome_bind Go.bind];
    [|discriminate].
  intros H. exists vid. split; [reflexivity|]. revert H.
  destruct (IsBranchTransaction (vertex.ID vid)) eqn:Hbr.
  { intros H. apply Ok_inj in H. injection H as <- <-. reflexivity. }
  destruct (vertex.Reference vid) as [[b vid']| |] eqn:Href;
    cbn [mbind outcome_bind Go.bind mret outcome_ret]; try discriminate.
  apply tippoolMoreProps.Reference_inv in Href.
  destruct Href as [(-> & -> & Hz)|(-> & Hnz & Hmax & ->)]; cbn [negb].
  { intros H. apply Ok_inj in H. injection H as <- <-. reflexivity. }
  assert (Hundo : forall h1,
    unreference
      (<[wOut.1 := vertex.set_references (vertex.references vid + 1) vid]> h)
      wOut.1 ≫= (fun h0 => mret (false, h0)) = Ok (ok, h1) ->
    if ok then False else h1 = h).
  { intros h1. destruct (unreference _ _) as [h2| |] eqn:Eu;
      cbn [mbind outcome_bind Go.bind mret outcome_ret]; try discriminate.
    intros H. apply Ok_inj in H. injection H as <- <-.
    exact (unreference_undo h h2 wOut.1 vid Hvid Eu). }
  destruct (vertex.GetTxStatusNoLock _ _) as [st| |];
    cbn [mbind outcome_bind Go.bind mret outcome_ret]; try discriminate.
  case_bool_decide as Hbad.
  { intros H. apply Hundo in H. destruct ok; [contradiction|exact H]. }
  unfold OutputAt.
  replace (vertex.wrapper (vertex.set_references (vertex.references vid + 1) vid))
    with (vertex.wrapper vid) by reflexivity.
  assert (Hlive : forall o,
    (match o with
     | Some o0 =>
         if negb (ChainConstraintIndex o0 =? 255)
         then unreference
                (<[wOut.1 := vertex.set_references (vertex.references vid + 1) vid]> h)
                wOut.1 ≫= (fun h0 => mret (false, h0))
         else mret (true, <[wOut.1 := vertex.set_references (vertex.references vid + 1) vid]> h)
     | None => mret (true, <[wOut.1 := vertex.set_references (vertex.references vid + 1) vid]> h)
     end) = Ok (ok, h') ->
    if ok then
      h' = <[wOut.1 := vertex.set_references (vertex.references vid + 1) vid]> h
    else h' = h).
  { intros [o|]; [destruct (negb _)|].
    - intros H. apply Hundo in H. destruct ok; [contradiction|exact H].
    - intros H. apply Ok_inj in H. injection H as <- <-. reflexivity.
    - intros H. apply Ok_inj in H. injection H as <- <-. reflexivity. }
  destruct (vertex.wrapper vid) eqn:Hw.
  - destruct (_outputAt _ _) as [o| |]; try discriminate.
    + intros H. apply Hlive in H. destruct ok; [|exact H].
      repeat split; try assumption. discriminate.
    + intros H. apply Hundo in H. destruct ok; [contradiction|exact H].
  - destruct (_outputAt _ _) as [o| |]; try discriminate.
    + intros H. apply Hlive in H. destruct ok; [|exact H].
      repeat split; try assumption. discriminate.
    + intros H. apply Hundo in H. destruct ok; [contradiction|exact H].
  - intros H. apply Hundo in H. destruct ok; [contradiction|exact H].
Qed.

(** X22.  [checkAndReferenceCandidate] holds one reference on the vertex when it
    answers true and none when it answers false: every path that gives up
    after taking the reference releases it, so the heap is then as it was.
    Outputs of branch transactions, of vertices without references and of
    deleted transactions are never accepted. *)
Theorem checkAndReferenceCandidate_balance
    (h h' : heap) (wOut : WrappedOutput) (ok : bool) :
  check h wOut = Ok (ok, h') ->
  exists vid : vertex.WrappedTx,
    h !! wOut.1 = Some vid /\
    if ok then
      IsBranchTransaction (vertex.ID vid) = false /\
      vertex.wrapper vid <> vertex._deletedTx /\
      vertex.references vid <> 0 /\
      h' = <[wOut.1 := vertex.set_references (vertex.references vid + 1) vid]> h
    else h' = h.
Proof. apply check_cases. Qed.

Lemma refs_insert (h : heap) (a a' : addr) (vid : vertex.WrappedTx) :
  refs (<[a := vid]> h) a'
  = if decide (a' = a) then vertex.references vid else refs h a'.
Proof.
  unfold refs. destruct (decide (a' = a)) as [->|Hne].
  - rewrite lookup_insert_eq. reflexivity.
  - rewrite lookup_insert_ne by congruence. reflexivity.
Qed.

Lemma held_insert (outs : gmap WrappedOutput Z) (k : WrappedOutput) (t : Z)
    (a : addr) :
  outs !! k = None ->
  held (<[k := t]> outs) a = held outs a + (if decide (k.1 = a) then 1 else 0).
Proof.
  intros Hk. unfold held.
  destruct (decide (k.1 = a)) as [E|E].
  - rewrite map_filter_insert_True by exact E.
    rewrite map_size_insert_None; [lia|].
    apply map_lookup_filter_None. left. exact Hk.
  - rewrite map_filter_insert_not by (intros y; exact E). lia.
Qed.

Lemma held_delete (outs : gmap WrappedOutput Z) (k : WrappedOutput) (t : Z)
    (a : addr) :
  outs !! k = Some t ->
  held (delete k outs) a = held outs a - (if decide (k.1 = a) then 1 else 0).
Proof.
  intros Hk. unfold held. rewrite map_filter_delete.
  destruct (decide (k.1 = a)) as [E|E].
  - assert (Hf : filter (fun kv : WrappedOutput * Z => kv.1.1 = a) outs !! k = Some t)
      by (apply map_lookup_filter_Some; auto).
    pose proof (map_size_delete_Some k _ (mk_is_Some _ _ Hf)) as Hs.
    assert (size (filter (fun kv : WrappedOutput * Z => kv.1.1 = a) outs) <> 0%nat).
    { intros E0. apply map_size_empty_iff in E0. rewrite E0 in Hf.
      rewrite lookup_empty in Hf. discriminate Hf. }
    lia.
  - rewrite delete_id; [lia|].
    apply map_lookup_filter_None. right. intros y _. exact E.
Qed.

Abbreviation listen :=
  (listener FlagVertexDefined IsBranchTransaction Output _outputAt
     ChainConstraintIndex).

(** X23.  The backlog holds one reference for every output it stores: whatever
    the listener does with an arriving output, for every vertex the number
    of its references less the number of its outputs in the backlog stays
    the same.  An output that is already stored is not stored again and
    keeps its time of arrival. *)
Theorem listener_balance (nowis : Z) (wOut : WrappedOutput)
    (h h' : heap) (b b' : InputBacklog) :
  listen nowis wOut (h, b) = Ok (h', b') ->
  (forall a : addr,
     refs h' a - held (outputs b') a = refs h a - held (outputs b) a) /\
  (outputs b' = outputs b \/
   outputs b !! wOut = None /\ outputs b' = <[wOut := nowis]> (outputs b)).
Proof.
  unfold listener.
  destruct (check h wOut) as [[ok h1]| |] eqn:Hc;
    cbn [mbind outcome_bind Go.bind mret outcome_ret]; try discriminate.
  apply check_cases in Hc. destruct Hc as (vid & Hvid & Hc).
  destruct ok; cbn [negb].
  2:{ subst h1. intros H. apply Ok_inj in H. injection H as <- <-. auto. }
  destruct Hc as (_ & _ & _ & ->).
  destruct (outputs b !! wOut) as [t|] eqn:Hout.
  - destruct (unreference _ _) as [h2| |] eqn:Eu;
      cbn [mbind outcome_bind Go.bind mret outcome_ret]; try discriminate.
    apply (unreference_undo h h2 wOut.1 vid Hvid) in Eu. subst h2.
    intros H. apply Ok_inj in H. injection H as <- <-. auto.
  - intros H. apply Ok_inj in H. injection H as <- <-. cbn [outputs].
    split; [|right; auto].
    intros a. rewrite refs_insert, (held_insert _ _ _ _ Hout).
    cbn [vertex.references vertex.set_references].
    destruct (decide (a = wOut.1)) as [->|Hne].
    + rewrite decide_True by reflexivity.
      unfold refs. rewrite Hvid. cbn. lia.
    + rewrite decide_False by congruence. lia.
Qed.

Lemma purgeLoop_spec (toDelete : list WrappedOutput) :
  forall (h h' : heap) (outs outs' : gmap WrappedOutput Z),
  NoDup toDelete ->
  (forall k, k ∈ toDelete -> is_Some (outs !! k)) ->
  purgeLoop toDelete (h, outs) = Ok (h', outs') ->
  (forall a : addr, refs h' a - held outs' a = refs h a - held outs a) /\
  (forall k, outs' !! k = if decide (k ∈ toDelete) then None else outs !! k).
Proof.
  induction toDelete as [|k rest IH]; intros h h' outs outs' Hnd Hin.
  - cbn. intros H. apply Ok_inj in H. injection H as <- <-.
    split; [reflexivity|]. intros k. rewrite decide_False; [reflexivity|].
    apply not_elem_of_nil.
  - cbn [purgeLoop fst snd].
    destruct (unreference h k.1) as [h1| |] eqn:Eu;
      cbn [mbind outcome_bind Go.bind]; try discriminate.
    apply unreference_inv in Eu. destruct Eu as (vid & Hvid & Hpos & ->).
    apply NoDup_cons in Hnd as [Hk Hnd].
    destruct (Hin k ltac:(left)) as [t Ht].
    intros Hrest. apply IH in Hrest; [|exact Hnd|].
    2:{ intros k' Hk'. rewrite lookup_delete_ne by (intros ->; contradiction).
        apply Hin. right. exact Hk'. }
    destruct Hrest as [Hbal Hlook]. split.
    + intros a. rewrite Hbal, refs_insert, (held_delete _ _ _ _ Ht).
      cbn [vertex.references vertex.set_references].
      destruct (decide (a = k.1)) as [->|Hne].
      * rewrite decide_True by reflexivity. unfold refs. rewrite Hvid. cbn. lia.
      * rewrite decide_False by congruence. lia.
    + intros k'. rewrite Hlook.
      destruct (decide (k' ∈ rest)) as [Hr|Hr].
      * rewrite decide_True by (right; exact Hr). reflexivity.
      * destruct (decide (k' = k)) as [->|Hne].
        -- rewrite decide_True by left. apply lookup_delete_eq.
        -- rewrite lookup_delete_ne by congruence.
           rewrite decide_False; [reflexivity|].
           intros Hc. apply elem_of_cons in Hc as [?|?]; contradiction.
Qed.

(** X24.  [purgeBacklog] removes exactly the outputs that arrived before the
    horizon, releases one reference for each of them and returns their
    number; the balance of references and stored outputs of every vertex
    is kept. *)
Theorem purgeBacklog_balance (now ttl n : Z)
    (h h' : heap) (b b' : InputBacklog) :
  purgeBacklog now ttl (h, b) = Ok (n, (h', b')) ->
  (forall a : addr,
     refs h' a - held (outputs b') a = refs h a - held (outputs b) a) /\
  outputs b' = filter (fun kv => ~ kv.2 < now - ttl) (outputs b) /\
  n = Z.of_nat (size (filter (fun kv => kv.2 < now - ttl) (outputs b))).
Proof.
  unfold purgeBacklog.
  set (expired := filter (fun kv : WrappedOutput * Z => kv.2 < now - ttl) (outputs b)).
  destruct (purgeLoop _ _) as [[h1 outs]| |] eqn:Hp;
    cbn [mbind outcome_bind Go.bind mret outcome_ret]; try discriminate.
  intros H. apply Ok_inj in H. injection H as <- <- <-. cbn [outputs].
  apply purgeLoop_spec in Hp.
  - destruct Hp as [Hbal Hlook]. split; [exact Hbal|]. split.
    + apply map_eq. intros k. rewrite Hlook.
      destruct (decide (k ∈ (map_to_list expired).*1)) as [Hk|Hk].
      * symmetry. apply map_lookup_filter_None. right. intros t Ht Hnot.
        apply list_elem_of_fmap in Hk as ([k' t'] & -> & Hk).
        apply elem_of_map_to_list in Hk.
        apply map_lookup_filter_Some in Hk as [Hk Hexp].
        cbn in *. rewrite Hk in Ht. apply (inj Some) in Ht. subst t'. lia.
      * destruct (outputs b !! k) as [t|] eqn:Ht.
        -- symmetry. apply map_lookup_filter_Some. split; [exact Ht|].
           cbn. intros Hexp. apply Hk.
           apply list_elem_of_fmap. exists (k, t). split; [reflexivity|].
           apply elem_of_map_to_list. apply map_lookup_filter_Some. auto.
        -- symmetry. apply map_lookup_filter_None. left. exact Ht.
    + rewrite length_fmap, length_map_to_list. reflexivity.
  - apply NoDup_fst_map_to_list.
  - intros k Hk. apply list_elem_of_fmap in Hk as ([k' t'] & -> & Hk).
    apply elem_of_map_to_list in Hk.
    apply map_lookup_filter_Some in Hk as [Hk _]. eauto.
Qed.

End WithVertex.

(** Output 0 of the vertex at address 2 of the sample heap is accepted. *)
Lemma checkAndReferenceCandidate_balance_witness :
  exists vid : vertex.WrappedTx,
    tippool.sampleHeap !! 2%positive = Some vid /\
    vertex.wrapper vid <> vertex._deletedTx /\ vertex.references vid <> 0.
Proof.
  destruct (checkAndReferenceCandidate_balance 1 (fun _ => false) unit
              sampleOutputAt (fun _ => 255) tippool.sampleHeap
              (<[2%positive := tippool.sampleMilestone 3 20 x00 400 2]>
                 tippool.sampleHeap)
              (2%positive, 0) true) as (vid & Hvid & _ & Hw & Hr & _).
  - reflexivity.
  - exists vid. auto.
Defined.

(** A new output of the vertex at address 2 arrives at time 9. *)
Lemma listener_balance_witness :
  refs (<[2%positive := tippool.sampleMilestone 3 20 x00 400 2]> tippool.sampleHeap)
       2%positive
  - held (<[(2%positive, 0) := 9]> (outputs sampleBacklog)) 2%positive
  = refs tippool.sampleHeap 2%positive - held (outputs sampleBacklog) 2%positive.
Proof.
  apply (proj1 (listener_balance 1 (fun _ => false) unit sampleOutputAt
                  (fun _ => 255) 9 (2%positive, 0) tippool.sampleHeap
                  (<[2%positive := tippool.sampleMilestone 3 20 x00 400 2]>
                     tippool.sampleHeap)
                  sampleBacklog
                  (mkInputBacklog (<[(2%positive, 0) := 9]> (outputs sampleBacklog))
                     2 0 9)
                  ltac:(reflexivity)) 2%positive).
Defined.

(** At time 100 with a time to live of 10 the output stored at time 5 is purged. *)
Lemma purgeBacklog_balance_witness :
  refs (<[1%positive := tippool.sampleMilestone 3 10 x00 500 1]> tippool.sampleHeap)
       1%positive
  - held (delete (1%positive, 0) (outputs sampleBacklog)) 1%positive
  = refs tippool.sampleHeap 1%positive - held (outputs sampleBacklog) 1%positive.
Proof.
  apply (proj1 (purgeBacklog_balance 100 10 1 tippool.sampleHeap
                  (<[1%positive := tippool.sampleMilestone 3 10 x00 500 1]>
                     tippool.sampleHeap)
                  sampleBacklog
                  (mkInputBacklog (delete (1%positive, 0) (outputs sampleBacklog))
                     1 0 5)
                  ltac:(reflexivity)) 1%positive).
Defined.

End backlogProps.

(** ** Package [syncmgr] *)

Module syncmgrProps.
Import syncmgr.

(** X25.  After a portion was pulled, and as long as the latest slot in the
    database has not moved, [checkSync] pulls nothing before the deadline of
    five seconds and pulls the same portion again once the deadline is
    reached; the slot up to which the portion is awaited is never beyond
    the current slot. *)
Theorem checkSync_repeats_after_deadline
    (d d1 : SyncManager) (latest slotNow now : Z) (pull : Z * Z) :
  0 <= syncToleranceThresholdSlots d ->
  1 <= syncPortionSlots d ->
  0 <= latest -> latest + syncPortionSlots d < uint32_mod ->
  checkSync d latest slotNow now = Ok (d1, Some pull) ->
  pull = (latest, syncPortionSlots d) /\
  latest < syncPortionRequestedAtLeastUntilSlot d1 <= slotNow /\
  forall slotNow' now' : Z,
    slotNow <= slotNow' ->
    checkSync d1 latest slotNow' now'
    = if now' <? now + portionExpectedIn then Ok (d1, None)
      else Ok (mkSyncManager (syncPortionSlots d) (syncToleranceThresholdSlots d)
                 (if slotNow' <? latest + syncPortionSlots d then slotNow'
                  else latest + syncPortionSlots d)
                 (Some (now' + portionExpectedIn)) latest,
               Some pull).
Proof.
  intros Htol Hportion Hlatest Hfit. unfold checkSync.
  cbn [syncPortionSlots syncToleranceThresholdSlots
       syncPortionRequestedAtLeastUntilSlot syncPortionDeadline latestSlotInDB].
  destruct (Z.leb_spec latest slotNow) as [Hle|Hle];
    cbn [Assertf mbind outcome_bind Go.bind mret outcome_ret]; [|discriminate].
  destruct (Z.leb_spec (slotNow - latest) (syncToleranceThresholdSlots d))
    as [Hb|Hb]; [discriminate|].
  match goal with
  | |- context [if ?c then mret (_, None) else _] => destruct c
  end; [discriminate|].
  assert (Hp : syncPortionSlots d mod uint32_mod = syncPortionSlots d).
  { apply Z.mod_small. unfold uint32_mod in *. lia. }
  assert (Hr : (latest + syncPortionSlots d) mod uint32_mod
               = latest + syncPortionSlots d).
  { apply Z.mod_small. unfold uint32_mod in *. lia. }
  rewrite Hp, Hr.
  intros H. apply Ok_inj in H. injection H as <- <-.
  cbn [syncPortionSlots syncToleranceThresholdSlots
       syncPortionRequestedAtLeastUntilSlot syncPortionDeadline latestSlotInDB].
  split; [reflexivity|]. split.
  { destruct (Z.ltb_spec slotNow (latest + syncPortionSlots d)); lia. }
  intros slotNow' now' Hnow.
  destruct (Z.leb_spec latest slotNow') as [_|?]; [|lia].
  cbn [Assertf mbind outcome_bind Go.bind mret outcome_ret].
  destruct (Z.leb_spec (slotNow' - latest) (syncToleranceThresholdSlots d));
    [lia|].
  assert (Hreq : (latest <? (if slotNow <? latest + syncPortionSlots d
                             then slotNow else latest + syncPortionSlots d)) = true).
  { apply Z.ltb_lt. destruct (Z.ltb_spec slotNow (latest + syncPortionSlots d)); lia. }
  rewrite Hreq. cbn [andb].
  destruct (now' <? now + portionExpectedIn); [reflexivity|].
  rewrite Hp, Hr. reflexivity.
Qed.

(** X26.  [IgnoreFutureTxID] applies the threshold of [checkSync] to the slot
    cached by it: after a check, a transaction of the current slot is
    ignored exactly when the check found the node behind by more than the
    tolerance. *)
Theorem IgnoreFutureTxID_checkSync
    (d d1 : SyncManager) (latest slotNow now : Z) (pull : option (Z * Z)) :
  0 <= syncToleranceThresholdSlots d ->
  checkSync d latest slotNow now = Ok (d1, pull) ->
  latestSlotInDB d1 = latest /\
  IgnoreFutureTxID d1 slotNow
  = negb (slotNow - latest <=? syncToleranceThresholdSlots d) /\
  (IgnoreFutureTxID d1 slotNow = false ->
   pull = None /\ syncPortionRequestedAtLeastUntilSlot d1 = 0 /\
   syncPortionDeadline d1 = None).
Proof.
  intros Htol. unfold checkSync, IgnoreFutureTxID.
  cbn [syncPortionSlots syncToleranceThresholdSlots
       syncPortionRequestedAtLeastUntilSlot syncPortionDeadline latestSlotInDB].
  destruct (Z.leb_spec latest slotNow) as [Hle|Hle];
    cbn [Assertf mbind outcome_bind Go.bind mret outcome_ret]; [|discriminate].
  destruct (Z.leb_spec (slotNow - latest) (syncToleranceThresholdSlots d))
    as [Hb|Hb].
  - intros H. apply Ok_inj in H. injection H as <- <-.
    cbn [syncPortionSlots syncToleranceThresholdSlots
         syncPortionRequestedAtLeastUntilSlot syncPortionDeadline latestSlotInDB negb].
    split; [reflexivity|]. split; [|auto].
    destruct (Z.ltb_spec latest slotNow); [|reflexivity].
    destruct (Z.ltb_spec (syncToleranceThresholdSlots d) (slotNow - latest));
      [lia|reflexivity].
  - assert (Hig : (latest <? slotNow)
                  && (syncToleranceThresholdSlots d <? slotNow - latest) = true).
    { apply andb_true_iff. rewrite !Z.ltb_lt. lia. }
    match goal with
    | |- context [if ?c then mret (_, None) else _] => destruct c
    end; intros H; apply Ok_inj in H; injection H as <- <-;
      cbn [syncPortionSlots syncToleranceThresholdSlots
           syncPortionRequestedAtLeastUntilSlot syncPortionDeadline latestSlotInDB negb];
      rewrite Hig; (split; [reflexivity|]); (split; [reflexivity|]); discriminate.
Qed.

(** A portion of 10 slots pulled at slot 100 of 200; a check one nanosecond later pulls nothing. *)
Lemma checkSync_repeats_after_deadline_witness :
  checkSync (mkSyncManager 10 2 110 (Some portionExpectedIn) 100) 100 200 1
  = Ok (mkSyncManager 10 2 110 (Some portionExpectedIn) 100, None).
Proof.
  destruct (checkSync_repeats_after_deadline (mkSyncManager 10 2 0 None 0)
              (mkSyncManager 10 2 110 (Some portionExpectedIn) 100)
              100 200 0 (100, 10)) as (_ & _ & H).
  - simpl. lia.
  - simpl. lia.
  - lia.
  - unfold uint32_mod. simpl. lia.
  - reflexivity.
  - exact (H 200 1 ltac:(lia)).
Defined.

(** A hundred slots behind with a tolerance of 2: transactions of the current slot are ignored. *)
Lemma IgnoreFutureTxID_checkSync_witness :
  IgnoreFutureTxID (mkSyncManager 10 2 110 (Some portionExpectedIn) 100) 200 = true.
Proof.
  destruct (IgnoreFutureTxID_checkSync (mkSyncManager 10 2 0 None 0)
              (mkSyncManager 10 2 110 (Some portionExpectedIn) 100)
              100 200 0 (Some (100, 10))) as (_ & H & _).
  - simpl. lia.
  - reflexivity.
  - exact H.
Defined.

End syncmgrProps.

(** ** Package [peering] *)

Module peeringProps.
Import peering.

Lemma applyPeerOp_idsAreKeys (now : Z) (op : Op) (ps ps' : Peers) :
  idsAreKeys ps -> applyPeerOp now op ps = Ok ps' -> idsAreKeys ps'.
Proof.
  intros Hk. destruct op as [pid nm static|pid|]; cbn [applyPeerOp].
  - intros H. apply Ok_inj in H. subst ps'. unfold addPeer.
    destruct (peers ps !! pid) as [q|] eqn:Hq; [exact Hk|].
    intros k q. unfold _addPeer. cbn [peers].
    destruct (decide (k = pid)) as [->|Hne].
    + rewrite lookup_insert_eq. intros [= <-]. reflexivity.
    + rewrite lookup_insert_ne by congruence. apply Hk.
  - unfold dropPeer.
    destruct (peers ps !! pid) as [q|] eqn:Hq.
    2:{ intros H. apply Ok_inj in H. subst ps'. exact Hk. }
    destruct (isStatic q) eqn:Hsq; cbn [negb].
    { intros H. apply Ok_inj in H. subst ps'. exact Hk. }
    unfold _dropPeer. rewrite Hsq.
    cbn [negb Assertf mbind outcome_bind Go.bind mret outcome_ret].
    intros H. apply Ok_inj in H. subst ps'.
    intros k q'. unfold _addToBlacklist. cbn [peers].
    intros Hl. apply lookup_delete_Some in Hl as [_ Hl]. exact (Hk _ _ Hl).
  - intros H. apply Ok_inj in H. subst ps'. exact Hk.
Qed.

Lemma applyPeerOp_static (now : Z) (op : Op) (ps ps' : Peers) (pid : peerID) (p : Peer) :
  idsAreKeys ps ->
  peers ps !! pid = Some p -> isStatic p = true ->
  applyPeerOp now op ps = Ok ps' ->
  peers ps' !! pid = Some p /\
  (isInBlacklist pid ps = false -> isInBlacklist pid ps' = false).
Proof.
  intros Hk Hp Hs. destruct op as [pid' nm static|pid'|]; cbn [applyPeerOp].
  - intros H. apply Ok_inj in H. subst ps'. unfold addPeer.
    destruct (peers ps !! pid') as [q|] eqn:Hq; [auto|].
    unfold _addPeer, isInBlacklist. cbn [peers blacklist].
    split; [|auto]. rewrite lookup_insert_ne; [exact Hp|]. congruence.
  - unfold dropPeer.
    destruct (peers ps !! pid') as [q|] eqn:Hq.
    2:{ intros H. apply Ok_inj in H. subst ps'. auto. }
    destruct (isStatic q) eqn:Hsq; cbn [negb].
    { intros H. apply Ok_inj in H. subst ps'. auto. }
    unfold _dropPeer. rewrite Hsq.
    cbn [negb Assertf mbind outcome_bind Go.bind mret outcome_ret].
    intros H. apply Ok_inj in H. subst ps'.
    assert (Hne : pid' <> pid) by (intros ->; congruence).
    rewrite (Hk _ _ Hq).
    unfold _addToBlacklist, isInBlacklist. cbn [peers blacklist].
    split.
    + rewrite lookup_delete_ne by assumption. exact Hp.
    + rewrite lookup_insert_ne by assumption. auto.
  - intros H. apply Ok_inj in H. subst ps'. cbn [cleanBlacklist peers].
    split; [exact Hp|]. unfold isInBlacklist. cbn [blacklist].
    intros Hb. apply bool_decide_eq_false in Hb. apply bool_decide_eq_false.
    intros [t Ht]. apply Hb. apply map_lookup_filter_Some in Ht as [Ht _]. eauto.
Qed.

(** X27.  A static peer is never dropped and never blacklisted: whatever peers
    are added and dropped and whenever the blacklist is cleaned, it stays
    in the map as it is. *)
Theorem static_peer_stays (ops : list (Z * Op)) (ps ps' : Peers)
    (pid : peerID) (p : Peer) :
  idsAreKeys ps ->
  peers ps !! pid = Some p -> isStatic p = true ->
  isInBlacklist pid ps = false ->
  applyPeerOps ops ps = Ok ps' ->
  peers ps' !! pid = Some p /\ isInBlacklist pid ps' = false.
Proof.
  revert ps. induction ops as [|[now op] ops IH]; intros ps Hk Hp Hs Hb.
  - cbn. intros H. apply Ok_inj in H. subst ps'. auto.
  - cbn [applyPeerOps].
    destruct (applyPeerOp now op ps) as [ps1| |] eqn:E;
      cbn [mbind outcome_bind Go.bind]; try discriminate.
    destruct (applyPeerOp_static now op ps ps1 pid p Hk Hp Hs E) as [Hp1 Hb1].
    apply IH; [exact (applyPeerOp_idsAreKeys _ _ _ _ Hk E)|exact Hp1|exact Hs|auto].
Qed.

(** X28.  A dynamic peer that is dropped leaves the map and is blacklisted for a
    minute: cleaning the blacklist keeps it there up to a minute after the
    drop and removes it later. *)
Theorem dropPeer_blacklists (now t : Z) (ps : Peers) (pid : peerID) (p : Peer) :
  idsAreKeys ps ->
  peers ps !! pid = Some p -> isStatic p = false ->
  exists ps' : Peers,
    dropPeer now pid ps = Ok ps' /\
    peers ps' !! pid = None /\
    isInBlacklist pid ps' = true /\
    isInBlacklist pid (cleanBlacklist t ps') = bool_decide (t <= now + minute).
Proof.
  intros Hk Hp Hs. unfold dropPeer, _dropPeer. rewrite Hp, Hs.
  cbn [negb Assertf mbind outcome_bind Go.bind mret outcome_ret].
  rewrite (Hk _ _ Hp).
  eexists. split; [reflexivity|].
  unfold _addToBlacklist, cleanBlacklist, isInBlacklist. cbn [peers blacklist].
  split; [apply lookup_delete_eq|]. split.
  - apply bool_decide_eq_true. rewrite lookup_insert_eq. eauto.
  - destruct (decide (t <= now + minute)) as [Ht|Ht].
    + rewrite (bool_decide_true (t <= now + minute)) by exact Ht.
      apply bool_decide_eq_true. exists (now + minute).
      apply map_lookup_filter_Some. split; [apply lookup_insert_eq|]. cbn. lia.
    + rewrite (bool_decide_false (t <= now + minute)) by exact Ht.
      apply bool_decide_eq_false. intros [t' Hl].
      apply map_lookup_filter_Some in Hl as [Hl Hn].
      rewrite lookup_insert_eq in Hl. apply (inj Some) in Hl. subst t'.
      cbn in Hn. lia.
Qed.

(** *** The ring of clock differences *)

Lemma mod10_cases (x : Z) :
  0 <= x < 20 -> x mod 10 = if x <? 10 then x else x - 10.
Proof.
  intros Hx. destruct (Z.ltb_spec x 10).
  - apply Z.mod_small. lia.
  - replace x with ((x - 10) + 1 * 10) at 1 by lia.
    rewrite Z.mod_add by lia. apply Z.mod_small. lia.
Qed.

Lemma evidence_step (d : Z) (p : Peer) :
  length (clockDifferences p) = 10%nat -> 0 <= clockDifferencesIdx p < 10 ->
  exists p' : Peer,
    _evidenceClockDifference d p = Ok p' /\
    clockDifferences p'
    = <[Z.to_nat (clockDifferencesIdx p) := d]> (clockDifferences p) /\
    clockDifferencesIdx p' = (clockDifferencesIdx p + 1) mod 10.
Proof.
  intros Hlen Hidx. unfold _evidenceClockDifference. rewrite Hlen.
  destruct (Z.leb_spec 0 (clockDifferencesIdx p)); [|lia].
  destruct (Z.ltb_spec (clockDifferencesIdx p) (Z.of_nat 10)); [|lia].
  cbn [andb mret outcome_ret]. eexists. split; [reflexivity|].
  cbn [clockDifferences clockDifferencesIdx]. split; [reflexivity|].
  apply Z.rem_mod_nonneg; lia.
Qed.

Lemma evidenceAll_spec (diffs : list Z) :
  forall p : Peer,
  length (clockDifferences p) = 10%nat -> 0 <= clockDifferencesIdx p < 10 ->
  exists p' : Peer,
    evidenceAll diffs p = Ok p' /\
    length (clockDifferences p') = 10%nat /\
    clockDifferencesIdx p'
    = (clockDifferencesIdx p + Z.of_nat (length diffs)) mod 10 /\
    (forall k : nat,
       (k < length diffs)%nat -> (length diffs - k <= 10)%nat ->
       clockDifferences p'
         !! Z.to_nat ((clockDifferencesIdx p + Z.of_nat k) mod 10)
       = diffs !! k) /\
    (forall pos : Z,
       0 <= pos < 10 ->
       (forall k : nat, (k < length diffs)%nat ->
          (clockDifferencesIdx p + Z.of_nat k) mod 10 <> pos) ->
       clockDifferences p' !! Z.to_nat pos = clockDifferences p !! Z.to_nat pos).
Proof.
  induction diffs as [|d rest IH]; intros p Hlen Hidx.
  - exists p. split; [reflexivity|]. split; [exact Hlen|].
    split; [cbn; rewrite Z.add_0_r; symmetry; apply Z.mod_small; lia|].
    split; [intros k Hk; cbn in Hk; lia|]. reflexivity.
  - destruct (evidence_step d p Hlen Hidx) as (p1 & Hs & Hbuf & Hidx1).
    cbn [evidenceAll]. rewrite Hs. cbn [mbind outcome_bind Go.bind].
    assert (Hlen1 : length (clockDifferences p1) = 10%nat)
      by (rewrite Hbuf, length_insert; exact Hlen).
    assert (Hr1 : 0 <= clockDifferencesIdx p1 < 10)
      by (rewrite Hidx1; apply Z.mod_pos_bound; lia).
    destruct (IH p1 Hlen1 Hr1) as (p' & Hrun & Hlen' & Hidx' & Hitems & Hframe).
    assert (Hshift : forall k : nat,
              (clockDifferencesIdx p1 + Z.of_nat k) mod 10
              = (clockDifferencesIdx p + Z.of_nat (Datatypes.S k)) mod 10).
    { intros k. rewrite Hidx1, Zplus_mod_idemp_l. f_equal. lia. }
    exists p'. split; [exact Hrun|]. split; [exact Hlen'|]. split; [|split].
    + rewrite Hidx'. rewrite Hidx1, Zplus_mod_idemp_l. f_equal. cbn [length]. lia.
    + intros [|k] Hk Hlast; cbn [length] in Hk, Hlast.
      * cbn [lookup list_lookup]. rewrite Z.add_0_r, Z.mod_small by lia.
        rewrite Hframe; [|exact Hidx|].
        -- rewrite Hbuf. apply list_lookup_insert_eq. lia.
        -- intros k Hk'. rewrite Hshift.
           rewrite mod10_cases by lia.
           destruct (Z.ltb_spec (clockDifferencesIdx p + Z.of_nat (Datatypes.S k)) 10); lia.
      * cbn [lookup list_lookup]. rewrite <- Hshift. apply Hitems; lia.
    + intros pos Hpos Hfree.
      rewrite Hframe; [|exact Hpos|].
      * rewrite Hbuf. apply list_lookup_insert_ne.
        specialize (Hfree 0%nat ltac:(cbn; lia)).
        rewrite Z.add_0_r, Z.mod_small in Hfree by lia. lia.
      * intros k Hk. rewrite Hshift. apply Hfree. cbn. lia.
Qed.

(** X29.  The clock differences are kept in a ring of ten: fed to a new peer,
    the last ten differences are all there, the [k]-th of them at index
    [k mod 10], and the write index is the number of differences modulo
    ten; no index is out of range. *)
Theorem clockDifferences_ring (diffs : list Z) (p : Peer) :
  length (clockDifferences p) = 10%nat -> clockDifferencesIdx p = 0 ->
  exists p' : Peer,
    evidenceAll diffs p = Ok p' /\
    clockDifferencesIdx p' = Z.of_nat (length diffs) mod 10 /\
    forall k : nat,
      (k < length diffs)%nat -> (length diffs - k <= 10)%nat ->
      clockDifferences p' !! (k mod 10)%nat = diffs !! k.
Proof.
  intros Hlen Hidx.
  destruct (evidenceAll_spec diffs p Hlen ltac:(lia))
    as (p' & Hrun & _ & Hidx' & Hitems & _).
  exists p'. split; [exact Hrun|]. rewrite Hidx in *. split; [exact Hidx'|].
  intros k Hk Hlast. rewrite <- (Hitems k Hk Hlast). f_equal.
  rewrite Z.add_0_l. change 10 with (Z.of_nat 10).
  rewrite <- Nat2Z.inj_mod. symmetry. apply Nat2Z.id.
Qed.

(** *** Ranked choice *)

Lemma firstAbove_spec (rnd : Z) (cumulativeRank : list Z) :
  forall i : Z,
  cumulativeRank <> [] -> rnd < List.last cumulativeRank 0 ->
  exists j : Z,
    firstAbove rnd cumulativeRank i = Ok (i + j) /\
    0 <= j < Z.of_nat (length cumulativeRank).
Proof.
  induction cumulativeRank as [|v rest IH]; intros i Hne Hlast; [congruence|].
  cbn [firstAbove]. destruct (Z.ltb_spec rnd v) as [Hv|Hv].
  - exists 0. rewrite Z.add_0_r. split; [reflexivity|]. cbn [length]. lia.
  - destruct rest as [|w rest'].
    + cbn in Hlast. lia.
    + destruct (IH (i + 1) ltac:(discriminate) Hlast) as (j & Hj & Hr).
      exists (1 + j). rewrite Z.add_assoc. split; [exact Hj|].
      cbn [length] in *. lia.
Qed.

Lemma chooseRandomRankedPeers_window (rnd n : Z) (rankedPeers : list peerID)
    (cumulativeRank : list Z) :
  length rankedPeers = length cumulativeRank ->
  0 <= n < Z.of_nat (length rankedPeers) ->
  0 < List.last cumulativeRank 0 ->
  exists k : nat,
    (k + Z.to_nat n <= length rankedPeers)%nat /\
    chooseRandomRankedPeers rnd n rankedPeers cumulativeRank
    = Ok (take (Z.to_nat n) (drop k rankedPeers)).
Proof.
  intros Hlen Hn Hlast. unfold chooseRandomRankedPeers, chooseRandomIndex.
  rewrite Hlen in *. rewrite Nat.eqb_refl.
  set (L := length cumulativeRank) in *.
  cbn [Assertf mbind outcome_bind Go.bind mret outcome_ret].
  rewrite (proj2 (Z.leb_gt (Z.of_nat L) n)) by lia.
  rewrite (proj2 (Z.ltb_lt n (Z.of_nat L))) by lia.
  rewrite (proj2 (Nat.ltb_lt 0 L)) by lia.
  cbn [Assertf mbind outcome_bind Go.bind mret outcome_ret].
  assert (Hne : cumulativeRank <> []).
  { intros E. subst L. rewrite E in Hn. cbn in Hn. lia. }
  unfold Intn. rewrite (proj2 (Z.leb_gt (List.last cumulativeRank 0) 0)) by lia.
  cbn [mbind outcome_bind Go.bind].
  pose proof (Z.mod_pos_bound rnd (List.last cumulativeRank 0) Hlast) as Hr.
  destruct (firstAbove_spec (rnd mod List.last cumulativeRank 0) cumulativeRank 0
              Hne ltac:(lia)) as (j & Hj & Hjr).
  rewrite Hj, Z.add_0_l. cbn [mbind outcome_bind Go.bind]. fold L in Hjr.
  rewrite (proj2 (Z.ltb_lt j (Z.of_nat L))) by lia.
  cbn [Assertf mbind outcome_bind Go.bind mret outcome_ret].
  unfold slice. rewrite Hlen. fold L.
  destruct (Z.ltb_spec (Z.of_nat L) (j + n)) as [Hc|Hc].
  - exists (L - Z.to_nat n)%nat. split; [lia|].
    rewrite (proj2 (Z.leb_le 0 (Z.of_nat L - n))) by lia.
    rewrite (proj2 (Z.leb_le (Z.of_nat L - n) (Z.of_nat L - n + n))) by lia.
    rewrite (proj2 (Z.leb_le (Z.of_nat L - n + n) (Z.of_nat L))) by lia.
    cbn [andb].
    replace (Z.to_nat (Z.of_nat L - n + n - (Z.of_nat L - n)))
      with (Z.to_nat n) by lia.
    replace (Z.to_nat (Z.of_nat L - n)) with (L - Z.to_nat n)%nat by lia.
    reflexivity.
  - exists (Z.to_nat j). split; [lia|].
    rewrite (proj2 (Z.leb_le 0 j)) by lia.
    rewrite (proj2 (Z.leb_le j (j + n))) by lia.
    rewrite (proj2 (Z.leb_le (j + n) (Z.of_nat L))) by lia.
    cbn [andb].
    replace (Z.to_nat (j + n - j)) with (Z.to_nat n) by lia. reflexivity.
Qed.

Lemma pullTargetsRanked_spec (walk : list (peerID * bool * Z)) :
  forall (ret : list peerID) (cum : list Z),
  length ret = length cum ->
  (pullTargetsRanked walk ret cum).1
  = ret ++ (List.filter (fun x => x.1.2) walk).*1.*1 /\
  length (pullTargetsRanked walk ret cum).2
  = length (pullTargetsRanked walk ret cum).1.
Proof.
  induction walk as [|[[pid isTarget] r] walk IH]; intros ret cum Hlen.
  - cbn. rewrite app_nil_r. auto.
  - cbn [pullTargetsRanked List.filter fst snd].
    destruct isTarget; cbn [negb].
    + destruct (IH (ret ++ [pid])
                  (match cum with
                   | [] => [r]
                   | _ :: _ => cum ++ [wrap_int (List.last cum 0 + r)]
                   end)) as [H1 H2].
      { rewrite length_app. destruct cum; cbn [length] in *.
        - destruct ret; cbn in *; [reflexivity|discriminate].
        - rewrite length_app. cbn. lia. }
      split; [|exact H2]. rewrite H1.
      cbn [fmap list_fmap fst]. rewrite <- app_assoc. reflexivity.
    + apply IH. exact Hlen.
Qed.

(** X30.  [randomPullTargets] answers with pull targets only: with all of them,
    in the order of the walk, when [n] is not less than their number, and
    otherwise, when the ranks add up to a positive number, with exactly [n]
    of them that follow one another in the walk.  When fewer are asked for
    than there are and the ranks add up to nothing, the random choice
    panics. *)
Theorem randomPullTargets_spec (rnd n : Z) (walk : list (peerID * bool * Z)) :
  let targets := (List.filter (fun x => x.1.2) walk).*1.*1 in
  let total := List.last (pullTargetsRanked walk [] []).2 0 in
  (Z.of_nat (length targets) <= n ->
   randomPullTargets rnd n walk = Ok targets) /\
  (0 <= n < Z.of_nat (length targets) -> 0 < total ->
   exists k : nat,
     (k + Z.to_nat n <= length targets)%nat /\
     randomPullTargets rnd n walk = Ok (take (Z.to_nat n) (drop k targets))) /\
  (0 <= n < Z.of_nat (length targets) -> total <= 0 ->
   randomPullTargets rnd n walk = Panic "invalid argument to Intn").
Proof.
  intros targets total. unfold randomPullTargets.
  destruct (pullTargetsRanked_spec walk [] [] eq_refl) as [H1 H2].
  subst total.
  destruct (pullTargetsRanked walk [] []) as [rp cr]. cbn [fst snd] in *.
  rewrite app_nil_l in H1. fold targets in H1. subst rp.
  split; [|split].
  - intros Hn. unfold chooseRandomRankedPeers. rewrite H2, Nat.eqb_refl.
    cbn [Assertf mbind outcome_bind Go.bind mret outcome_ret].
    rewrite (proj2 (Z.leb_le (Z.of_nat (length targets)) n)) by lia.
    reflexivity.
  - intros Hn Htotal.
    apply chooseRandomRankedPeers_window; [symmetry; exact H2|exact Hn|exact Htotal].
  - intros Hn Htotal. unfold chooseRandomRankedPeers, chooseRandomIndex.
    rewrite H2, Nat.eqb_refl.
    cbn [Assertf mbind outcome_bind Go.bind mret outcome_ret].
    rewrite (proj2 (Z.leb_gt (Z.of_nat (length targets)) n)) by lia.
    rewrite (proj2 (Z.ltb_lt n (Z.of_nat (length targets)))) by lia.
    rewrite (proj2 (Nat.ltb_lt 0 (length targets))) by lia.
    cbn [Assertf mbind outcome_bind Go.bind mret outcome_ret].
    unfold Intn. rewrite (proj2 (Z.leb_le (List.last cr 0) 0)) by lia.
    reflexivity.
Qed.

Lemma samplePeers_idsAreKeys : idsAreKeys samplePeers.
Proof.
  intros k q H. unfold samplePeers in H. cbn [peers] in H.
  apply lookup_insert_Some in H as [[<- <-]|[_ H]]; [reflexivity|].
  apply lookup_singleton_Some in H as [<- <-]. reflexivity.
Qed.

(** The static peer a is still there after an attempt to drop it and a cleaning of the blacklist. *)
Lemma static_peer_stays_witness :
  peers (cleanBlacklist 2 samplePeers) !! "a"%string = Some (samplePeer "a" true) /\
  isInBlacklist "a" (cleanBlacklist 2 samplePeers) = false.
Proof.
  apply (static_peer_stays [(1, OpDropPeer "a"); (2, OpCleanBlacklist)]
           samplePeers (cleanBlacklist 2 samplePeers)
           "a"%string (samplePeer "a" true)).
  - exact samplePeers_idsAreKeys.
  - reflexivity.
  - reflexivity.
  - reflexivity.
  - reflexivity.
Defined.

(** The dynamic peer b dropped at time 5 is off the blacklist when it is cleaned after a minute and a nanosecond. *)
Lemma dropPeer_blacklists_witness :
  exists ps' : Peers,
    dropPeer 5 "b" samplePeers = Ok ps' /\
    peers ps' !! "b"%string = None /\
    isInBlacklist "b" ps' = true /\
    isInBlacklist "b" (cleanBlacklist (6 + minute) ps') = false.
Proof.
  destruct (dropPeer_blacklists 5 (6 + minute) samplePeers "b"%string
              (samplePeer "b" false)) as (ps' & Hd & Hp & Hb & Hc).
  - exact samplePeers_idsAreKeys.
  - reflexivity.
  - reflexivity.
  - exists ps'. split; [exact Hd|]. split; [exact Hp|]. split; [exact Hb|].
    rewrite Hc. apply bool_decide_eq_false. lia.
Defined.

(** Twelve differences fed to a new peer: the twelfth is at index 1 and the third at index 2. *)
Lemma clockDifferences_ring_witness :
  exists p' : Peer,
    evidenceAll [1; 2; 3; 4; 5; 6; 7; 8; 9; 10; 11; 12] (samplePeer "a" true)
    = Ok p' /\
    clockDifferencesIdx p' = 2 /\
    clockDifferences p' !! 1%nat = Some 12 /\
    clockDifferences p' !! 2%nat = Some 3.
Proof.
  destruct (clockDifferences_ring [1; 2; 3; 4; 5; 6; 7; 8; 9; 10; 11; 12]
              (samplePeer "a" true)) as (p' & Hrun & Hidx & Hk).
  - reflexivity.
  - reflexivity.
  - exists p'. split; [exact Hrun|]. split; [exact Hidx|]. split.
    + apply (Hk 11%nat); cbn; lia.
    + apply (Hk 2%nat); cbn; lia.
Defined.

(** Five targets asked for, two there. *)
Lemma randomPullTargets_spec_witness :
  randomPullTargets 7 5 [("a"%string, true, 1); ("b"%string, false, 0);
                         ("c"%string, true, 2)]
  = Ok ["a"%string; "c"%string].
Proof.
  apply (proj1 (randomPullTargets_spec 7 5
                  [("a"%string, true, 1); ("b"%string, false, 0);
                   ("c"%string, true, 2)])).
  simpl. lia.
Defined.

End peeringProps.
